(** * Futoshiki as a CSP: encoders and propagators

    A shallow embedding of [futoshiki_csp.py] (the constraint materializer
    and the two board encoders) and of [propagators.py] (plain
    backtracking, forward checking and GAC), with the properties the
    specification states about them and further properties of the code.

    Python objects with identity (variables and constraints) are indices
    into the lists of the CSP object that owns them; the mutable state of
    the search (current domains, assignments) lives in that object and is
    threaded explicitly through the propagators. *)

From Stdlib Require Import ZArith Lia.
From stdpp Require Import base option list strings pretty.

Set Default Proof Using "Type".

(* ===================================================================== *)
(** ** The constraint store ([cspbase]) *)
(* ===================================================================== *)

(** Variables and constraints are named by their position in the model. *)
Abbreviation var_id := nat (only parsing).
Abbreviation con_id := nat (only parsing).

(** Modelled from the spec: the Variable class of [cspbase], which is
    imported by both source files but is not part of them.  A variable has
    an immutable original domain, a stored current domain (an ordered
    sub-list of the original one, which only shrinks while propagating and
    is kept when the variable is assigned so that it can be restored), and
    an optional assigned value. *)
Record variable := mkVariable {
  vname : string;
  dom : list Z;
  curdom : list Z;
  assignedValue : option Z
}.

(** Modelled from the spec: a fresh variable has its whole domain current
    and no value. *)
Definition new_Variable (name : string) (domain : list Z) : variable :=
  {| vname := name; dom := domain; curdom := domain; assignedValue := None |}.

(** What a name that is no variable of the model stands for: a variable
    without values.  Python has no such dangling reference. *)
#[global] Instance variable_inhabited : Inhabited variable :=
  populate (new_Variable "" []).

(** Modelled from the spec: the original-domain accessor. *)
Definition domain (v : variable) : list Z := dom v.

(** Modelled from the spec: the is-assigned predicate. *)
Definition is_assigned (v : variable) : bool :=
  match assignedValue v with Some _ => true | None => false end.

(** Modelled from the spec: the assigned-value accessor, [None] for an
    unassigned variable. *)
Definition get_assigned_value (v : variable) : option Z := assignedValue v.

(** Modelled from the spec: the current-domain accessor.  "If assigned,
    current domain = {assigned value}", whatever the stored domain holds. *)
Definition cur_domain (v : variable) : list Z :=
  match assignedValue v with
  | Some a => [a]
  | None => curdom v
  end.

(** Modelled from the spec: "lies within the current domain". *)
Definition in_cur_domain (v : variable) (x : Z) : bool :=
  bool_decide (x ∈ cur_domain v).

(** Modelled from the spec: prune(value) removes the value from the stored
    current domain. *)
Definition prune (x : Z) (v : variable) : variable :=
  {| vname := vname v; dom := dom v;
     curdom := filter (λ y, y ≠ x) (curdom v);
     assignedValue := assignedValue v |}.

(** Modelled from the spec: the Constraint class of [cspbase]: an operator
    tag, an ordered scope and the list of satisfying tuples, in scope
    order. *)
Record constraint := mkConstraint {
  cname : string;
  scope : list var_id;
  sat_tuples : list (list Z)
}.

(** Modelled from the spec: a fresh constraint has a tag and a scope, and
    no satisfying tuple yet. *)
Definition new_Constraint (name : string) (sc : list var_id) : constraint :=
  {| cname := name; scope := sc; sat_tuples := [] |}.

(** What a name that is no constraint of the model stands for. *)
#[global] Instance constraint_inhabited : Inhabited constraint :=
  populate (new_Constraint "" []).

(** Modelled from the spec: set-satisfying-tuples. *)
Definition add_satisfying_tuples (c : constraint) (tuples : list (list Z)) : constraint :=
  {| cname := cname c; scope := scope c; sat_tuples := tuples |}.

(** Modelled from the spec: check(tuple-of-values) is membership in the
    satisfying set. *)
Definition check (c : constraint) (vals : list Z) : bool :=
  bool_decide (vals ∈ sat_tuples c).

(** Modelled from the spec: the model (CSP class of [cspbase]): the
    variables, the constraints in the order they were added, and the index
    from a variable to the constraints whose scope contains it, which is
    derived from the two. *)
Record CSP := mkCSP {
  csp_name : string;
  csp_vars : list variable;
  csp_cons : list constraint
}.

(** Modelled from the spec: a new model holds the variables and no
    constraint. *)
Definition new_CSP (name : string) (vs : list variable) : CSP :=
  {| csp_name := name; csp_vars := vs; csp_cons := [] |}.

(** Modelled from the spec: add-constraint(constraint), at the end of the
    constraint list. *)
Definition add_constraint (csp : CSP) (c : constraint) : CSP :=
  {| csp_name := csp_name csp; csp_vars := csp_vars csp;
     csp_cons := csp_cons csp ++ [c] |}.

(** The objects behind the names. *)
Definition get_var (csp : CSP) (v : var_id) : variable := csp_vars csp !!! v.
Definition get_con (csp : CSP) (c : con_id) : constraint := csp_cons csp !!! c.

(** Modelled from the spec: the scope accessor. *)
Definition get_scope (csp : CSP) (c : con_id) : list var_id := scope (get_con csp c).

(** Modelled from the spec: all-constraints(), an ordered sequence. *)
Definition get_all_cons (csp : CSP) : list con_id := seq 0 (length (csp_cons csp)).

(** Modelled from the spec: constraints-referencing(variable), the
    constraints whose scope contains it, in the order they were added. *)
Definition get_cons_with_var (csp : CSP) (v : var_id) : list con_id :=
  filter (λ c, v ∈ get_scope csp c) (get_all_cons csp).

(** Modelled from the spec: count-of-unassigned-in-scope. *)
Definition get_n_unasgn (csp : CSP) (c : con_id) : nat :=
  length (filter (λ v, is_assigned (get_var csp v) = false) (get_scope csp c)).

(** Modelled from the spec: [var.prune_value(val)] on the variable object
    [v] of the model; the other objects are left as they are. *)
Definition prune_value (csp : CSP) (v : var_id) (x : Z) : CSP :=
  {| csp_name := csp_name csp;
     csp_vars := alter (prune x) v (csp_vars csp);
     csp_cons := csp_cons csp |}.

(** Modelled from the spec: has-support(variable, value): "some tuple in
    c's satisfying set assigns that value to that variable while all other
    scope variables' assigned components lie within their current
    domains". *)
Definition supports (csp : CSP) (sc : list var_id) (v : var_id) (x : Z)
    (t : list Z) : bool :=
  existsb (λ p, bool_decide (p.1 = v) && bool_decide (p.2 = x)) (zip sc t)
  && forallb (λ p, bool_decide (p.1 = v) || in_cur_domain (get_var csp p.1) p.2)
       (zip sc t).

Definition has_support (csp : CSP) (c : con_id) (v : var_id) (x : Z) : bool :=
  existsb (supports csp (get_scope csp c) v x) (sat_tuples (get_con csp c)).

(* ===================================================================== *)
(** ** [futoshiki_csp.py] *)
(* ===================================================================== *)

(** A board token: a cell value or an inequality symbol. *)
Inductive item :=
  | Num (z : Z)
  | Sym (s : string).

Definition board := list (list item).

(** [all_different_check(t)]: the double loop over [i < j]. *)
Fixpoint all_different_check (t : list Z) : bool :=
  match t with
  | [] => true
  | x :: r => forallb (λ y, negb (x =? y)%Z) r && all_different_check r
  end.

(** The lambdas of the [switch] dictionary; [None] is Python's IndexError
    on a tuple that is too short. *)
Definition switch_gt (t : list Z) : option bool :=
  a ← t !! 0; b ← t !! 1; Some (b <? a)%Z.
Definition switch_lt (t : list Z) : option bool :=
  a ← t !! 0; b ← t !! 1; Some (a <? b)%Z.
Definition switch_not_equal (t : list Z) : option bool :=
  a ← t !! 0; b ← t !! 1; Some (negb (a =? b)%Z).

(** [switch.get(name)]: [None] when the tag is not a key. *)
Definition switch (name : string) : option (list Z → option bool) :=
  if decide (name = ">") then Some switch_gt
  else if decide (name = "<") then Some switch_lt
  else if decide (name = "not_equal") then Some switch_not_equal
  else if decide (name = "all_different") then Some (λ t, Some (all_different_check t))
  else None.

(** [itertools.product] over the domains: the last factor varies fastest. *)
Fixpoint product (domains : list (list Z)) : list (list Z) :=
  match domains with
  | [] => [[]]
  | d :: rest => x ← d; (x ::.) <$> product rest
  end.

(** The loop [for t in ...: if switch.get(name)(t): sat_tup.append(t)];
    calling a missing entry or indexing a short tuple raises, which is
    [None] here. *)
Fixpoint keep_satisfying (p : option (list Z → option bool))
    (ts : list (list Z)) : option (list (list Z)) :=
  match ts with
  | [] => Some []
  | t :: rest =>
      f ← p; b ← f t; sat_tup ← keep_satisfying p rest;
      Some (if b : bool then t :: sat_tup else sat_tup)
  end.

Definition check_constraint_add_tuples (csp_variables : list variable)
    (c : constraint) : option constraint :=
  let domains := (λ v, domain (csp_variables !!! v)) <$> scope c in
  sat_tup ← keep_satisfying (switch (cname c)) (product domains);
  Some (add_satisfying_tuples c sat_tup).

(** Python list indexing, negative indices included. *)
Definition py_get {A} (l : list A) (j : Z) : option A :=
  if (0 <=? j)%Z then l !! Z.to_nat j
  else if (- Z.of_nat (length l) <=? j)%Z then l !! Z.to_nat (Z.of_nat (length l) + j)
  else None.

(** A loop whose body may raise. *)
Fixpoint for_each {A S} (body : S → A → option S) (l : list A) (s : S) : option S :=
  match l with
  | [] => Some s
  | x :: rest => s' ← body s x; for_each body rest s'
  end.

Definition range (n : nat) : list nat := seq 0 n.

(** [enumerate(l)] *)
Definition enumerate {A} (l : list A) : list (nat * A) := zip (seq 0 (length l)) l.

(** The variable-building loop over one row.  A cell token is a number; a
    string there is outside the input type of the encoders and is not
    modelled ([None]). *)
Fixpoint row_variables (full_domain : list Z) (i : nat) (row : list item)
    (number : bool) (j : nat) (csp_variables : list variable)
    (row_array : list var_id) : option (list variable * list var_id) :=
  match row with
  | [] => Some (csp_variables, row_array)
  | it :: rest =>
      if number then
        match it with
        | Num z =>
            let domain := if (z =? 0)%Z then full_domain else [z] in
            let var := new_Variable ("V" +:+ pretty i +:+ "," +:+ pretty j) domain in
            row_variables full_domain i rest false (S j)
              (csp_variables ++ [var]) (row_array ++ [length csp_variables])
        | Sym _ => None
        end
      else row_variables full_domain i rest true j csp_variables row_array
  end.

(** The first loop of both encoders: [variable_array] and [csp_variables]. *)
Definition build_variables (initial_futoshiki_board : board)
    : option (list variable * list (list var_id)) :=
  let full_domain := (λ i, Z.of_nat i + 1)%Z <$> range (length initial_futoshiki_board) in
  for_each (λ '(csp_variables, variable_array) '(i, row),
      '(csp_variables', row_array) ←
        row_variables full_domain i row true 0 csp_variables [];
      Some (csp_variables', variable_array ++ [row_array]))
    (enumerate initial_futoshiki_board) ([], []).

(** [c = Constraint(name, scope); check_constraint_add_tuples(c);
    csp.add_constraint(c)] *)
Definition emit (csp : CSP) (name : string) (sc : list var_id) : option CSP :=
  c ← check_constraint_add_tuples (csp_vars csp) (new_Constraint name sc);
  Some (add_constraint csp c).

(** [variable_array[i][j]] *)
Definition cell (variable_array : list (list var_id)) (i j : nat) : option var_id :=
  row ← variable_array !! i; row !! j.

(** The inequality loop over one row, shared by both encoders.  A token
    between two cells is a string; a number there is outside the input type
    and is not modelled ([None]). *)
Fixpoint row_symbols (row_array : list var_id) (row : list item)
    (is_symbol : bool) (j : Z) (csp : CSP) : option CSP :=
  match row with
  | [] => Some csp
  | it :: rest =>
      if is_symbol then
        match it with
        | Sym s =>
            if decide (s = ".") then row_symbols row_array rest false j csp
            else
              a ← py_get row_array j; b ← py_get row_array (j + 1);
              csp' ← emit csp s [a; b];
              row_symbols row_array rest false j csp'
        | Num _ => None
        end
      else row_symbols row_array rest true (j + 1) csp
  end.

Definition board_symbols (initial_futoshiki_board : board)
    (variable_array : list (list var_id)) (csp : CSP) : option CSP :=
  for_each (λ csp '(i, row),
      row_array ← variable_array !! i;
      row_symbols row_array row false (-1) csp)
    (enumerate initial_futoshiki_board) csp.

Definition futoshiki_csp_model_1 (initial_futoshiki_board : board)
    : option (CSP * list (list var_id)) :=
  '(csp_variables, variable_array) ← build_variables initial_futoshiki_board;
  let csp := new_CSP "Futoshiki-M1" csp_variables in
  let size := length initial_futoshiki_board in
  csp ← for_each (λ csp '(i, _),
      for_each (λ csp cur_item,
          csp ← for_each (λ csp j,
              a ← cell variable_array i cur_item; b ← cell variable_array i j;
              emit csp "not_equal" [a; b])
            (seq (cur_item + 1) (size - (cur_item + 1))) csp;
          for_each (λ csp k,
              a ← cell variable_array i cur_item; b ← cell variable_array k cur_item;
              emit csp "not_equal" [a; b])
            (seq (i + 1) (size - (i + 1))) csp)
        (range size) csp)
    (enumerate initial_futoshiki_board) csp;
  csp ← board_symbols initial_futoshiki_board variable_array csp;
  Some (csp, variable_array).

Definition futoshiki_csp_model_2 (initial_futoshiki_board : board)
    : option (CSP * list (list var_id)) :=
  '(csp_variables, variable_array) ← build_variables initial_futoshiki_board;
  let csp := new_CSP "Futoshiki-M2" csp_variables in
  let size := length initial_futoshiki_board in
  csp ← for_each (λ csp '(i, _),
      row_array ← variable_array !! i;
      emit csp "all_different" row_array)
    (enumerate initial_futoshiki_board) csp;
  csp ← for_each (λ csp j,
      vars ← mapM (λ row : list var_id, row !! j) variable_array;
      emit csp "all_different" vars)
    (range size) csp;
  csp ← board_symbols initial_futoshiki_board variable_array csp;
  Some (csp, variable_array).

(* ===================================================================== *)
(** ** [propagators.py] *)
(* ===================================================================== *)

(** What a propagator hands back: the verdict and the list of prunings,
    together with the model as its in-place updates left it. *)
Definition prunings := list (var_id * Z).
Definition outcome : Type := bool * prunings * CSP.

(** [c.check(vals)] on a list that may hold [None] for an unassigned
    variable: no satisfying tuple holds [None]. *)
Definition check_values (c : constraint) (vals : list (option Z)) : bool :=
  match mapM id vals with
  | Some t => check c t
  | None => false
  end.

(** *** Plain backtracking *)

Fixpoint bt_loop (csp : CSP) (constraints : list con_id) : bool * prunings :=
  match constraints with
  | [] => (true, [])
  | c :: rest =>
      if decide (get_n_unasgn csp c = 0) then
        let vars := get_scope csp c in
        let vals := (λ var, get_assigned_value (get_var csp var)) <$> vars in
        if negb (check_values (get_con csp c) vals) then (false, [])
        else bt_loop csp rest
      else bt_loop csp rest
  end.

Definition prop_BT (csp : CSP) (newVar : option var_id) : outcome :=
  match newVar with
  | None => (true, [], csp)
  | Some newVar => (bt_loop csp (get_cons_with_var csp newVar), csp)
  end.

(** *** Forward checking *)

(** The [enumerate(vars)] loop: builds [vals] with a placeholder [0] at
    the unassigned variable and remembers that variable and its index. *)
Fixpoint fc_scan (csp : CSP) (vars : list var_id) (i : nat)
    (unassignedVar : option var_id) (unassignedIndex : nat) (vals : list Z)
    : option var_id * nat * list Z :=
  match vars with
  | [] => (unassignedVar, unassignedIndex, vals)
  | var :: rest =>
      match get_assigned_value (get_var csp var) with
      | None => fc_scan csp rest (S i) (Some var) i (vals ++ [0%Z])
      | Some a => fc_scan csp rest (S i) unassignedVar unassignedIndex (vals ++ [a])
      end
  end.

(** The loop [for val in cur_dom] over the snapshot of the current
    domain. *)
Fixpoint fc_values (csp : CSP) (c : con_id) (unassignedVar : var_id)
    (unassignedIndex : nat) (vals : list Z) (cur_dom : list Z)
    (pruned : prunings) : CSP * prunings :=
  match cur_dom with
  | [] => (csp, pruned)
  | val :: rest =>
      let vals := <[unassignedIndex := val]> vals in
      if negb (check (get_con csp c) vals) then
        fc_values (prune_value csp unassignedVar val) c unassignedVar
          unassignedIndex vals rest (pruned ++ [(unassignedVar, val)])
      else fc_values csp c unassignedVar unassignedIndex vals rest pruned
  end.

(** The body of the loop over the constraints, for a constraint with one
    unassigned variable: the model and prune list after the value loop,
    and that variable.  [unassignedIndex], set to 0 before the loop, is
    overwritten by the scan before it is read, and the scan always finds
    the variable when exactly one scope variable is unassigned. *)
Definition fc_constraint (csp : CSP) (c : con_id) (pruned : prunings)
    : option (CSP * prunings * var_id) :=
  let vars := get_scope csp c in
  let '(unassignedVar, unassignedIndex, vals) := fc_scan csp vars 0 None 0 [] in
  unassignedVar ← unassignedVar;
  let cur_dom := cur_domain (get_var csp unassignedVar) in
  let '(csp', pruned') :=
    fc_values csp c unassignedVar unassignedIndex vals cur_dom pruned in
  Some (csp', pruned', unassignedVar).

Fixpoint fc_loop (csp : CSP) (constraints : list con_id) (pruned : prunings)
    : outcome :=
  match constraints with
  | [] => (true, pruned, csp)
  | c :: rest =>
      if decide (get_n_unasgn csp c = 1) then
        match fc_constraint csp c pruned with
        | Some (csp', pruned', unassignedVar) =>
            if decide (length (cur_domain (get_var csp' unassignedVar)) = 0)
            then (false, pruned', csp')
            else fc_loop csp' rest pruned'
        | None => fc_loop csp rest pruned
        end
      else fc_loop csp rest pruned
  end.

(** The constraints a call looks at: [csp.get_cons_with_var(newVar)] for a
    newly assigned variable, [csp.get_all_cons()] without one. *)
Definition constraints_of (csp : CSP) (newVar : option var_id) : list con_id :=
  match newVar with
  | Some newVar => get_cons_with_var csp newVar
  | None => get_all_cons csp
  end.

Definition prop_FC (csp : CSP) (newVar : option var_id) : outcome :=
  fc_loop csp (constraints_of csp newVar) [].

(** *** Generalized arc consistency *)

Definition gac_queue_t := list (var_id * con_id).

(** [[(var, constraint) for constraint in constraints
      for var in constraint.get_scope()]] *)
Definition gac_seed (csp : CSP) (constraints : list con_id) : gac_queue_t :=
  c ← constraints; (λ var, (var, c)) <$> get_scope csp c.

(** The loop [for val in var.cur_domain()] of one worklist entry.  [inl]
    is the early [return False, pruned] on a wiped-out domain; [inr] carries
    [is_shrinked_domain] to the rest of the iteration. *)
Fixpoint gac_values (csp : CSP) (c : con_id) (var : var_id) (cur_dom : list Z)
    (pruned : prunings) (is_shrinked_domain : bool)
    : (CSP * prunings) + (CSP * prunings * bool) :=
  match cur_dom with
  | [] => inr (csp, pruned, is_shrinked_domain)
  | val :: rest =>
      if negb (has_support csp c var val) then
        let csp := prune_value csp var val in
        let pruned := pruned ++ [(var, val)] in
        if decide (length (cur_domain (get_var csp var)) = 0)
        then inl (csp, pruned)
        else gac_values csp c var rest pruned true
      else gac_values csp c var rest pruned is_shrinked_domain
  end.

(** The two nested loops that put back on the worklist the other
    variables of the constraints over [var]. *)
Definition gac_enqueue (csp : CSP) (var : var_id) (gac_queue : gac_queue_t)
    : gac_queue_t :=
  foldl (λ gac_queue c,
      foldl (λ gac_queue v,
          if decide (v = var) then gac_queue
          else if decide ((v, c) ∈ gac_queue) then gac_queue
          else gac_queue ++ [(v, c)])
        gac_queue (get_scope csp c))
    gac_queue (get_cons_with_var csp var).

(** One iteration of [while gac_queue], on a non-empty worklist. *)
Definition gac_iteration (csp : CSP) (var : var_id) (c : con_id)
    (gac_queue : gac_queue_t) (pruned : prunings)
    : (CSP * prunings) + (CSP * gac_queue_t * prunings) :=
  match gac_values csp c var (cur_domain (get_var csp var)) pruned false with
  | inl wiped => inl wiped
  | inr (csp, pruned, is_shrinked_domain) =>
      inr (csp,
           if is_shrinked_domain then gac_enqueue csp var gac_queue else gac_queue,
           pruned)
  end.

(** The [while] loop, with a bound on the number of iterations: [None]
    when the bound is reached with the worklist still not empty. *)
Fixpoint gac_loop (fuel : nat) (csp : CSP) (gac_queue : gac_queue_t)
    (pruned : prunings) : option outcome :=
  match gac_queue with
  | [] => Some (true, pruned, csp)
  | (var, c) :: gac_queue =>
      match fuel with
      | O => None
      | S fuel =>
          match gac_iteration csp var c gac_queue pruned with
          | inl (csp, pruned) => Some (false, pruned, csp)
          | inr (csp, gac_queue, pruned) => gac_loop fuel csp gac_queue pruned
          end
      end
  end.

Definition prop_GAC (fuel : nat) (csp : CSP) (newVar : option var_id)
    : option outcome :=
  gac_loop fuel csp (gac_seed csp (constraints_of csp newVar)) [].

(** Modelled from the spec: the model after the search driver has given
    the variable [v] the value [x]; the stored current domain is kept for
    the restoring on backtrack. *)
Definition assign (csp : CSP) (v : var_id) (x : Z) : CSP :=
  {| csp_name := csp_name csp;
     csp_vars := alter (λ var, {| vname := vname var; dom := dom var;
                               curdom := curdom var;
                               assignedValue := Some x |}) v (csp_vars csp);
     csp_cons := csp_cons csp |}.

Definition model_of (r : option (CSP * list (list var_id))) : CSP :=
  match r with Some (csp, _) => csp | None => new_CSP "" [] end.

(* ===================================================================== *)
(** ** Vocabulary of the statements *)
(* ===================================================================== *)

(** [t] is the tuple of the values assigned to the scope of [c]; there is
    one exactly when every variable of the scope is assigned. *)
Definition assigned_tuple (csp : CSP) (c : con_id) (t : list Z) : Prop :=
  Forall2 (λ v x, get_assigned_value (get_var csp v) = Some x) (get_scope csp c) t.

(** A constraint over [v] that is fully assigned and whose assigned tuple
    is not in its satisfying set. *)
Definition violated_at (csp : CSP) (v : var_id) : Prop :=
  ∃ c t, c ∈ get_all_cons csp ∧ v ∈ get_scope csp c ∧
         assigned_tuple csp c t ∧ t ∉ sat_tuples (get_con csp c).

(** The tuple forward checking tests for the value [val] of the unassigned
    variable [u] of [c]: [val] in the slot of [u], the assigned values in
    the others. *)
Definition fc_tuple (csp : CSP) (c : con_id) (u : var_id) (val : Z) : list Z :=
  (λ v, if decide (v = u) then val
        else default 0%Z (get_assigned_value (get_var csp v))) <$> get_scope csp c.

(** The model after the prunings [l], applied in order. *)
Definition prune_all (csp : CSP) (l : prunings) : CSP :=
  foldl (λ csp p, prune_value csp p.1 p.2) csp l.

(** Replaying a prune list on a model: every value has to be in the
    current domain of its variable when its turn comes. *)
Fixpoint replay (csp : CSP) (l : prunings) : option CSP :=
  match l with
  | [] => Some csp
  | (v, x) :: rest =>
      if in_cur_domain (get_var csp v) x then replay (prune_value csp v x) rest
      else None
  end.

(** No stored current domain lists a value twice. *)
Definition domains_nodup (csp : CSP) : Prop :=
  Forall (λ v, NoDup (curdom v)) (csp_vars csp).

(** The claim that a propagator never prunes the value an assigned
    variable holds. *)
Definition spares_assigned_values (prop : CSP → option var_id → option outcome) : Prop :=
  ∀ csp newVar b pruned csp' v x,
    prop csp newVar = Some (b, pruned, csp') →
    (v, x) ∈ pruned → get_assigned_value (get_var csp v) ≠ Some x.

(** The claim that a successful call of [prop_GAC] leaves a model on
    which a call without a newly assigned variable prunes nothing. *)
Definition gac_fixed_point_after_any_call : Prop :=
  ∀ fuel csp newVar pruned csp',
    prop_GAC fuel csp newVar = Some (true, pruned, csp') →
    ∃ fuel', prop_GAC fuel' csp' None = Some (true, [], csp').

(** The first [n] iterations of the worklist loop of [prop_GAC], when the
    loop gets that far: the model, worklist and prune list it has then. *)
Fixpoint gac_steps (n : nat) (csp : CSP) (gac_queue : gac_queue_t)
    (pruned : prunings) : option (CSP * gac_queue_t * prunings) :=
  match n with
  | O => Some (csp, gac_queue, pruned)
  | S n =>
      match gac_queue with
      | [] => None
      | (var, c) :: gac_queue =>
          match gac_iteration csp var c gac_queue pruned with
          | inl _ => None
          | inr (csp, gac_queue, pruned) => gac_steps n csp gac_queue pruned
          end
      end
  end.

(** The worklist loop, started on the worklist [gac_queue] with the prune
    list [pruned], ends with its [n]-th iteration: the first [n]
    iterations leave the worklist empty, which is success, or the [n]-th
    one empties a domain, which is failure. *)
Definition gac_ends (n : nat) (csp : CSP) (gac_queue : gac_queue_t)
    (pruned : prunings) (r : outcome) : Prop :=
  (∃ csp' pruned', gac_steps n csp gac_queue pruned = Some (csp', [], pruned') ∧
                   r = (true, pruned', csp')) ∨
  (∃ m csp1 var c q p1 csp' pruned',
     n = S m ∧
     gac_steps m csp gac_queue pruned = Some (csp1, (var, c) :: q, p1) ∧
     gac_iteration csp1 var c q p1 = inl (csp', pruned') ∧
     r = (false, pruned', csp')).

(** The claim that a pruning from the variable of the popped pair
    [(var, c)] puts on the worklist pairs of the other constraints over
    [var] only. *)
Definition enqueues_for_other_constraints : Prop :=
  ∀ csp newVar n csp1 var c q p1 csp' q' pruned',
    gac_steps n csp (gac_seed csp (constraints_of csp newVar)) []
      = Some (csp1, (var, c) :: q, p1) →
    gac_iteration csp1 var c q p1 = inr (csp', q', pruned') →
    pruned' ≠ p1 →
    ∀ u c', (u, c') ∈ q' ↔
            (u, c') ∈ q ∨
            (c' ∈ get_cons_with_var csp var ∧ c' ≠ c ∧
             u ∈ get_scope csp c' ∧ u ≠ var).

(** The invariants of the data model on constraints: no variable twice
    in a scope, and satisfying tuples of the arity of the scope. *)
Definition scopes_nodup (csp : CSP) : Prop :=
  Forall (λ c, NoDup (scope c)) (csp_cons csp).

Definition constraints_wf (csp : CSP) : Prop :=
  Forall (λ c, NoDup (scope c) ∧
               Forall (λ t, length t = length (scope c)) (sat_tuples c))
    (csp_cons csp).

(** [c] still has an unassigned variable with a value left. *)
Definition open_constraint (csp : CSP) (c : con_id) : Prop :=
  Exists (λ u, get_assigned_value (get_var csp u) = None ∧
               cur_domain (get_var csp u) ≠ [])
    (get_scope csp c).

(** [c] is fully assigned, with a tuple of its satisfying set. *)
Definition satisfied (csp : CSP) (c : con_id) : Prop :=
  Exists (assigned_tuple csp c) (sat_tuples (get_con csp c)).

(** The states a search reaches that propagates after each assignment
    and undoes a failed call: no constraint is fully assigned and
    violated, and no constraint has run out of values. *)
Definition consistent_assignments (csp : CSP) : Prop :=
  Forall (λ c, open_constraint csp c ∨ satisfied csp c) (get_all_cons csp).

(** No pruning of the list is of an assigned variable. *)
Definition prunes_unassigned (csp : CSP) (pruned : prunings) : Prop :=
  Forall (λ p, get_assigned_value (get_var csp p.1) = None) pruned.

(** Before a call for [newVar], the pairs the call does not seed are
    supported: the rest of the model is arc consistent. *)
Definition arc_consistent_outside (csp : CSP) (newVar : option var_id) : Prop :=
  Forall (λ p, p ∈ gac_seed csp (constraints_of csp newVar) ∨
               Forall (λ x, has_support csp p.2 p.1 x = true)
                 (cur_domain (get_var csp p.1)))
    (gac_seed csp (get_all_cons csp)).

#[global] Instance arc_consistent_outside_dec csp newVar :
  Decision (arc_consistent_outside csp newVar).
Proof. unfold arc_consistent_outside. apply _. Defined.
#[global] Instance domains_nodup_dec csp : Decision (domains_nodup csp).
Proof. unfold domains_nodup. apply _. Defined.
#[global] Instance scopes_nodup_dec csp : Decision (scopes_nodup csp).
Proof. unfold scopes_nodup. apply _. Defined.
#[global] Instance constraints_wf_dec csp : Decision (constraints_wf csp).
Proof. unfold constraints_wf. apply _. Defined.
#[global] Instance consistent_assignments_dec csp : Decision (consistent_assignments csp).
Proof.
  unfold consistent_assignments, open_constraint, satisfied, assigned_tuple. apply _.
Defined.
#[global] Instance prunes_unassigned_dec csp pruned : Decision (prunes_unassigned csp pruned).
Proof. unfold prunes_unassigned. apply _. Defined.

(** Every value of the current domain of [v] has support in [c]. *)
Definition supported (csp : CSP) (v : var_id) (c : con_id) : Prop :=
  ∀ x, x ∈ cur_domain (get_var csp v) → has_support csp c v x = true.

(** What the operator tags mean, after the specification: greater-than
    and less-than compare the first component with the second, not-equal
    tells them apart, all-different wants the components pairwise
    distinct. *)
Definition satisfies_operator (name : string) (t : list Z) : Prop :=
  (name = ">" ∧ ∃ a b, t !! 0 = Some a ∧ t !! 1 = Some b ∧ (a > b)%Z) ∨
  (name = "<" ∧ ∃ a b, t !! 0 = Some a ∧ t !! 1 = Some b ∧ (a < b)%Z) ∨
  (name = "not_equal" ∧ ∃ a b, t !! 0 = Some a ∧ t !! 1 = Some b ∧ a ≠ b) ∨
  (name = "all_different" ∧
   ∀ i j x y, i < j → t !! i = Some x → t !! j = Some y → x ≠ y).

(** The same as a test, for use in [filter]. *)
Definition operator_holds (name : string) (t : list Z) : bool :=
  match t with
  | a :: b :: _ =>
      if decide (name = ">") then bool_decide (a > b)%Z
      else if decide (name = "<") then bool_decide (a < b)%Z
      else if decide (name = "not_equal") then bool_decide (a ≠ b)
      else bool_decide (name = "all_different" ∧ NoDup t)
  | _ => bool_decide (name = "all_different")
  end.

(** The original domains of the scope of a constraint, in scope order. *)
Definition scope_domains (csp_variables : list variable) (c : constraint) : list (list Z) :=
  (λ v, domain (csp_variables !!! v)) <$> scope c.

(** The current domains of the scope of a constraint, in scope order. *)
Definition scope_cur_domains (csp_variables : list variable) (c : constraint)
    : list (list Z) :=
  (λ v, cur_domain (csp_variables !!! v)) <$> scope c.

(** The four operator tags. *)
Definition known_tag (name : string) : Prop :=
  name = ">" ∨ name = "<" ∨ name = "not_equal" ∨ name = "all_different".

(** All constraints of the model carry one of the four tags. *)
Definition tags_known (csp : CSP) : Prop :=
  Forall (λ c, known_tag (cname c)) (csp_cons csp).

(** The input format of the encoders: a row of [n] cells is [2n-1]
    tokens, cell values and inequality symbols in turn, a cell first and
    last; a board of [n] rows has rows of [n] cells. *)
Fixpoint row_ok (n : nat) (row : list item) : bool :=
  match n, row with
  | 1, [Num _] => true
  | S n, Num _ :: Sym s :: rest =>
      bool_decide (s = ">" ∨ s = "<" ∨ s = ".") && row_ok n rest
  | _, _ => false
  end.

Definition board_ok (initial_futoshiki_board : board) : bool :=
  forallb (row_ok (length initial_futoshiki_board)) initial_futoshiki_board.

(** A square grid of variable names. *)
Definition grid (n : nat) (variable_array : list (list var_id)) : Prop :=
  length variable_array = n ∧ Forall (λ row_array, length row_array = n) variable_array.

(* ===================================================================== *)
(** ** Vocabulary of the proofs *)
(* ===================================================================== *)

(** The value forward checking puts in the slot of a variable before it
    looks at the unassigned one. *)
Definition placeholder (csp : CSP) (v : var_id) : Z :=
  default 0%Z (get_assigned_value (get_var csp v)).

(** The values of [dom] that fail the check, with [val] in slot [idx]. *)
Definition failing (csp : CSP) (c : con_id) (idx : nat) (vals dom : list Z) : list Z :=
  filter (λ val, check (get_con csp c) (<[idx:=val]> vals) = false) dom.

(** What examining a constraint with one unassigned variable [u] prunes:
    every value of the current domain of [u] whose tuple fails the check,
    in domain order. *)
Definition fc_failing (csp : CSP) (c : con_id) (u : var_id) : list Z :=
  filter (λ val, check (get_con csp c) (fc_tuple csp c u val) = false)
    (cur_domain (get_var csp u)).

(** The values of [dom] without support in [c]. *)
Definition unsupported (csp : CSP) (c : con_id) (var : var_id) (dom : list Z) : list Z :=
  filter (λ val, has_support csp c var val = false) dom.

(** [if p not in gac_queue: gac_queue.append(p)] *)
Definition add_new (q : gac_queue_t) (p : var_id * con_id) : gac_queue_t :=
  if decide (p ∈ q) then q else q ++ [p].

(** The pairs the two loops of [gac_enqueue] go through, in order. *)
Definition enqueue_candidates (csp : CSP) (var : var_id) : gac_queue_t :=
  c ← get_cons_with_var csp var;
  (λ v, (v, c)) <$> filter (λ v, v ≠ var) (get_scope csp c).

(** No value of a current domain has support in [c]. *)
Definition dead (csp : CSP) (c : con_id) : Prop :=
  ∀ v x, x ∈ cur_domain (get_var csp v) → has_support csp c v x = false.

(** The number of values in the stored current domains. *)
Definition domain_size (csp : CSP) : nat :=
  sum_list ((λ v, length (curdom v)) <$> csp_vars csp).

(** Every pending pair names a constraint of the model and a variable of
    its scope. *)
Definition queue_ok (csp : CSP) (q : gac_queue_t) : Prop :=
  ∀ v c, (v, c) ∈ q → c ∈ get_all_cons csp ∧ v ∈ get_scope csp c.

Definition gac_terminates (csp : CSP) (q : gac_queue_t) (pruned : prunings) : Prop :=
  ∃ fuel r, gac_loop fuel csp q pruned = Some r.

(** Every pair the call was seeded with is pending or supported. *)
Definition gac_inv (seed : gac_queue_t) (csp : CSP) (q : gac_queue_t) : Prop :=
  ∀ v c, (v, c) ∈ seed → (v, c) ∈ q ∨ supported csp v c.

(* ===================================================================== *)
(** ** Vocabulary of the further properties *)
(* ===================================================================== *)

(** [σ], which lists a value for every variable of the model by position,
    is a solution within the current domains: in every constraint it gives
    each scope variable a value of its current domain (for an assigned
    variable, the value it holds), and the tuple of these values is in the
    satisfying set. *)
Definition solution (csp : CSP) (σ : list Z) : Prop :=
  Forall (λ c, Forall (λ v, σ !!! v ∈ cur_domain (get_var csp v)) (scope c) ∧
               ((σ !!!.) <$> scope c) ∈ sat_tuples c)
    (csp_cons csp).

#[global] Instance solution_dec csp σ : Decision (solution csp σ).
Proof. unfold solution. apply _. Defined.

(** Every value left to an unassigned variable of [c] passes the check of
    [c] together with the values assigned to the other variables. *)
Definition forward_checked (csp : CSP) (c : con_id) : Prop :=
  ∀ u val, u ∈ get_scope csp c → get_assigned_value (get_var csp u) = None →
           val ∈ cur_domain (get_var csp u) →
           check (get_con csp c) (fc_tuple csp c u val) = true.

(** Every value of every current domain has support in every constraint
    over its variable. *)
Definition arc_consistent (csp : CSP) : Prop :=
  ∀ c v, c ∈ get_all_cons csp → v ∈ get_scope csp c → supported csp v c.

(** No variable of the model has run out of values. *)
Definition domains_nonempty (csp : CSP) : Prop :=
  Forall (λ v, cur_domain v ≠ []) (csp_vars csp).

#[global] Instance domains_nonempty_dec csp : Decision (domains_nonempty csp).
Proof. unfold domains_nonempty. apply _. Defined.

(** The scopes name variables of the model. *)
Definition scopes_in_range (csp : CSP) : Prop :=
  Forall (λ c, Forall (λ v, v < length (csp_vars csp)) (scope c)) (csp_cons csp).

#[global] Instance scopes_in_range_dec csp : Decision (scopes_in_range csp).
Proof. unfold scopes_in_range. apply _. Defined.

(** *** The encoders, spelled out *)

(** The model with further constraints at the end of its list. *)
Definition extend (csp : CSP) (l : list constraint) : CSP :=
  {| csp_name := csp_name csp; csp_vars := csp_vars csp;
     csp_cons := csp_cons csp ++ l |}.

(** The constraint with the tag [name] over [sc] whose satisfying tuples
    are the tuples of the product of the original domains, in product
    order, for which the operator holds. *)
Definition materialized (csp_variables : list variable) (name : string)
    (sc : list var_id) : constraint :=
  {| cname := name; scope := sc;
     sat_tuples := filter (λ t, operator_holds name t = true)
                     (product ((λ v, domain (csp_variables !!! v)) <$> sc)) |}.

(** The shape of a board: [n] rows of [2n-1] tokens, numbers and strings
    in turn, whatever the strings are. *)
Fixpoint row_shape (n : nat) (row : list item) : bool :=
  match n, row with
  | 1, [Num _] => true
  | S n, Num _ :: Sym _ :: rest => row_shape n rest
  | _, _ => false
  end.

Definition board_shape (initial_futoshiki_board : board) : bool :=
  forallb (row_shape (length initial_futoshiki_board)) initial_futoshiki_board.

(** The numbers in the cells of a row. *)
Fixpoint row_cells (row : list item) : list Z :=
  match row with
  | [Num z] => [z]
  | Num z :: Sym _ :: rest => z :: row_cells rest
  | _ => []
  end.

(** The strings other than ['.'] between the cells of a row, each with the
    column of the cell on its left, counted from [j]. *)
Fixpoint row_inequalities (row : list item) (j : nat) : list (string * nat) :=
  match row with
  | Num _ :: Sym s :: rest =>
      (if decide (s = ".") then [] else [(s, j)]) ++ row_inequalities rest (S j)
  | _ => []
  end.

(** The strings other than ['.'] of a board, row by row. *)
Definition board_inequalities (initial_futoshiki_board : board) : list string :=
  row ← initial_futoshiki_board; fst <$> row_inequalities row 0.

(** The token of the cell in row [i] and column [j], and the token
    between that cell and the next of the row. *)
Definition board_cell (initial_futoshiki_board : board) (i j : nat) : option item :=
  row ← initial_futoshiki_board !! i; row !! (2 * j).
Definition board_symbol (initial_futoshiki_board : board) (i j : nat) : option item :=
  row ← initial_futoshiki_board !! i; row !! (2 * j + 1).

(** The domain of a cell of a board of size [n] that holds [z]. *)
Definition cell_domain (n : nat) (z : Z) : list Z :=
  if (z =? 0)%Z then (λ i, (Z.of_nat i + 1)%Z) <$> range n else [z].

(** The variables of a board, row by row. *)
Definition board_variables (initial_futoshiki_board : board) : list variable :=
  '(i, row) ← enumerate initial_futoshiki_board;
  (λ '(j, z), new_Variable ("V" +:+ pretty i +:+ "," +:+ pretty j)
                (cell_domain (length initial_futoshiki_board) z))
    <$> enumerate (row_cells row).

(** The variable array of a board of size [n]: the cell in row [i] and
    column [j] is variable [i * n + j]. *)
Definition variable_grid (n : nat) : list (list var_id) :=
  (λ i, seq (i * n) n) <$> seq 0 n.

(** The not-equal constraints of model 1, in the order of its loops. *)
Definition not_equal_constraints (n : nat) (csp_variables : list variable)
    : list constraint :=
  i ← seq 0 n; cur_item ← seq 0 n;
  ((λ j, materialized csp_variables "not_equal" [i * n + cur_item; i * n + j])
     <$> seq (cur_item + 1) (n - (cur_item + 1))) ++
  ((λ k, materialized csp_variables "not_equal" [i * n + cur_item; k * n + cur_item])
     <$> seq (i + 1) (n - (i + 1))).

(** The all-different constraints of model 2: the rows, then the columns. *)
Definition all_different_constraints (n : nat) (csp_variables : list variable)
    : list constraint :=
  ((λ i, materialized csp_variables "all_different" (seq (i * n) n)) <$> seq 0 n) ++
  ((λ j, materialized csp_variables "all_different" ((λ i, i * n + j) <$> seq 0 n))
     <$> seq 0 n).

(** The constraints of the strings between the cells, row by row. *)
Definition inequality_constraints (initial_futoshiki_board : board)
    (csp_variables : list variable) : list constraint :=
  let n := length initial_futoshiki_board in
  '(i, row) ← enumerate initial_futoshiki_board;
  (λ '(s, j), materialized csp_variables s [i * n + j; i * n + (j + 1)])
    <$> row_inequalities row 0.

(** The strings the inequality loop can make a constraint of: the keys of
    [switch]. *)
Definition symbols_known (initial_futoshiki_board : board) : bool :=
  forallb (λ s, bool_decide (is_Some (switch s)))
    (board_inequalities initial_futoshiki_board).

(** The rules of the puzzle for a filling [σ] of the board, which puts
    [σ !!! (i * n + j)] in the cell of row [i] and column [j]: an empty
    cell holds a number from 1 to [n] and a pre-set cell its number, no
    number occurs twice in a row or in a column, and the inequalities
    between neighbours in a row hold. *)
Definition futoshiki_rules (initial_futoshiki_board : board) (σ : list Z) : Prop :=
  let n := length initial_futoshiki_board in
  (∀ i j z, i < n → j < n →
            board_cell initial_futoshiki_board i j = Some (Num z) →
            σ !!! (i * n + j) ∈ cell_domain n z) ∧
  (∀ i j j', i < n → j < j' → j' < n →
             σ !!! (i * n + j) ≠ σ !!! (i * n + j')) ∧
  (∀ i i' j, i < i' → i' < n → j < n →
             σ !!! (i * n + j) ≠ σ !!! (i' * n + j)) ∧
  (∀ i j, i < n → j + 1 < n →
          board_symbol initial_futoshiki_board i j = Some (Sym "<") →
          (σ !!! (i * n + j)%nat < σ !!! (i * n + (j + 1))%nat)%Z) ∧
  (∀ i j, i < n → j + 1 < n →
          board_symbol initial_futoshiki_board i j = Some (Sym ">") →
          (σ !!! (i * n + j)%nat > σ !!! (i * n + (j + 1))%nat)%Z).

(** [σ] meets the constraint with the tag [name] over [sc]: its values
    are in the original domains and the operator holds for them. *)
Definition meets (csp_variables : list variable) (σ : list Z) (name : string)
    (sc : list var_id) : Prop :=
  Forall (λ v, σ !!! v ∈ domain (csp_variables !!! v)) sc ∧
  operator_holds name ((σ !!!.) <$> sc) = true.

(** A constraint over cells of a board of size [n], each named once,
    with satisfying tuples of the arity of its scope. *)
Definition well_scoped (n : nat) (c : constraint) : Prop :=
  NoDup (scope c) ∧ scope c ≠ [] ∧
  Forall (λ v, ∃ i j, i < n ∧ j < n ∧ v = i * n + j) (scope c) ∧
  Forall (λ t, length t = length (scope c)) (sat_tuples c).

(* ===================================================================== *)
(** ** Example boards and models *)
(* ===================================================================== *)

Definition board_2x2 : board :=
  [ [Num 0; Sym "<"; Num 0]; [Num 0; Sym "."; Num 0] ].

(** The board of the specification that has no completion. *)
Definition board_unsolvable : board :=
  [ [Num 2; Sym "<"; Num 1]; [Num 1; Sym "."; Num 2] ].

Definition board_row_clash : board :=
  [ [Num 1; Sym "."; Num 1]; [Num 0; Sym "."; Num 0] ].

Definition board_clash_lt : board :=
  [ [Num 1; Sym "<"; Num 1]; [Num 1; Sym "."; Num 2] ].

Definition board_3x3 : board :=
  [ [Num 0; Sym "<"; Num 0; Sym "."; Num 0];
    [Num 0; Sym "."; Num 0; Sym "."; Num 0];
    [Num 0; Sym "."; Num 0; Sym "."; Num 0] ].

Definition model_2x2 : CSP := model_of (futoshiki_csp_model_1 board_2x2).

(** Models in which a driver has assigned the named cells. *)
Definition fc_wipeout_model : CSP :=
  assign (model_of (futoshiki_csp_model_1 board_row_clash)) 0 1.

Definition gac_assigned_model : CSP :=
  assign (model_of (futoshiki_csp_model_1 board_unsolvable)) 0 2.

Definition gac_twice_model : CSP :=
  assign (assign (model_of (futoshiki_csp_model_1 board_clash_lt)) 0 1) 1 1.

Definition gac_stuck_model : CSP :=
  assign (assign (assign (assign
    (model_of (futoshiki_csp_model_1 board_unsolvable)) 0 2) 1 1) 2 1) 3 2.

Definition gac_corner_model : CSP :=
  assign (model_of (futoshiki_csp_model_1 board_3x3)) 8 1.

(** The model a given number of iterations of GAC leave, or the model
    itself when they do not reach the end. *)
Definition after_GAC (fuel : nat) (csp : CSP) (newVar : option var_id) : CSP :=
  match prop_GAC fuel csp newVar with
  | Some (_, _, csp') => csp'
  | None => csp
  end.

(** The 3x3 board after the pre-search call of GAC, with a corner
    assigned then. *)
Definition gac_search_3x3 : CSP :=
  assign (after_GAC 50 (model_of (futoshiki_csp_model_1 board_3x3)) None) 8 1.

(** A 4x4 board in a search that runs GAC before any assignment and then
    assigns 3 to the first cell, a value GAC left in its current domain. *)
Definition board_4x4 : board :=
  [ [Num 0; Sym "<"; Num 0; Sym "."; Num 0; Sym "<"; Num 0];
    [Num 0; Sym "<"; Num 0; Sym "<"; Num 0; Sym ">"; Num 0];
    [Num 0; Sym "."; Num 0; Sym "."; Num 0; Sym "."; Num 0];
    [Num 0; Sym "."; Num 0; Sym "."; Num 0; Sym "."; Num 2] ].

Definition gac_search_4x4 : CSP :=
  assign (after_GAC 100 (model_of (futoshiki_csp_model_2 board_4x4)) None) 0 3.

(** The model a failed call of [prop_FC] leaves when its prunings are not
    undone. *)
Definition gac_unrestored_model : CSP := (prop_FC fc_wipeout_model (Some 0)).2.

(** Two variables with the value 1 already pruned from the first. *)
Definition pruned_variables : list variable :=
  [prune 1 (new_Variable "A" [1; 2]%Z); new_Variable "B" [1; 2]%Z].

(** The 2x2 board filled in, and the model of a search that has given the
    first cell its value. *)
Definition filled_2x2 : list Z := [1; 2; 2; 1]%Z.

Definition assigned_2x2 : CSP := assign model_2x2 0 1.

(** A board with a string between two cells that is no operator. *)
Definition board_unknown_symbol : board :=
  [ [Num 0; Sym "="; Num 0]; [Num 0; Sym "."; Num 0] ].

(* ===================================================================== *)
(** ** Proofs *)
(* ===================================================================== *)

(** *** The store *)

Lemma prune_inhabitant x : prune x inhabitant = inhabitant.
Proof. reflexivity. Qed.

Lemma get_var_prune_value csp v x v' :
  get_var (prune_value csp v x) v' =
  if decide (v' = v) then prune x (get_var csp v') else get_var csp v'.
Proof.
  unfold get_var, prune_value; simpl.
  rewrite list_lookup_total_alter.
  destruct (decide (v' = v)) as [->|Hne].
  - case_decide as Hn; [done|].
    assert (csp_vars csp !! v = None) as Hnone.
    { apply lookup_ge_None_2. destruct (decide (v < length (csp_vars csp))); [naive_solver | lia]. }
    rewrite list_lookup_total_alt, Hnone. reflexivity.
  - case_decide as Hd; [|done]. by destruct Hd.
Qed.

Lemma get_var_prune_value_eq csp v x :
  get_var (prune_value csp v x) v = prune x (get_var csp v).
Proof. rewrite get_var_prune_value. by rewrite decide_True. Qed.

Lemma get_var_prune_value_ne csp v x v' :
  v' ≠ v → get_var (prune_value csp v x) v' = get_var csp v'.
Proof. intros. rewrite get_var_prune_value. by rewrite decide_False. Qed.

Lemma assigned_prune_value csp v x v' :
  get_assigned_value (get_var (prune_value csp v x) v') =
  get_assigned_value (get_var csp v').
Proof.
  rewrite get_var_prune_value. by destruct (decide (v' = v)).
Qed.

Lemma is_assigned_false v : is_assigned v = false ↔ get_assigned_value v = None.
Proof. unfold is_assigned, get_assigned_value. by destruct (assignedValue v). Qed.

(** *** The null propagator *)

Lemma get_n_unasgn_0 csp c :
  get_n_unasgn csp c = 0 ↔
  ∀ v, v ∈ get_scope csp c → is_Some (get_assigned_value (get_var csp v)).
Proof.
  unfold get_n_unasgn. rewrite length_zero_iff_nil.
  split.
  - intros Hnil v Hv.
    destruct (get_assigned_value (get_var csp v)) eqn:E; [by eexists|].
    exfalso. eapply (filter_nil_not_elem_of _ _ v Hnil); [|done].
    by apply is_assigned_false.
  - intros Hall.
    induction (get_scope csp c) as [|v l IH]; [done|].
    rewrite filter_cons. case_decide as Hd.
    + apply is_assigned_false in Hd.
      destruct (Hall v) as [a Ha]; [left|]. congruence.
    + apply IH. intros v' Hv'. apply Hall. by right.
Qed.

Lemma check_values_true csp c :
  check_values (get_con csp c)
    ((λ var, get_assigned_value (get_var csp var)) <$> get_scope csp c) = true ↔
  ∃ t, assigned_tuple csp c t ∧ t ∈ sat_tuples (get_con csp c).
Proof.
  unfold check_values, assigned_tuple, check.
  split.
  - destruct (mapM id _) as [t|] eqn:E; [|done].
    intros Hin%bool_decide_eq_true. exists t. split; [|done].
    apply mapM_Some in E. by apply Forall2_fmap_l in E.
  - intros (t & Ht & Hin).
    assert (mapM id ((λ var, get_assigned_value (get_var csp var)) <$> get_scope csp c)
            = Some t) as ->.
    { apply mapM_Some. by apply Forall2_fmap_l. }
    by apply bool_decide_eq_true.
Qed.

Lemma assigned_tuple_unique csp c t1 t2 :
  assigned_tuple csp c t1 → assigned_tuple csp c t2 → t1 = t2.
Proof.
  unfold assigned_tuple. generalize (get_scope csp c). intros l H1. revert t2.
  induction H1 as [|v x l t Hx _ IH]; intros t2 H2; inversion H2; subst; [done|].
  f_equal; [congruence | by apply IH].
Qed.

Lemma assigned_tuple_exists csp c :
  get_n_unasgn csp c = 0 → ∃ t, assigned_tuple csp c t.
Proof.
  rewrite get_n_unasgn_0. unfold assigned_tuple.
  induction (get_scope csp c) as [|v l IH]; intros Hall.
  - exists []. constructor.
  - destruct (Hall v) as [a Ha]; [left|].
    destruct IH as [t Ht]. { intros v' Hv'. apply Hall. by right. }
    exists (a :: t). by constructor.
Qed.

Lemma assigned_tuple_n_unasgn csp c t :
  assigned_tuple csp c t → get_n_unasgn csp c = 0.
Proof.
  intros Ht. apply get_n_unasgn_0. intros v Hv.
  unfold assigned_tuple in Ht.
  apply list_elem_of_lookup in Hv as [i Hi].
  destruct (Forall2_lookup_l _ _ _ _ _ Ht Hi) as (x & _ & Hx). by eexists.
Qed.

(** The loop of [prop_BT] fails exactly when one of the constraints it
    walks through is fully assigned and violated. *)
Lemma bt_loop_spec csp cs :
  (bt_loop csp cs).2 = [] ∧
  ((bt_loop csp cs).1 = false ↔
   ∃ c t, c ∈ cs ∧ assigned_tuple csp c t ∧ t ∉ sat_tuples (get_con csp c)).
Proof.
  induction cs as [|c cs [IH1 IH2]]; simpl.
  - split; [done|]. split; [done|]. intros (c & t & Hc & _). by apply elem_of_nil in Hc.
  - case_decide as Hn.
    + destruct (check_values _ _) eqn:Hchk; simpl.
      * split; [done|]. rewrite IH2. apply check_values_true in Hchk as (t & Ht & Hin).
        split.
        -- intros (c' & t' & Hc' & Ht' & Hnin). exists c', t'. split; [by right|done].
        -- intros (c' & t' & Hc' & Ht' & Hnin).
           apply elem_of_cons in Hc' as [->|Hc'].
           ++ rewrite (assigned_tuple_unique _ _ _ _ Ht' Ht) in Hnin. done.
           ++ by exists c', t'.
      * split; [done|]. split; [|done]. intros _.
        destruct (assigned_tuple_exists _ _ Hn) as [t Ht].
        exists c, t. split; [left|]. split; [done|].
        intros Hin. assert (check_values (get_con csp c)
          ((λ var, get_assigned_value (get_var csp var)) <$> get_scope csp c) = true) as E.
        { apply check_values_true. by exists t. }
        congruence.
    + split; [done|]. rewrite IH2. split.
      * intros (c' & t' & Hc' & Ht' & Hnin). exists c', t'. split; [by right|done].
      * intros (c' & t' & Hc' & Ht' & Hnin).
        apply elem_of_cons in Hc' as [->|Hc'].
        -- by apply assigned_tuple_n_unasgn in Ht'.
        -- by exists c', t'.
Qed.

Lemma elem_of_get_cons_with_var csp v c :
  c ∈ get_cons_with_var csp v ↔ c ∈ get_all_cons csp ∧ v ∈ get_scope csp c.
Proof. unfold get_cons_with_var. rewrite list_elem_of_filter. tauto. Qed.

Lemma prop_BT_no_prunings csp newVar : (prop_BT csp newVar).1.2 = [].
Proof.
  destruct newVar as [v|]; [|done]. simpl. apply bt_loop_spec.
Qed.

(** C9. The null propagator never prunes and leaves the model as it is.
    With a newly assigned variable it reports failure exactly when some
    constraint over that variable is fully assigned with a tuple of
    assigned values outside its satisfying set, and success otherwise;
    without one it reports success. *)
Theorem prop_BT_verdict csp newVar :
  (prop_BT csp newVar).1.2 = [] ∧
  (prop_BT csp newVar).2 = csp ∧
  ((prop_BT csp newVar).1.1 = false ↔ ∃ v, newVar = Some v ∧ violated_at csp v) ∧
  ((prop_BT csp newVar).1.1 = true ↔ ∀ v, newVar = Some v → ¬ violated_at csp v).
Proof.
  assert ((prop_BT csp newVar).1.2 = [] ∧ (prop_BT csp newVar).2 = csp ∧
    ((prop_BT csp newVar).1.1 = false ↔ ∃ v, newVar = Some v ∧ violated_at csp v)) as H.
  { destruct newVar as [v|]; simpl.
    - destruct (bt_loop_spec csp (get_cons_with_var csp v)) as [H1 H2].
      split; [done|]. split; [done|]. rewrite H2. unfold violated_at. split.
      + intros (c & t & Hc & Ht & Hnin). apply elem_of_get_cons_with_var in Hc as [? ?].
        exists v. split; [done|]. by exists c, t.
      + intros (v' & [= <-] & c & t & Hc & Hv & Ht & Hnin).
        exists c, t. split; [|done]. by apply elem_of_get_cons_with_var.
    - split; [done|]. split; [done|]. split; [done|]. by intros (v & ? & _). }
  destruct H as (H1 & H2 & H3). split; [done|]. split; [done|]. split; [done|].
  destruct ((prop_BT csp newVar).1.1).
  - split; [|done]. intros _ v Hv Hviol.
    assert (true = false) by (apply H3; eauto). done.
  - split; [done|]. intros Hno. destruct H3 as [H3 _]. destruct H3 as (v & Hv & Hviol); [done|].
    exfalso. by eapply Hno.
Qed.

(** *** Forward checking: one constraint *)

Lemma fc_scan_vals csp vars i uv ui vals0 :
  (fc_scan csp vars i uv ui vals0).2 = vals0 ++ (placeholder csp <$> vars).
Proof.
  revert i uv ui vals0. induction vars as [|v vars IH]; intros; simpl.
  - by rewrite app_nil_r.
  - unfold placeholder at 1.
    destruct (get_assigned_value (get_var csp v)); rewrite IH; by rewrite <- app_assoc.
Qed.

Lemma fc_scan_found csp vars i uv ui vals0 u k :
  (fc_scan csp vars i uv ui vals0).1 = (Some u, k) →
  (uv = Some u ∧ k = ui ∧
   ∀ v, v ∈ vars → is_Some (get_assigned_value (get_var csp v))) ∨
  (∃ j, k = i + j ∧ vars !! j = Some u ∧
        get_assigned_value (get_var csp u) = None ∧
        ∀ j' v, j < j' → vars !! j' = Some v →
                is_Some (get_assigned_value (get_var csp v))).
Proof.
  revert i uv ui vals0. induction vars as [|v vars IH]; intros i uv ui vals0; simpl.
  - intros [= -> ->]. left. split; [done|]. split; [done|].
    intros v Hv. by apply elem_of_nil in Hv.
  - destruct (get_assigned_value (get_var csp v)) as [a|] eqn:Ha; intros H.
    + apply IH in H as [(-> & -> & Hall)|(j & -> & Hj & Hu & Hlater)].
      * left. split; [done|]. split; [done|].
        intros v' [->|Hv']%elem_of_cons; [by eexists | by apply Hall].
      * right. exists (S j). split; [lia|]. split; [done|]. split; [done|].
        intros [|j'] v' Hlt Hv'; [lia|]. simpl in Hv'. eapply Hlater; [|done]. lia.
    + apply IH in H as [([= <-] & -> & Hall)|(j & -> & Hj & Hu & Hlater)].
      * right. exists 0. split; [lia|]. split; [done|]. split; [done|].
        intros [|j'] v' Hlt Hv'; [lia|]. simpl in Hv'. apply Hall.
        by eapply list_elem_of_lookup_2.
      * right. exists (S j). split; [lia|]. split; [done|]. split; [done|].
        intros [|j'] v' Hlt Hv'; [lia|]. simpl in Hv'. eapply Hlater; [|done]. lia.
Qed.

Lemma fc_scan_keeps_some csp vars i u0 ui vals0 :
  ∃ u k, (fc_scan csp vars i (Some u0) ui vals0).1 = (Some u, k).
Proof.
  revert i u0 ui vals0. induction vars as [|w vars IH]; intros; simpl; [by eauto|].
  destruct (get_assigned_value (get_var csp w)); apply IH.
Qed.

Lemma fc_scan_some csp vars i uv ui vals0 v :
  v ∈ vars → get_assigned_value (get_var csp v) = None →
  ∃ u k, (fc_scan csp vars i uv ui vals0).1 = (Some u, k).
Proof.
  revert i uv ui vals0. induction vars as [|w vars IH]; intros i uv ui vals0 Hv Hnone.
  - by apply elem_of_nil in Hv.
  - simpl. destruct (decide (v ∈ vars)) as [Hin|Hnin].
    + destruct (get_assigned_value (get_var csp w)); by apply IH.
    + apply elem_of_cons in Hv as [->|?]; [|done]. rewrite Hnone.
      apply fc_scan_keeps_some.
Qed.

Lemma filter_length_1 {A} (P : A → Prop) `{∀ x, Decision (P x)} (l : list A) :
  length (filter P l) = 1 →
  ∃ j u, l !! j = Some u ∧ P u ∧ ∀ j' v, l !! j' = Some v → P v → j' = j.
Proof.
  induction l as [|x l IH]; [done|].
  rewrite filter_cons. case_decide as Hx; simpl.
  - intros [= Hnil%length_zero_iff_nil].
    exists 0, x. split; [done|]. split; [done|].
    intros [|j'] v Hv HP; [done|]. simpl in Hv.
    exfalso. eapply (filter_nil_not_elem_of P l v); [done..|].
    by eapply list_elem_of_lookup_2.
  - intros Hlen. destruct (IH Hlen) as (j & u & Hj & Hu & Huniq).
    exists (S j), u. split; [done|]. split; [done|].
    intros [|j'] v Hv HP; simpl in Hv; [by simplify_eq|].
    f_equal. by eapply Huniq.
Qed.

(** With one unassigned variable in the scope, there is one slot holding
    an unassigned variable. *)
Lemma one_unassigned csp c :
  get_n_unasgn csp c = 1 →
  ∃ j u, get_scope csp c !! j = Some u ∧
         get_assigned_value (get_var csp u) = None ∧
         ∀ j' v, get_scope csp c !! j' = Some v →
                 get_assigned_value (get_var csp v) = None → j' = j.
Proof.
  intros H. apply filter_length_1 in H as (j & u & Hj & Hu & Huniq).
  exists j, u. split; [done|]. split; [by apply is_assigned_false|].
  intros j' v Hv Hnone. eapply Huniq; [done|]. by apply is_assigned_false.
Qed.

Lemma fc_tuple_insert csp c u j val :
  get_scope csp c !! j = Some u →
  (∀ j', get_scope csp c !! j' = Some u → j' = j) →
  <[j:=val]> (placeholder csp <$> get_scope csp c) = fc_tuple csp c u val.
Proof.
  intros Hj Huniq. unfold fc_tuple. apply list_eq. intros i.
  rewrite list_lookup_insert, length_fmap, !list_lookup_fmap.
  case_decide as Hd.
  - destruct Hd as [<- Hlt]. rewrite Hj. simpl. by rewrite decide_True.
  - destruct (get_scope csp c !! i) as [v|] eqn:Hi; [|done]. simpl.
    case_decide as Hv; [|done]. subst v. exfalso. apply Hd.
    split; [symmetry; by apply Huniq|]. by eapply lookup_lt_Some.
Qed.


Lemma failing_insert csp c idx vals dom x :
  failing csp c idx (<[idx:=x]> vals) dom = failing csp c idx vals dom.
Proof.
  unfold failing. apply list_filter_iff. intros val.
  by rewrite list_insert_insert_eq.
Qed.

Lemma prune_all_app csp l1 l2 :
  prune_all csp (l1 ++ l2) = prune_all (prune_all csp l1) l2.
Proof. unfold prune_all. by rewrite foldl_app. Qed.

Lemma fc_values_spec csp c u idx vals dom pruned :
  fc_values csp c u idx vals dom pruned =
  (prune_all csp ((u,.) <$> failing csp c idx vals dom),
   pruned ++ ((u,.) <$> failing csp c idx vals dom)).
Proof.
  revert csp vals pruned. induction dom as [|val dom IH]; intros csp vals pruned; simpl.
  - by rewrite app_nil_r.
  - unfold failing at 1 2. rewrite filter_cons. fold (failing csp c idx vals dom).
    case_decide as Hchk.
    + rewrite Hchk. simpl. rewrite IH. rewrite failing_insert.
      simpl. f_equal. by rewrite <- app_assoc.
    + apply not_false_is_true in Hchk. rewrite Hchk. simpl.
      rewrite IH. by rewrite failing_insert.
Qed.

(** A variable after a list of prunings. *)
Lemma get_var_prune_all csp l v :
  get_var (prune_all csp l) v =
  foldl (λ var p, if decide (v = p.1) then prune p.2 var else var) (get_var csp v) l.
Proof.
  revert csp. induction l as [|[w x] l IH]; intros csp; [done|].
  simpl. unfold prune_all in *. simpl. rewrite IH. simpl.
  by rewrite get_var_prune_value.
Qed.

Lemma assigned_prune_all csp l v :
  get_assigned_value (get_var (prune_all csp l) v) = get_assigned_value (get_var csp v).
Proof.
  revert csp. induction l as [|[w x] l IH]; intros csp; [done|].
  unfold prune_all in *. simpl. rewrite IH. by rewrite assigned_prune_value.
Qed.

Lemma cons_prune_all csp l : csp_cons (prune_all csp l) = csp_cons csp.
Proof.
  revert csp. induction l as [|[w x] l IH]; intros csp; [done|].
  unfold prune_all in *. simpl. rewrite IH. reflexivity.
Qed.

Lemma get_con_prune_all csp l c : get_con (prune_all csp l) c = get_con csp c.
Proof. unfold get_con. by rewrite cons_prune_all. Qed.

Lemma get_scope_prune_all csp l c : get_scope (prune_all csp l) c = get_scope csp c.
Proof. unfold get_scope. by rewrite get_con_prune_all. Qed.

Lemma get_n_unasgn_prune_all csp l c :
  get_n_unasgn (prune_all csp l) c = get_n_unasgn csp c.
Proof.
  unfold get_n_unasgn. rewrite get_scope_prune_all. f_equal.
  apply list_filter_iff. intros v. rewrite !is_assigned_false.
  by rewrite assigned_prune_all.
Qed.

Create Rewrite HintDb prune_all.
#[global] Hint Rewrite assigned_prune_all cons_prune_all get_con_prune_all
  get_scope_prune_all get_n_unasgn_prune_all : prune_all.

Lemma curdom_prune_all csp l v :
  curdom (get_var (prune_all csp l) v) =
  filter (λ y, (v, y) ∉ l) (curdom (get_var csp v)).
Proof.
  revert csp. induction l as [|[w x] l IH]; intros csp.
  - simpl. symmetry. induction (curdom (get_var csp v)) as [|y d IHd]; [done|].
    rewrite filter_cons. rewrite decide_True; [by f_equal|]. apply not_elem_of_nil.
  - unfold prune_all in *. simpl. rewrite IH. rewrite get_var_prune_value.
    case_decide as Hv.
    + subst w. simpl. rewrite list_filter_filter. apply list_filter_iff.
      intros y. rewrite not_elem_of_cons.
      split.
      * intros [Hnin Hne]. split; [by intros [= ?]|done].
      * intros [Hne Hnin]. split; [done|congruence].
    + apply list_filter_iff. intros y. rewrite not_elem_of_cons.
      split; [intros ?; split; [by intros [= ? ?]|done] | by intros [_ ?]].
Qed.

Lemma cur_domain_unassigned v :
  get_assigned_value v = None → cur_domain v = curdom v.
Proof. unfold cur_domain, get_assigned_value. by intros ->. Qed.


Lemma fc_constraint_spec csp c pruned u :
  get_n_unasgn csp c = 1 →
  u ∈ get_scope csp c → get_assigned_value (get_var csp u) = None →
  fc_constraint csp c pruned =
  Some (prune_all csp ((u,.) <$> fc_failing csp c u),
        pruned ++ ((u,.) <$> fc_failing csp c u), u).
Proof.
  intros Hone Hu Hnone.
  destruct (one_unassigned _ _ Hone) as (j & u' & Hj & Hu' & Huniq).
  assert (u' = u) as ->.
  { apply list_elem_of_lookup in Hu as [i Hi].
    pose proof (Huniq _ _ Hi Hnone) as ->. congruence. }
  unfold fc_constraint.
  destruct (fc_scan csp (get_scope csp c) 0 None 0 []) as [[uv k] vals] eqn:Hscan.
  pose proof (fc_scan_vals csp (get_scope csp c) 0 None 0 []) as Hvals.
  rewrite Hscan in Hvals. simpl in Hvals. subst vals.
  destruct (fc_scan_some csp (get_scope csp c) 0 None 0 [] u Hu Hnone) as (u2 & k2 & Hfound).
  rewrite Hscan in Hfound. simpl in Hfound. injection Hfound as -> ->.
  pose proof (fc_scan_found csp (get_scope csp c) 0 None 0 [] u2 k2) as Hf.
  rewrite Hscan in Hf. destruct (Hf eq_refl) as [([=] & _)|(j2 & -> & Hj2 & Hu2 & _)].
  pose proof (Huniq _ _ Hj2 Hu2) as ->. assert (u2 = u) as -> by congruence.
  simpl. rewrite fc_values_spec.
  assert (failing csp c j (placeholder csp <$> get_scope csp c) (cur_domain (get_var csp u))
          = fc_failing csp c u) as ->; [|done].
  unfold failing, fc_failing. apply list_filter_iff. intros val.
  rewrite (fc_tuple_insert csp c u j val); [done|done|].
  intros j' Hj'. by eapply Huniq.
Qed.

(** After examining the constraint, the current domain of [u] holds the
    values that passed. *)
Lemma fc_constraint_domain csp u l :
  get_assigned_value (get_var csp u) = None →
  cur_domain (get_var (prune_all csp ((u,.) <$> l)) u) =
  filter (λ y, y ∉ l) (cur_domain (get_var csp u)).
Proof.
  intros Hnone. rewrite !cur_domain_unassigned; [|done|by rewrite assigned_prune_all].
  rewrite curdom_prune_all. apply list_filter_iff. intros y.
  rewrite list_elem_of_fmap. split.
  - intros Hn Hy. apply Hn. by exists y.
  - intros Hn (y' & [= <-] & Hy'). done.
Qed.

Lemma fc_loop_app csp cs1 cs2 pruned :
  fc_loop csp (cs1 ++ cs2) pruned =
  match fc_loop csp cs1 pruned with
  | (true, pruned1, csp1) => fc_loop csp1 cs2 pruned1
  | r => r
  end.
Proof.
  revert csp pruned. induction cs1 as [|c cs1 IH]; intros csp pruned; simpl; [done|].
  case_decide; [|apply IH].
  destruct (fc_constraint csp c pruned) as [[[csp' pruned'] u]|]; [|apply IH].
  case_decide; [done|apply IH].
Qed.

(** *** Forward checking: wipeout *)

Lemma filter_all {A} (P : A → Prop) `{∀ x, Decision (P x)} (l : list A) :
  (∀ x, x ∈ l → P x) → filter P l = l.
Proof.
  induction l as [|x l IH]; intros Hall; [done|].
  rewrite filter_cons, decide_True by (apply Hall; left).
  f_equal. apply IH. intros y Hy. apply Hall. by right.
Qed.

Lemma filter_none {A} (P : A → Prop) `{∀ x, Decision (P x)} (l : list A) :
  (∀ x, x ∈ l → ¬ P x) → filter P l = [].
Proof.
  induction l as [|x l IH]; intros Hall; [done|].
  rewrite filter_cons, decide_False by (apply Hall; left).
  apply IH. intros y Hy. apply Hall. by right.
Qed.

Lemma check_false c t : check c t = false ↔ t ∉ sat_tuples c.
Proof.
  unfold check. rewrite bool_decide_eq_false. done.
Qed.

(** C5. When the constraints before [c] were examined without a wipeout
    and every value left to the one unassigned variable [u] of [c] fails
    the check, forward checking returns failure at [c]: the prune list is
    the prunings made so far followed by those of all the values of [u],
    the last of which emptied the domain, and the constraints after [c]
    are not examined. *)
Theorem prop_FC_wipeout csp newVar pre c rest pruned1 csp1 u :
  constraints_of csp newVar = pre ++ c :: rest →
  fc_loop csp pre [] = (true, pruned1, csp1) →
  get_n_unasgn csp1 c = 1 →
  u ∈ get_scope csp1 c → get_assigned_value (get_var csp1 u) = None →
  (∀ val, val ∈ cur_domain (get_var csp1 u) →
          fc_tuple csp1 c u val ∉ sat_tuples (get_con csp1 c)) →
  let wiped := (u,.) <$> cur_domain (get_var csp1 u) in
  prop_FC csp newVar = (false, pruned1 ++ wiped, prune_all csp1 wiped) ∧
  cur_domain (get_var (prune_all csp1 wiped) u) = [].
Proof.
  intros Hcs Hpre Hone Hu Hnone Hfail wiped.
  assert (fc_failing csp1 c u = cur_domain (get_var csp1 u)) as Hall.
  { apply filter_all. intros val Hval. apply check_false. by apply Hfail. }
  assert (cur_domain (get_var (prune_all csp1 wiped) u) = []) as Hempty.
  { unfold wiped. rewrite fc_constraint_domain by done.
    apply filter_none. intros y Hy Hn. done. }
  split; [|done].
  unfold prop_FC. rewrite Hcs, fc_loop_app, Hpre. simpl.
  rewrite decide_True by done.
  rewrite (fc_constraint_spec csp1 c pruned1 u) by done.
  rewrite Hall. fold wiped. rewrite Hempty. simpl. done.
Qed.


(** C5 at work: the first row of the board holds 1 twice and its first
    cell is assigned. *)
Lemma prop_FC_wipeout_witness :
  prop_FC fc_wipeout_model (Some 0) =
    (false, [(1, 1%Z)], prune_all fc_wipeout_model [(1, 1%Z)]) ∧
  cur_domain (get_var (prune_all fc_wipeout_model [(1, 1%Z)]) 1) = [].
Proof.
  apply (prop_FC_wipeout fc_wipeout_model (Some 0) [] 0 [1] [] fc_wipeout_model 1).
  - vm_compute. reflexivity.
  - reflexivity.
  - vm_compute. reflexivity.
  - vm_compute. apply list_elem_of_In. simpl. tauto.
  - vm_compute. reflexivity.
  - intros val Hval. vm_compute in Hval.
    apply list_elem_of_In in Hval. destruct Hval as [<-|[]].
    vm_compute. apply not_elem_of_nil.
Defined.

(** *** What forward checking prunes *)

Lemma replay_app csp l1 l2 :
  replay csp (l1 ++ l2) = replay csp l1 ≫= λ csp1, replay csp1 l2.
Proof.
  revert csp. induction l1 as [|[v x] l1 IH]; intros csp; simpl; [done|].
  destruct (in_cur_domain (get_var csp v) x); [apply IH|done].
Qed.

Lemma replay_prune_all csp l csp' : replay csp l = Some csp' → csp' = prune_all csp l.
Proof.
  revert csp. induction l as [|[v x] l IH]; intros csp; simpl; [congruence|].
  destruct (in_cur_domain (get_var csp v) x); [|done]. apply IH.
Qed.

Lemma in_cur_domain_true v x : in_cur_domain v x = true ↔ x ∈ cur_domain v.
Proof. unfold in_cur_domain. by rewrite bool_decide_eq_true. Qed.

(** Pruning the distinct values [l] of the current domain of the
    unassigned variable [u], one after the other. *)
Lemma replay_values csp u l :
  get_assigned_value (get_var csp u) = None →
  NoDup l → (∀ x, x ∈ l → x ∈ cur_domain (get_var csp u)) →
  replay csp ((u,.) <$> l) = Some (prune_all csp ((u,.) <$> l)).
Proof.
  revert csp. induction l as [|x l IH]; intros csp Hnone Hnd Hin; [done|].
  apply NoDup_cons in Hnd as [Hx Hnd]. simpl.
  assert (in_cur_domain (get_var csp u) x = true) as ->.
  { apply in_cur_domain_true, Hin. left. }
  apply IH; [by rewrite assigned_prune_value | done |].
  intros y Hy.
  rewrite cur_domain_unassigned by (by rewrite assigned_prune_value).
  rewrite get_var_prune_value_eq. simpl.
  apply list_elem_of_filter. split; [by intros -> |].
  rewrite <- cur_domain_unassigned by done. apply Hin. by right.
Qed.

Lemma curdom_nodup_prune_value csp v x :
  (∀ w, NoDup (curdom (get_var csp w))) →
  ∀ w, NoDup (curdom (get_var (prune_value csp v x) w)).
Proof.
  intros Hnd w. rewrite get_var_prune_value. case_decide; [|apply Hnd].
  simpl. apply NoDup_filter, Hnd.
Qed.

Lemma curdom_nodup_prune_all csp l :
  (∀ w, NoDup (curdom (get_var csp w))) →
  ∀ w, NoDup (curdom (get_var (prune_all csp l) w)).
Proof.
  revert csp. induction l as [|[v x] l IH]; intros csp Hnd; [done|].
  apply IH. by apply curdom_nodup_prune_value.
Qed.

Lemma domains_nodup_get csp :
  domains_nodup csp → ∀ v, NoDup (curdom (get_var csp v)).
Proof.
  intros Hnd v. unfold get_var. rewrite list_lookup_total_alt.
  destruct (csp_vars csp !! v) as [var|] eqn:Hv; simpl; [|constructor].
  unfold domains_nodup in Hnd. rewrite Forall_lookup in Hnd. by eapply Hnd.
Qed.

(** The invariant of the loop of [prop_FC]: the model is the starting
    model after the listed prunings, which only touch unassigned
    variables and replay one by one. *)
Lemma fc_loop_prunings csp0 csp cs pruned0 b pruned csp' :
  (∀ v, NoDup (curdom (get_var csp0 v))) →
  replay csp0 pruned0 = Some csp →
  (∀ p, p ∈ pruned0 → get_assigned_value (get_var csp0 p.1) = None) →
  fc_loop csp cs pruned0 = (b, pruned, csp') →
  replay csp0 pruned = Some csp' ∧
  (∀ p, p ∈ pruned → get_assigned_value (get_var csp0 p.1) = None).
Proof.
  intros Hnd. revert csp pruned0.
  induction cs as [|c cs IH]; intros csp pruned0 Hrep Hun; simpl.
  - intros [= <- <- <-]. done.
  - case_decide as Hone; [|by apply IH].
    destruct (one_unassigned _ _ Hone) as (j & u & Hj & Hu & _).
    assert (u ∈ get_scope csp c) as Hin by (by eapply list_elem_of_lookup_2).
    rewrite (fc_constraint_spec csp c pruned0 u) by done.
    pose proof (replay_prune_all _ _ _ Hrep) as Hcsp.
    assert (get_assigned_value (get_var csp0 u) = None) as Hu0.
    { rewrite Hcsp in Hu. by rewrite assigned_prune_all in Hu. }
    assert (replay csp0 (pruned0 ++ ((u,.) <$> fc_failing csp c u)) =
            Some (prune_all csp ((u,.) <$> fc_failing csp c u))) as Hrep'.
    { rewrite replay_app, Hrep. simpl. apply replay_values; [done| |].
      - apply NoDup_filter. rewrite cur_domain_unassigned by done.
        rewrite Hcsp. by apply curdom_nodup_prune_all.
      - intros x Hx. by apply list_elem_of_filter in Hx as [_ ?]. }
    assert (∀ p, p ∈ pruned0 ++ ((u,.) <$> fc_failing csp c u) →
                 get_assigned_value (get_var csp0 p.1) = None) as Hun'.
    { intros p [Hp|Hp]%elem_of_app; [by apply Hun|].
      apply list_elem_of_fmap in Hp as (x & -> & _). done. }
    case_decide.
    + intros [= <- <- <-]. done.
    + by apply IH.
Qed.

Lemma replay_in_domain csp l csp' v x :
  replay csp l = Some csp' → (v, x) ∈ l → x ∈ cur_domain (get_var csp v).
Proof.
  revert csp. induction l as [|[w y] l IH]; intros csp Hrep Hin.
  - by apply elem_of_nil in Hin.
  - simpl in Hrep. destruct (in_cur_domain (get_var csp w) y) eqn:Hy; [|done].
    apply elem_of_cons in Hin as [[= -> ->]|Hin].
    + by apply in_cur_domain_true.
    + specialize (IH _ Hrep Hin). rewrite get_var_prune_value in IH.
      case_decide; [|done]. subst w.
      unfold cur_domain in *. simpl in IH.
      destruct (assignedValue (get_var csp v)); [done|].
      by apply list_elem_of_filter in IH as [_ ?].
Qed.

(** A prune list that replays and only names unassigned variables has no
    pair twice. *)
Lemma replay_NoDup csp l csp' :
  replay csp l = Some csp' →
  (∀ p, p ∈ l → get_assigned_value (get_var csp p.1) = None) →
  NoDup l.
Proof.
  revert csp. induction l as [|[v x] l IH]; intros csp Hrep Hun; [constructor|].
  simpl in Hrep. destruct (in_cur_domain (get_var csp v) x) eqn:Hx; [|done].
  assert (get_assigned_value (get_var csp v) = None) as Hv by (apply (Hun (v, x)); left).
  apply NoDup_cons. split.
  - intros Hin. pose proof (replay_in_domain _ _ _ _ _ Hrep Hin) as Hd.
    rewrite cur_domain_unassigned in Hd by (by rewrite assigned_prune_value).
    rewrite get_var_prune_value_eq in Hd. simpl in Hd.
    by apply list_elem_of_filter in Hd as [? _].
  - eapply IH; [done|]. intros p Hp. rewrite assigned_prune_value.
    apply Hun. by right.
Qed.

(** X15. The prune list of forward checking is exact: it replays on the model
    the call started from, value by value and each value still in its
    current domain at its turn, it leads to the model the call leaves,
    and it lists no pair twice. *)
Lemma prop_FC_prunings_exact csp newVar b pruned csp' :
  domains_nodup csp →
  prop_FC csp newVar = (b, pruned, csp') →
  replay csp pruned = Some csp' ∧ NoDup pruned ∧
  (∀ p, p ∈ pruned → get_assigned_value (get_var csp p.1) = None).
Proof.
  intros Hnd Hfc.
  destruct (fc_loop_prunings csp csp _ [] _ _ _ (domains_nodup_get _ Hnd) eq_refl
              ltac:(intros p Hp; by apply elem_of_nil in Hp) Hfc) as [Hrep Hun].
  split; [done|]. split; [|done]. by eapply replay_NoDup.
Qed.

Lemma fc_loop_unassigned csp0 csp cs pruned0 b pruned csp' :
  csp = prune_all csp0 pruned0 →
  (∀ p, p ∈ pruned0 → get_assigned_value (get_var csp0 p.1) = None) →
  fc_loop csp cs pruned0 = (b, pruned, csp') →
  csp' = prune_all csp0 pruned ∧
  (∀ p, p ∈ pruned → get_assigned_value (get_var csp0 p.1) = None).
Proof.
  revert csp pruned0.
  induction cs as [|c cs IH]; intros csp pruned0 Hcsp Hun; simpl.
  - intros [= <- <- <-]. done.
  - case_decide as Hone; [|by apply IH].
    destruct (one_unassigned _ _ Hone) as (j & u & Hj & Hu & _).
    assert (u ∈ get_scope csp c) as Hin by (by eapply list_elem_of_lookup_2).
    rewrite (fc_constraint_spec csp c pruned0 u) by done.
    assert (get_assigned_value (get_var csp0 u) = None) as Hu0.
    { rewrite Hcsp in Hu. by rewrite assigned_prune_all in Hu. }
    assert (prune_all csp ((u,.) <$> fc_failing csp c u) =
            prune_all csp0 (pruned0 ++ ((u,.) <$> fc_failing csp c u))) as Hcsp2.
    { by rewrite prune_all_app, <- Hcsp. }
    assert (∀ p, p ∈ pruned0 ++ ((u,.) <$> fc_failing csp c u) →
                 get_assigned_value (get_var csp0 p.1) = None) as Hun2.
    { intros p [Hp|Hp]%elem_of_app; [by apply Hun|].
      apply list_elem_of_fmap in Hp as (x & -> & _). done. }
    case_decide.
    + intros [= <- <- <-]. done.
    + by apply IH.
Qed.

Lemma prop_FC_unassigned csp newVar b pruned csp' v x :
  prop_FC csp newVar = (b, pruned, csp') →
  (v, x) ∈ pruned → get_assigned_value (get_var csp v) = None.
Proof.
  intros Hfc Hin.
  destruct (fc_loop_unassigned csp csp _ [] _ _ _ eq_refl
              ltac:(intros p Hp; by apply elem_of_nil in Hp) Hfc) as [_ Hun].
  by apply (Hun (v, x)).
Qed.

(** C2, as amended. Neither [prop_BT] nor [prop_FC] lists a pruning of
    the value an assigned variable holds. *)
Theorem prop_BT_prop_FC_spare_assigned_values :
  spares_assigned_values (λ csp newVar, Some (prop_BT csp newVar)) ∧
  spares_assigned_values (λ csp newVar, Some (prop_FC csp newVar)).
Proof.
  split; intros csp newVar b pruned csp' v x [= H] Hin.
  - pose proof (prop_BT_no_prunings csp newVar) as Hnil.
    rewrite H in Hnil. simpl in Hnil. subst pruned. by apply elem_of_nil in Hin.
  - rewrite (prop_FC_unassigned _ _ _ _ _ _ _ H Hin). done.
Qed.


(** C2, counterexample. On the unsolvable board of the specification,
    with the first cell assigned its value 2, [prop_GAC] prunes that value
    from the assigned cell. *)
Lemma prop_GAC_prunes_assigned_value :
  ¬ spares_assigned_values (prop_GAC 100).
Proof.
  intros H.
  apply (H gac_assigned_model (Some 0) false [(0, 2%Z); (1, 1%Z)]
           (prune_all gac_assigned_model [(0, 2%Z); (1, 1%Z)]) 0 2%Z).
  - vm_compute. reflexivity.
  - left.
  - vm_compute. reflexivity.
Qed.

(** The same in a search that propagates with GAC from the start: on a
    4x4 board, after the call before any assignment, the first cell is
    given the value 3 of its current domain; the call for it then prunes
    that value from it, before it fails. *)
Lemma prop_GAC_prunes_assigned_value_in_search :
  get_assigned_value (get_var gac_search_4x4 0) = Some 3%Z ∧
  ∃ csp', prop_GAC 100 gac_search_4x4 (Some 0) =
    Some (false, [(1, 3%Z); (1, 4%Z); (2, 2%Z); (2, 3%Z); (3, 3%Z); (8, 3%Z);
                  (12, 3%Z); (0, 3%Z); (1, 2%Z)], csp').
Proof. split; [reflexivity|]. eexists. vm_compute. reflexivity. Qed.

(** *** Support *)

Lemma elem_of_zip_l {A B} (l : list A) (k : list B) p : p ∈ zip l k → p.1 ∈ l.
Proof.
  revert k. induction l as [|a l IH]; intros [|b k] Hp; simpl in *;
    try (by apply elem_of_nil in Hp).
  apply elem_of_cons in Hp as [->|Hp]; [left|right; by eapply IH].
Qed.

Lemma forallb_ext_in {A} (f g : A → bool) (l : list A) :
  (∀ x, x ∈ l → f x = g x) → forallb f l = forallb g l.
Proof.
  induction l as [|a l IH]; intros H; [done|]. simpl.
  rewrite (H a) by left. f_equal. apply IH. intros x Hx. apply H. by right.
Qed.

Lemma existsb_ext_in {A} (f g : A → bool) (l : list A) :
  (∀ x, x ∈ l → f x = g x) → existsb f l = existsb g l.
Proof.
  induction l as [|a l IH]; intros H; [done|]. simpl.
  rewrite (H a) by left. f_equal. apply IH. intros x Hx. apply H. by right.
Qed.

(** Support for a value of [v] only looks at the current domains of the
    other variables of the scope. *)
Lemma supports_ext csp csp' sc v x t :
  (∀ w, w ∈ sc → w ≠ v →
        cur_domain (get_var csp' w) = cur_domain (get_var csp w)) →
  supports csp' sc v x t = supports csp sc v x t.
Proof.
  intros H. unfold supports. f_equal. apply forallb_ext_in. intros p Hp.
  destruct (decide (p.1 = v)) as [Hv|Hv].
  - by rewrite !bool_decide_eq_true_2.
  - f_equal. unfold in_cur_domain. rewrite H; [done| |done]. by eapply elem_of_zip_l.
Qed.

Lemma has_support_ext csp csp' c v x :
  csp_cons csp' = csp_cons csp →
  (∀ w, w ∈ get_scope csp c → w ≠ v →
        cur_domain (get_var csp' w) = cur_domain (get_var csp w)) →
  has_support csp' c v x = has_support csp c v x.
Proof.
  intros Hc H. unfold has_support, get_scope, get_con. rewrite Hc.
  apply existsb_ext_in. intros t _. by apply supports_ext.
Qed.

Lemma has_support_prune_self csp c v x y :
  has_support (prune_value csp v y) c v x = has_support csp c v x.
Proof.
  apply has_support_ext; [done|]. intros w _ Hw. by rewrite get_var_prune_value_ne.
Qed.

Lemma has_support_prune_other csp c v x w y :
  w ∉ get_scope csp c →
  has_support (prune_value csp w y) c v x = has_support csp c v x.
Proof.
  intros Hw. apply has_support_ext; [done|]. intros w' Hw' _.
  rewrite get_var_prune_value_ne; [done|]. by intros ->.
Qed.

(** *** The value loop of GAC *)


Lemma unsupported_prune_self csp c var dom y :
  unsupported (prune_value csp var y) c var dom = unsupported csp c var dom.
Proof.
  unfold unsupported. apply list_filter_iff. intros val.
  by rewrite has_support_prune_self.
Qed.

Lemma gac_values_inr csp c var dom pruned shr csp' pruned' shr' :
  gac_values csp c var dom pruned shr = inr (csp', pruned', shr') →
  (shr = true → cur_domain (get_var csp var) ≠ []) →
  csp' = prune_all csp ((var,.) <$> unsupported csp c var dom) ∧
  pruned' = pruned ++ ((var,.) <$> unsupported csp c var dom) ∧
  shr' = shr || bool_decide (unsupported csp c var dom ≠ []) ∧
  (shr' = true → cur_domain (get_var csp' var) ≠ []).
Proof.
  revert csp pruned shr. induction dom as [|val dom IH]; intros csp pruned shr; simpl.
  - intros [= <- <- <-] Hshr. rewrite app_nil_r, orb_false_r. done.
  - unfold unsupported. rewrite filter_cons. fold (unsupported csp c var dom).
    destruct (has_support csp c var val) eqn:Hs; simpl.
    1: apply IH.
    + case_decide as Hlen; [done|].
      intros Hv _. apply IH in Hv as (-> & -> & -> & Hne).
      * rewrite unsupported_prune_self in *. simpl.
        split; [done|]. split; [by rewrite <- app_assoc|].
        split; [by rewrite orb_true_r|]. done.
      * intros _ Hnil. apply Hlen. by rewrite Hnil.
Qed.

Lemma gac_values_inl csp c var dom pruned shr csp' pruned' :
  gac_values csp c var dom pruned shr = inl (csp', pruned') →
  ∃ l, l ≠ [] ∧ l `prefix_of` unsupported csp c var dom ∧
       csp' = prune_all csp ((var,.) <$> l) ∧
       pruned' = pruned ++ ((var,.) <$> l) ∧
       cur_domain (get_var csp' var) = [].
Proof.
  revert csp pruned shr. induction dom as [|val dom IH]; intros csp pruned shr; simpl; [done|].
  unfold unsupported. rewrite filter_cons. fold (unsupported csp c var dom).
  destruct (has_support csp c var val) eqn:Hs; simpl.
  1: apply IH.
  - case_decide as Hlen.
    + intros [= <- <-]. exists [val]. split; [done|].
      split; [apply prefix_cons, prefix_nil|]. split; [done|]. split; [done|].
      by apply length_zero_iff_nil.
    + intros Hv. apply IH in Hv as (l & Hl & Hpre & -> & -> & Hempty).
      rewrite unsupported_prune_self in Hpre.
      exists (val :: l). split; [done|]. split; [by apply prefix_cons|].
      split; [done|]. split; [by rewrite <- app_assoc|]. done.
Qed.

(** *** The worklist *)



Lemma foldl_bind {A B C} (f : A → C → A) (g : B → list C) (a : A) (l : list B) :
  foldl f a (l ≫= g) = foldl (λ a x, foldl f a (g x)) a l.
Proof.
  revert a. induction l as [|x l IH]; intros a; [done|].
  simpl. by rewrite foldl_app, IH.
Qed.

Lemma gac_enqueue_alt csp var q :
  gac_enqueue csp var q = foldl add_new q (enqueue_candidates csp var).
Proof.
  unfold gac_enqueue, enqueue_candidates. rewrite foldl_bind.
  generalize (get_cons_with_var csp var). intros cs. revert q.
  induction cs as [|c cs IH]; intros q; [done|]. simpl. rewrite <- IH. f_equal.
  generalize (get_scope csp c). intros sc. clear. revert q.
  induction sc as [|v sc IH]; intros q; [done|]. simpl.
  rewrite filter_cons. destruct (decide (v = var)) as [->|Hne].
  - rewrite (decide_False (P := var ≠ var)) by (by intros ?). apply IH.
  - rewrite (decide_True (P := v ≠ var)) by done. simpl. rewrite <- IH. reflexivity.
Qed.

Lemma add_new_all q cand :
  q `prefix_of` foldl add_new q cand ∧
  (∀ p, p ∈ foldl add_new q cand ↔ p ∈ q ∨ p ∈ cand) ∧
  (NoDup q → NoDup (foldl add_new q cand)).
Proof.
  revert q. induction cand as [|p cand IH]; intros q; simpl.
  - split; [done|]. split; [|done]. intros p. rewrite elem_of_nil. tauto.
  - destruct (IH (add_new q p)) as (Hpre & Hin & Hnd).
    assert (q `prefix_of` add_new q p) as Hq.
    { unfold add_new. case_decide; [done|]. by apply prefix_app_r. }
    assert (∀ p', p' ∈ add_new q p ↔ p' ∈ q ∨ p' = p) as Hadd.
    { intros p'. unfold add_new. case_decide.
      - split; [tauto|]. intros [?| ->]; done.
      - rewrite elem_of_app, list_elem_of_singleton. done. }
    split; [by etrans|]. split.
    + intros p'. rewrite Hin, Hadd, elem_of_cons. tauto.
    + intros Hqnd. apply Hnd. unfold add_new. case_decide; [done|].
      apply NoDup_app. split; [done|]. split; [|apply NoDup_singleton].
      intros p' Hp' ->%list_elem_of_singleton. done.
Qed.

Lemma elem_of_enqueue_candidates csp var u c :
  (u, c) ∈ enqueue_candidates csp var ↔
  c ∈ get_cons_with_var csp var ∧ u ∈ get_scope csp c ∧ u ≠ var.
Proof.
  unfold enqueue_candidates. rewrite list_elem_of_bind. split.
  - intros (c' & Hp & Hc'). apply list_elem_of_fmap in Hp as (v & [= -> ->] & Hv).
    apply list_elem_of_filter in Hv as [? ?]. done.
  - intros (Hc & Hu & Hne). exists c. split; [|done].
    apply list_elem_of_fmap. exists u. split; [done|]. by apply list_elem_of_filter.
Qed.

Lemma get_cons_with_var_prune_all csp l v :
  get_cons_with_var (prune_all csp l) v = get_cons_with_var csp v.
Proof.
  unfold get_cons_with_var, get_all_cons. rewrite cons_prune_all.
  apply list_filter_iff. intros c. by rewrite get_scope_prune_all.
Qed.

#[global] Hint Rewrite get_cons_with_var_prune_all : prune_all.

Lemma enqueue_candidates_prune_all csp l v :
  enqueue_candidates (prune_all csp l) v = enqueue_candidates csp v.
Proof.
  unfold enqueue_candidates. rewrite get_cons_with_var_prune_all.
  apply list_bind_ext; [|done]. intros c. by rewrite get_scope_prune_all.
Qed.

Lemma gac_iteration_inr csp var c q pruned csp' q' pruned' :
  gac_iteration csp var c q pruned = inr (csp', q', pruned') →
  let U := unsupported csp c var (cur_domain (get_var csp var)) in
  csp' = prune_all csp ((var,.) <$> U) ∧
  pruned' = pruned ++ ((var,.) <$> U) ∧
  q' = (if bool_decide (U ≠ []) then foldl add_new q (enqueue_candidates csp var) else q) ∧
  (U ≠ [] → cur_domain (get_var csp' var) ≠ []).
Proof.
  unfold gac_iteration.
  destruct (gac_values _ _ _ _ _ _) as [|[[csp1 pruned1] shr]] eqn:Hv; [done|].
  intros [= <- <- <-]. apply gac_values_inr in Hv as (-> & -> & -> & Hne); [|done].
  simpl. split; [done|]. split; [done|]. split.
  - case_bool_decide; [|done].
    by rewrite gac_enqueue_alt, enqueue_candidates_prune_all.
  - intros HU. apply Hne. by apply bool_decide_eq_true.
Qed.

Lemma NoDup_constraints_of csp newVar : NoDup (constraints_of csp newVar).
Proof.
  destruct newVar as [v|]; simpl.
  - apply NoDup_filter, NoDup_seq.
  - apply NoDup_seq.
Qed.

Lemma elem_of_gac_seed csp cs v c :
  (v, c) ∈ gac_seed csp cs ↔ c ∈ cs ∧ v ∈ get_scope csp c.
Proof.
  unfold gac_seed. rewrite list_elem_of_bind. split.
  - intros (c' & Hp & Hc'). apply list_elem_of_fmap in Hp as (v' & [= -> ->] & Hv). done.
  - intros [Hc Hv]. exists c. split; [|done]. apply list_elem_of_fmap. by exists v.
Qed.

Lemma NoDup_gac_seed csp cs :
  (∀ c, NoDup (get_scope csp c)) → NoDup cs → NoDup (gac_seed csp cs).
Proof.
  intros Hsc Hcs. unfold gac_seed. apply NoDup_bind; [| |done].
  - intros c1 c2 [v c] _ _ H1 H2.
    apply list_elem_of_fmap in H1 as (? & [= _ ->] & _).
    apply list_elem_of_fmap in H2 as (? & [= _ ->] & _). done.
  - intros c _. apply NoDup_fmap_2; [|apply Hsc]. by intros ?? [= ?].
Qed.

Lemma scopes_nodup_get csp : scopes_nodup csp → ∀ c, NoDup (get_scope csp c).
Proof.
  intros Hnd c. unfold get_scope, get_con. rewrite list_lookup_total_alt.
  destruct (csp_cons csp !! c) as [con|] eqn:Hc; simpl; [|constructor].
  unfold scopes_nodup in Hnd. rewrite Forall_lookup in Hnd. by eapply Hnd.
Qed.

(** *** Fuel *)

Lemma gac_loop_fuel_mono fuel fuel' csp q pruned r :
  gac_loop fuel csp q pruned = Some r → fuel ≤ fuel' →
  gac_loop fuel' csp q pruned = Some r.
Proof.
  revert fuel' csp q pruned. induction fuel as [|fuel IH]; intros fuel' csp q pruned.
  - destruct q as [|[var c] q]; [|done]. intros H _. by destruct fuel'.
  - destruct q as [|[var c] q]; [intros H _; by destruct fuel'|].
    intros H Hle. destruct fuel' as [|fuel']; [lia|]. simpl in *.
    destruct (gac_iteration csp var c q pruned) as [[csp1 p1]|[[csp1 q1] p1]]; [done|].
    apply IH; [done|lia].
Qed.

Lemma gac_loop_deterministic f1 f2 csp q pruned r1 r2 :
  gac_loop f1 csp q pruned = Some r1 → gac_loop f2 csp q pruned = Some r2 → r1 = r2.
Proof.
  intros H1 H2.
  apply (gac_loop_fuel_mono _ (f1 `max` f2)) in H1; [|lia].
  apply (gac_loop_fuel_mono _ (f1 `max` f2)) in H2; [|lia]. congruence.
Qed.

Lemma gac_loop_steps n fuel csp q pruned csp' q' pruned' :
  gac_steps n csp q pruned = Some (csp', q', pruned') →
  gac_loop (n + fuel) csp q pruned = gac_loop fuel csp' q' pruned'.
Proof.
  revert csp q pruned. induction n as [|n IH]; intros csp q pruned; simpl.
  - by intros [= -> -> ->].
  - destruct q as [|[var c] q]; [done|].
    destruct (gac_iteration csp var c q pruned) as [|[[csp1 q1] p1]]; [done|].
    apply IH.
Qed.

Lemma gac_steps_add n m csp q pruned :
  gac_steps (n + m) csp q pruned =
  gac_steps n csp q pruned ≫= λ '(csp1, q1, p1), gac_steps m csp1 q1 p1.
Proof.
  revert csp q pruned. induction n as [|n IH]; intros csp q pruned; simpl; [done|].
  destruct q as [|[var c] q]; [done|].
  destruct (gac_iteration csp var c q pruned) as [|[[csp1 q1] p1]]; [done|].
  apply IH.
Qed.

(** The prune list so far is only appended to. *)
Lemma gac_iteration_pruned csp var c q p0 pruned :
  gac_iteration csp var c q (p0 ++ pruned) =
  match gac_iteration csp var c q pruned with
  | inl (csp1, p1) => inl (csp1, p0 ++ p1)
  | inr (csp1, q1, p1) => inr (csp1, q1, p0 ++ p1)
  end.
Proof.
  assert (∀ values csp pruned shr,
    gac_values csp c var values (p0 ++ pruned) shr =
    match gac_values csp c var values pruned shr with
    | inl (csp1, p1) => inl (csp1, p0 ++ p1)
    | inr (csp1, p1, s1) => inr (csp1, p0 ++ p1, s1)
    end) as Hv.
  { induction values as [|val values IH]; intros csp1 pr shr; simpl; [done|].
    destruct (has_support csp1 c var val); simpl; [apply IH|].
    case_decide; [by rewrite app_assoc|]. rewrite <- IH. by rewrite app_assoc. }
  unfold gac_iteration. rewrite Hv.
  destruct (gac_values csp c var _ pruned false) as [[? ?]|[[? ?] ?]]; done.
Qed.

Lemma gac_steps_pruned n csp q p0 pruned :
  gac_steps n csp q (p0 ++ pruned) =
  (λ '(csp1, q1, p1), (csp1, q1, p0 ++ p1)) <$> gac_steps n csp q pruned.
Proof.
  revert csp q pruned. induction n as [|n IH]; intros csp q pruned; simpl; [done|].
  destruct q as [|[var c] q]; [done|]. rewrite gac_iteration_pruned.
  destruct (gac_iteration csp var c q pruned) as [[? ?]|[[csp1 q1] p1]]; [done|].
  apply IH.
Qed.

Lemma gac_steps_queue n csp q pruned r :
  gac_steps (S n) csp q pruned = Some r → q ≠ [].
Proof. by destruct q. Qed.

(** A worklist loop that comes back to the model and worklist it had
    some iterations before runs forever. *)
Lemma gac_loop_cycle n csp q l :
  gac_steps (S n) csp q [] = Some (csp, q, l) →
  ∀ fuel pruned, gac_loop fuel csp q pruned = None.
Proof.
  intros Hcycle fuel. induction (lt_wf fuel) as [fuel _ IH]. intros pruned.
  assert (gac_steps (S n) csp q pruned = Some (csp, q, pruned ++ l)) as Hcycle'.
  { rewrite <- (app_nil_r pruned) at 1. rewrite gac_steps_pruned, Hcycle. done. }
  destruct (decide (S n ≤ fuel)) as [Hle|Hlt].
  - replace fuel with (S n + (fuel - S n)) by lia.
    rewrite (gac_loop_steps _ _ _ _ _ _ _ _ Hcycle'). apply IH. lia.
  - replace (S n) with (fuel + S (n - fuel)) in Hcycle' by lia.
    rewrite gac_steps_add in Hcycle'.
    destruct (gac_steps fuel csp q pruned) as [[[csp1 q1] p1]|] eqn:Hs; [|done].
    simpl in Hcycle'. apply gac_steps_queue in Hcycle'.
    replace fuel with (fuel + 0) by lia.
    rewrite (gac_loop_steps _ _ _ _ _ _ _ _ Hs). by destruct q1 as [|[??]?].
Qed.

Lemma gac_loop_diverges_from n csp0 q0 csp q l :
  gac_steps n csp0 q0 [] = Some (csp, q, l) →
  (∀ fuel pruned, gac_loop fuel csp q pruned = None) →
  ∀ fuel, gac_loop fuel csp0 q0 [] = None.
Proof.
  intros Hs Hdiv fuel.
  destruct (decide (n ≤ fuel)) as [Hle|Hlt].
  - replace fuel with (n + (fuel - n)) by lia.
    rewrite (gac_loop_steps _ _ _ _ _ _ _ _ Hs). apply Hdiv.
  - replace n with (fuel + S (n - S fuel)) in Hs by lia.
    rewrite gac_steps_add in Hs.
    destruct (gac_steps fuel csp0 q0 []) as [[[csp1 q1] p1]|] eqn:Hs1; [|done].
    simpl in Hs. apply gac_steps_queue in Hs.
    replace fuel with (fuel + 0) by lia.
    rewrite (gac_loop_steps _ _ _ _ _ _ _ _ Hs1). by destruct q1 as [|[??]?].
Qed.

(** *** GAC on assigned variables *)

(** C8. On the unsolvable board with all four cells assigned, the
    worklist loop of [prop_GAC] never ends: no number of iterations is
    enough for the call to return. *)
Lemma prop_GAC_runs_forever :
  ¬ ∃ fuel r, prop_GAC fuel gac_stuck_model None = Some r.
Proof.
  intros (fuel & r & Hr). unfold prop_GAC in Hr.
  rewrite (gac_loop_diverges_from 14 _ _
             (prune_all gac_stuck_model [(0, 2%Z); (1, 1%Z)]) [(0, 4)]
             [(0, 2%Z); (1, 1%Z)]) in Hr; [done| |].
  - vm_compute. reflexivity.
  - apply (gac_loop_cycle 5 _ _ [(0, 2%Z); (1, 1%Z)]). vm_compute. reflexivity.
Qed.

(** C1. [prop_GAC] on the board [[1,<,1],[1,.,2]] with both cells of the
    first row assigned 1, called for the second: the call fails and its
    prune list holds the pairs (V0,0, 1) and (V0,1, 1) twice. *)
Theorem prop_GAC_prunes_twice :
  ∃ csp', prop_GAC 20 gac_twice_model (Some 1) =
    Some (false, [(0, 1%Z); (1, 1%Z); (0, 1%Z); (1, 1%Z); (2, 1%Z)], csp') ∧
  ¬ NoDup [(0, 1%Z); (1, 1%Z); (0, 1%Z); (1, 1%Z); (2, 1%Z)].
Proof.
  eexists. split; [vm_compute; reflexivity|].
  intros Hnd. apply NoDup_cons in Hnd as [Hnin _]. apply Hnin.
  right. left.
Qed.

(** *** Constraints without a valid tuple *)


Lemma existsb_elem_of {A} (f : A → bool) (l : list A) :
  existsb f l = true ↔ ∃ x, x ∈ l ∧ f x = true.
Proof.
  rewrite existsb_exists. split; intros (x & Hx & Hf); exists x;
    (split; [by apply list_elem_of_In|done]).
Qed.

Lemma forallb_elem_of {A} (f : A → bool) (l : list A) :
  forallb f l = true ↔ ∀ x, x ∈ l → f x = true.
Proof.
  rewrite forallb_forall. split; intros H x Hx; apply H; by apply list_elem_of_In.
Qed.

Lemma elem_of_zip_lookup {A B} (l : list A) (k : list B) a b :
  (a, b) ∈ zip l k ↔ ∃ i, l !! i = Some a ∧ k !! i = Some b.
Proof.
  rewrite list_elem_of_lookup. split.
  - intros [i Hi]. exists i. apply lookup_zip_with_Some in Hi as (x & y & [= -> ->] & ? & ?). done.
  - intros (i & Ha & Hb). exists i. apply lookup_zip_with_Some. eauto.
Qed.

Lemma has_support_true csp c v x :
  has_support csp c v x = true ↔
  ∃ t, t ∈ sat_tuples (get_con csp c) ∧
       (v, x) ∈ zip (get_scope csp c) t ∧
       ∀ w y, (w, y) ∈ zip (get_scope csp c) t → w ≠ v →
              y ∈ cur_domain (get_var csp w).
Proof.
  unfold has_support. rewrite existsb_elem_of. unfold supports.
  split.
  - intros (t & Ht & Hs). apply andb_true_iff in Hs as [He Hf].
    exists t. split; [done|]. split.
    + apply existsb_elem_of in He as ([w y] & Hp & Hwy). simpl in Hwy.
      apply andb_true_iff in Hwy as [Hw%bool_decide_eq_true Hy%bool_decide_eq_true].
      by subst.
    + intros w y Hp Hne. rewrite forallb_elem_of in Hf.
      specialize (Hf _ Hp). simpl in Hf. apply orb_true_iff in Hf as [Hf|Hf].
      * by apply bool_decide_eq_true in Hf.
      * by apply in_cur_domain_true.
  - intros (t & Ht & Hin & Hval). exists t. split; [done|].
    apply andb_true_iff. split.
    + apply existsb_elem_of. exists (v, x). split; [done|]. simpl.
      by rewrite !bool_decide_eq_true_2.
    + apply forallb_elem_of. intros [w y] Hp. simpl.
      destruct (decide (w = v)) as [->|Hne].
      * by rewrite bool_decide_eq_true_2.
      * rewrite bool_decide_eq_false_2 by done. simpl.
        apply in_cur_domain_true. by apply Hval.
Qed.

(** Support is lost, never gained, when current domains shrink. *)
Lemma has_support_mono csp csp' c v x :
  csp_cons csp' = csp_cons csp →
  (∀ w y, y ∈ cur_domain (get_var csp' w) → y ∈ cur_domain (get_var csp w)) →
  has_support csp' c v x = true → has_support csp c v x = true.
Proof.
  intros Hc Hsub. rewrite !has_support_true. unfold get_scope, get_con. rewrite Hc.
  intros (t & Ht & Hin & Hval). exists t. split; [done|]. split; [done|].
  intros w y Hp Hne. apply Hsub. by apply Hval.
Qed.

Lemma cur_domain_prune_value_subset csp v x w y :
  y ∈ cur_domain (get_var (prune_value csp v x) w) → y ∈ cur_domain (get_var csp w).
Proof.
  rewrite get_var_prune_value. case_decide; [|done].
  unfold cur_domain. simpl. destruct (assignedValue (get_var csp w)); [done|].
  intros Hy. by apply list_elem_of_filter in Hy as [_ ?].
Qed.

Lemma cur_domain_prune_all_subset csp l w y :
  y ∈ cur_domain (get_var (prune_all csp l) w) → y ∈ cur_domain (get_var csp w).
Proof.
  revert csp. induction l as [|[v x] l IH]; intros csp; [done|].
  intros Hy. apply IH in Hy. by apply cur_domain_prune_value_subset in Hy.
Qed.

Lemma dead_prune_all csp l c : dead csp c → dead (prune_all csp l) c.
Proof.
  intros Hdead v x Hx. apply cur_domain_prune_all_subset in Hx.
  specialize (Hdead v x Hx).
  destruct (has_support (prune_all csp l) c v x) eqn:Hs; [|done].
  apply has_support_mono with (csp := csp) in Hs; [congruence| |].
  - apply cons_prune_all.
  - intros w y. apply cur_domain_prune_all_subset.
Qed.

Lemma constraints_wf_get csp :
  constraints_wf csp →
  ∀ c, NoDup (get_scope csp c) ∧
       ∀ t, t ∈ sat_tuples (get_con csp c) → length t = length (get_scope csp c).
Proof.
  intros Hwf c. unfold get_scope, get_con. rewrite list_lookup_total_alt.
  destruct (csp_cons csp !! c) as [con|] eqn:Hc; simpl.
  - unfold constraints_wf in Hwf. rewrite Forall_lookup in Hwf.
    destruct (Hwf c con Hc) as [Hnd Hlen]. split; [done|].
    intros t Ht. rewrite Forall_forall in Hlen. by apply Hlen.
  - split; [constructor|]. intros t Ht. by apply elem_of_nil in Ht.
Qed.

(** When the value of an assigned variable has no support in [c], nothing
    has. *)
Lemma assigned_unsupported_dead csp c A a :
  constraints_wf csp →
  A ∈ get_scope csp c → get_assigned_value (get_var csp A) = Some a →
  has_support csp c A a = false → dead csp c.
Proof.
  intros Hwf HA Ha Hns v x Hx.
  destruct (has_support csp c v x) eqn:Hs; [|done].
  rewrite <- Hns. symmetry. apply has_support_true.
  apply has_support_true in Hs as (t & Ht & Hin & Hval).
  destruct (constraints_wf_get _ Hwf c) as [Hnd Hlen]. specialize (Hlen t Ht).
  assert (∀ w y, (w, y) ∈ zip (get_scope csp c) t → y ∈ cur_domain (get_var csp w)) as Hall.
  { intros w y Hp. destruct (decide (w = v)) as [->|Hne]; [|by apply Hval].
    apply elem_of_zip_lookup in Hp as (i & Hi1 & Hi2).
    apply elem_of_zip_lookup in Hin as (j & Hj1 & Hj2).
    assert (i = j) as -> by (by eapply NoDup_lookup).
    congruence. }
  exists t. split; [done|]. split; [|intros w y Hp _; by apply Hall].
  apply list_elem_of_lookup in HA as [i Hi].
  destruct (lookup_lt_is_Some_2 t i) as [y Hy].
  { rewrite Hlen. by eapply lookup_lt_Some. }
  assert ((A, y) ∈ zip (get_scope csp c) t) as Hp by (apply elem_of_zip_lookup; eauto).
  pose proof (Hall _ _ Hp) as Hy'. unfold cur_domain, get_assigned_value in *.
  rewrite Ha in Hy'. apply list_elem_of_singleton in Hy'. by subst y.
Qed.

(** A fully assigned, satisfied constraint supports the assigned
    values. *)
Lemma satisfied_has_support csp c A a :
  satisfied csp c →
  A ∈ get_scope csp c → get_assigned_value (get_var csp A) = Some a →
  has_support csp c A a = true.
Proof.
  intros (t & Ht & Hasg)%Exists_exists HA Ha.
  apply has_support_true. exists t. split; [done|].
  unfold assigned_tuple in Hasg.
  assert (∀ w y, (w, y) ∈ zip (get_scope csp c) t →
                 get_assigned_value (get_var csp w) = Some y) as Hall.
  { intros w y Hp. apply elem_of_zip_lookup in Hp as (i & Hi1 & Hi2).
    destruct (Forall2_lookup_l _ _ _ _ _ Hasg Hi1) as (y' & Hy' & Hw). congruence. }
  split.
  - apply list_elem_of_lookup in HA as [i Hi].
    destruct (Forall2_lookup_l _ _ _ _ _ Hasg Hi) as (y & Hy & Hw).
    apply elem_of_zip_lookup. exists i. split; [done|]. congruence.
  - intros w y Hp _. apply Hall in Hp. unfold cur_domain, get_assigned_value in *.
    rewrite Hp. by apply list_elem_of_singleton.
Qed.

(** Popping a pair whose constraint is dead and whose variable is
    unassigned with values left wipes that variable out. *)
Lemma gac_values_dead csp c u dom pruned shr :
  get_assigned_value (get_var csp u) = None →
  (∀ x, x ∈ dom → has_support csp c u x = false) →
  (∀ x, x ∈ cur_domain (get_var csp u) → x ∈ dom) →
  cur_domain (get_var csp u) ≠ [] →
  ∃ r, gac_values csp c u dom pruned shr = inl r.
Proof.
  revert csp pruned shr. induction dom as [|val dom IH]; intros csp pruned shr Hu Hns Hsub Hne.
  - destruct (cur_domain (get_var csp u)) as [|x ?]; [done|].
    specialize (Hsub x ltac:(left)). by apply elem_of_nil in Hsub.
  - simpl. rewrite (Hns val) by left. simpl.
    case_decide as Hlen; [by eexists|].
    apply IH.
    + by rewrite assigned_prune_value.
    + intros x Hx. rewrite has_support_prune_self. apply Hns. by right.
    + intros x Hx.
      rewrite cur_domain_unassigned in Hx by (by rewrite assigned_prune_value).
      rewrite get_var_prune_value_eq in Hx. simpl in Hx.
      apply list_elem_of_filter in Hx as [Hxne Hx].
      rewrite <- cur_domain_unassigned in Hx by done.
      apply Hsub in Hx. apply elem_of_cons in Hx as [->|?]; done.
    + intros Hnil. apply Hlen. by rewrite Hnil.
Qed.

Lemma gac_iteration_dead csp c u q pruned :
  dead csp c → get_assigned_value (get_var csp u) = None →
  cur_domain (get_var csp u) ≠ [] →
  ∃ r, gac_iteration csp u c q pruned = inl r.
Proof.
  intros Hdead Hu Hne. unfold gac_iteration.
  destruct (gac_values_dead csp c u (cur_domain (get_var csp u)) pruned false)
    as [r ->]; [done| |done|done|by eexists].
  intros x Hx. by apply Hdead.
Qed.

(** *** Termination of the worklist loop *)


Lemma length_curdom_prune x v : length (curdom (prune x v)) ≤ length (curdom v).
Proof. simpl. apply length_filter. Qed.

Lemma length_curdom_prune_lt x v :
  x ∈ curdom v → length (curdom (prune x v)) < length (curdom v).
Proof.
  simpl. induction (curdom v) as [|y d IH]; intros Hx; [by apply elem_of_nil in Hx|].
  rewrite filter_cons. case_decide as Hy; simpl.
  - apply elem_of_cons in Hx as [->|Hx]; [done|]. specialize (IH Hx). lia.
  - pose proof (length_filter (λ y, y ≠ x) d). lia.
Qed.

Lemma domain_size_prune_value_le csp v x :
  domain_size (prune_value csp v x) ≤ domain_size csp.
Proof.
  unfold domain_size, prune_value. simpl. generalize (csp_vars csp). intros l.
  revert v. induction l as [|y l IH]; intros [|v]; csimpl; try lia.
  - pose proof (length_curdom_prune x y) as H. simpl in H. lia.
  - specialize (IH v). lia.
Qed.

Lemma domain_size_prune_value_lt csp v x :
  x ∈ curdom (get_var csp v) →
  domain_size (prune_value csp v x) < domain_size csp.
Proof.
  unfold domain_size, prune_value, get_var. simpl. generalize (csp_vars csp). intros l.
  revert v. induction l as [|y l IH]; intros v Hx.
  - rewrite list_lookup_total_alt in Hx. destruct v; simpl in Hx; by apply elem_of_nil in Hx.
  - destruct v as [|v]; csimpl in *.
    + pose proof (length_curdom_prune_lt x y Hx) as H. simpl in H. lia.
    + specialize (IH v Hx). lia.
Qed.

Lemma domain_size_prune_all_le csp l :
  domain_size (prune_all csp l) ≤ domain_size csp.
Proof.
  revert csp. induction l as [|[v x] l IH]; intros csp; [done|].
  unfold prune_all in *. simpl. etrans; [apply IH|]. apply domain_size_prune_value_le.
Qed.

Lemma domain_size_prune_values_lt csp v U :
  U ≠ [] → (∀ x, x ∈ U → x ∈ curdom (get_var csp v)) →
  domain_size (prune_all csp ((v,.) <$> U)) < domain_size csp.
Proof.
  destruct U as [|x U]; [done|]. intros _ Hin. simpl.
  eapply Nat.le_lt_trans; [apply domain_size_prune_all_le|].
  apply domain_size_prune_value_lt, Hin. left.
Qed.


Lemma get_all_cons_prune_all csp l : get_all_cons (prune_all csp l) = get_all_cons csp.
Proof. unfold get_all_cons. by rewrite cons_prune_all. Qed.

Lemma constraints_wf_prune_all csp l :
  constraints_wf csp → constraints_wf (prune_all csp l).
Proof. unfold constraints_wf. by rewrite cons_prune_all. Qed.

#[global] Hint Rewrite get_all_cons_prune_all : prune_all.

Lemma queue_ok_prune_all csp l q : queue_ok csp q → queue_ok (prune_all csp l) q.
Proof. intros Hq v c Hin. autorewrite with prune_all. by apply Hq. Qed.

Lemma queue_ok_enqueue csp var q :
  queue_ok csp q → queue_ok csp (foldl add_new q (enqueue_candidates csp var)).
Proof.
  intros Hq v c Hin.
  destruct (add_new_all q (enqueue_candidates csp var)) as (_ & Helem & _).
  apply Helem in Hin as [Hin|Hin]; [by apply Hq|].
  apply elem_of_enqueue_candidates in Hin as (Hc & Hv & _).
  apply elem_of_get_cons_with_var in Hc as [? _]. done.
Qed.

Lemma queue_ok_seed csp newVar : queue_ok csp (gac_seed csp (constraints_of csp newVar)).
Proof.
  intros v c Hin. apply elem_of_gac_seed in Hin as [Hc Hv]. split; [|done].
  destruct newVar as [w|]; simpl in Hc; [|done].
  by apply elem_of_get_cons_with_var in Hc as [? _].
Qed.

Lemma assigned_tuple_prune_all csp l c t :
  assigned_tuple (prune_all csp l) c t ↔ assigned_tuple csp c t.
Proof.
  unfold assigned_tuple. rewrite get_scope_prune_all.
  split; intros H; eapply Forall2_impl; try done; simpl; intros v x;
    by rewrite assigned_prune_all.
Qed.

Lemma cur_domain_prune_all_other csp l w :
  (∀ p, p ∈ l → p.1 ≠ w) →
  get_var (prune_all csp l) w = get_var csp w.
Proof.
  revert csp. induction l as [|[v x] l IH]; intros csp Hne; [done|].
  unfold prune_all in *. simpl. rewrite IH.
  - apply get_var_prune_value_ne. intros ->. by apply (Hne (v, x)); [left|].
  - intros p Hp. apply Hne. by right.
Qed.

Lemma get_var_prune_values_other csp v U w :
  w ≠ v → get_var (prune_all csp ((v,.) <$> U)) w = get_var csp w.
Proof.
  intros Hne. apply cur_domain_prune_all_other.
  intros p Hp. apply list_elem_of_fmap in Hp as (x & -> & _). simpl. congruence.
Qed.

(** While no domain is wiped out, the states stay among those of
    [consistent_assignments]. *)
Lemma consistent_assignments_prune csp v U :
  consistent_assignments csp →
  cur_domain (get_var (prune_all csp ((v,.) <$> U)) v) ≠ [] →
  consistent_assignments (prune_all csp ((v,.) <$> U)).
Proof.
  intros Hcons Hne. unfold consistent_assignments in *.
  rewrite get_all_cons_prune_all. eapply Forall_impl; [done|]. simpl.
  intros c [(u & Hu & Hun & Hdom)%Exists_exists|(t & Ht & Hsat)%Exists_exists].
  - left. apply Exists_exists. exists u. autorewrite with prune_all.
    split; [done|]. split; [done|].
    destruct (decide (u = v)) as [->|Hneq]; [done|].
    by rewrite get_var_prune_values_other.
  - right. apply Exists_exists. exists t.
    rewrite assigned_tuple_prune_all, get_con_prune_all. done.
Qed.


Lemma gac_terminates_step csp var c q pruned :
  (∀ csp' q' pruned', gac_iteration csp var c q pruned = inr (csp', q', pruned') →
                      gac_terminates csp' q' pruned') →
  gac_terminates csp ((var, c) :: q) pruned.
Proof.
  intros H. destruct (gac_iteration csp var c q pruned) as [[csp1 p1]|[[csp1 q1] p1]] eqn:Hit.
  - exists 1. eexists. simpl. by rewrite Hit.
  - destruct (H _ _ _ eq_refl) as (fuel & r & Hr). exists (S fuel), r. simpl. by rewrite Hit.
Qed.

(** A pending pair over a dead constraint, with an unassigned variable
    that has values left, ends the loop when its turn comes, if nothing
    does before. *)
Lemma gac_terminates_killer k csp q pruned u c :
  q !! k = Some (u, c) →
  dead csp c → get_assigned_value (get_var csp u) = None →
  cur_domain (get_var csp u) ≠ [] →
  gac_terminates csp q pruned.
Proof.
  revert csp q pruned. induction k as [|k IH]; intros csp q pruned Hk Hdead Hu Hne.
  - destruct q as [|[u' c'] q]; [done|]. injection Hk as -> ->.
    destruct (gac_iteration_dead csp c u q pruned Hdead Hu Hne) as [[csp1 p1] Hit].
    exists 1. eexists. simpl. by rewrite Hit.
  - destruct q as [|[var c0] q]; [done|]. simpl in Hk.
    apply gac_terminates_step. intros csp' q' pruned' Hit.
    apply gac_iteration_inr in Hit as (-> & -> & -> & Hdom).
    apply IH.
    + case_bool_decide; [|done].
      destruct (add_new_all q (enqueue_candidates csp var)) as (Hpre & _).
      by eapply prefix_lookup_Some.
    + by apply dead_prune_all.
    + by rewrite assigned_prune_all.
    + destruct (decide (u = var)) as [->|Hneq].
      * destruct (decide (unsupported csp c0 var (cur_domain (get_var csp var)) = []))
          as [->|HU]; [done|]. by apply Hdom.
      * by rewrite get_var_prune_values_other.
Qed.

Lemma unsupported_elem csp c var dom x :
  x ∈ unsupported csp c var dom ↔ x ∈ dom ∧ has_support csp c var x = false.
Proof. unfold unsupported. by rewrite list_elem_of_filter, (comm and). Qed.

Lemma gac_loop_terminates csp q pruned :
  constraints_wf csp → consistent_assignments csp → queue_ok csp q →
  gac_terminates csp q pruned.
Proof.
  remember (domain_size csp) as m eqn:Hm. revert csp q pruned Hm.
  induction (lt_wf m) as [m _ IHm]. intros csp q.
  induction q as [|[var c] q IHq]; intros pruned Hm Hwf Hcons Hq.
  - exists 0. by eexists.
  - apply gac_terminates_step. intros csp' q' pruned' Hit.
    apply gac_iteration_inr in Hit as (-> & -> & -> & Hdom).
    assert (queue_ok csp q) as Hq'.
    { intros v' c' Hin. apply Hq. by right. }
    destruct (Hq var c ltac:(left)) as [Hc Hvar].
    case_bool_decide as HU.
    2:{ rewrite HU. simpl. by apply IHq. }
    specialize (Hdom HU).
    set (U := unsupported csp c var (cur_domain (get_var csp var))) in *.
    destruct (get_assigned_value (get_var csp var)) as [a|] eqn:Ha.
    + (* an assigned variable lost its value: the constraint is dead *)
      assert (U = [a]) as HUa.
      { unfold U, unsupported in *. unfold cur_domain, get_assigned_value in *.
        rewrite Ha in *. rewrite filter_cons in *. case_decide; [done|]. done. }
      assert (has_support csp c var a = false) as Hns.
      { apply (unsupported_elem csp c var (cur_domain (get_var csp var)) a).
        fold U. rewrite HUa. left. }
      assert (dead csp c) as Hdead by (by eapply assigned_unsupported_dead).
      unfold consistent_assignments in Hcons. rewrite Forall_forall in Hcons.
      destruct (Hcons c Hc) as [(u & Hu & Hun & Hudom)%Exists_exists|Hsat].
      2:{ rewrite (satisfied_has_support csp c var a) in Hns; done. }
      assert (u ≠ var) as Hneq by (intros ->; congruence).
      assert ((u, c) ∈ foldl add_new q (enqueue_candidates csp var)) as Hin.
      { destruct (add_new_all q (enqueue_candidates csp var)) as (_ & Helem & _).
        apply Helem. right. apply elem_of_enqueue_candidates.
        split; [by apply elem_of_get_cons_with_var|done]. }
      apply list_elem_of_lookup in Hin as [k Hk].
      eapply gac_terminates_killer; [done| | |].
      * by apply dead_prune_all.
      * by rewrite assigned_prune_all.
      * by rewrite get_var_prune_values_other.
    + (* an unassigned variable lost values: fewer values are left *)
      eapply IHm; [|reflexivity| | |].
      * subst m. apply domain_size_prune_values_lt; [done|].
        intros x Hx. apply unsupported_elem in Hx as [Hx _].
        by rewrite cur_domain_unassigned in Hx.
      * by apply constraints_wf_prune_all.
      * by apply consistent_assignments_prune.
      * apply queue_ok_prune_all. by apply queue_ok_enqueue.
Qed.

(** X26. [prop_GAC] terminates on every model whose constraints are well
    formed and each either still have an unassigned variable with values
    left or are fully assigned with a satisfying tuple. *)
Theorem prop_GAC_terminates csp newVar :
  constraints_wf csp → consistent_assignments csp →
  ∃ fuel r, prop_GAC fuel csp newVar = Some r.
Proof.
  intros Hwf Hcons. apply gac_loop_terminates; [done|done|]. apply queue_ok_seed.
Qed.

(** *** The fixed point of GAC *)

Lemma gac_values_supported csp c var dom pruned shr :
  (∀ x, x ∈ dom → has_support csp c var x = true) →
  gac_values csp c var dom pruned shr = inr (csp, pruned, shr).
Proof.
  induction dom as [|val dom IH]; intros H; simpl; [done|].
  rewrite (H val) by left. simpl. apply IH. intros x Hx. apply H. by right.
Qed.

(** On a worklist of supported pairs the loop prunes nothing. *)
Lemma gac_loop_supported csp q pruned :
  (∀ v c, (v, c) ∈ q → supported csp v c) →
  gac_loop (length q) csp q pruned = Some (true, pruned, csp).
Proof.
  induction q as [|[var c] q IH]; intros H; simpl; [done|].
  unfold gac_iteration.
  rewrite gac_values_supported by (apply (H var c); left).
  apply IH. intros v c' Hin. apply H. by right.
Qed.

Lemma gac_loop_pruned fuel csp q p0 pruned :
  gac_loop fuel csp q (p0 ++ pruned) =
  (λ '(b, l, s), (b, p0 ++ l, s)) <$> gac_loop fuel csp q pruned.
Proof.
  revert csp q pruned. induction fuel as [|fuel IH]; intros csp q pruned.
  - by destruct q as [|[??]?].
  - destruct q as [|[var c] q]; [done|]. simpl. rewrite gac_iteration_pruned.
    destruct (gac_iteration csp var c q pruned) as [[? ?]|[[csp1 q1] p1]]; [done|].
    apply IH.
Qed.

Lemma gac_loop_from_nil fuel csp q pruned b l csp' :
  gac_loop fuel csp q pruned = Some (b, l, csp') →
  ∃ l1, l = pruned ++ l1 ∧ gac_loop fuel csp q [] = Some (b, l1, csp').
Proof.
  rewrite <- (app_nil_r pruned) at 1. rewrite gac_loop_pruned.
  destruct (gac_loop fuel csp q []) as [[[b1 l1] s1]|]; [|done].
  intros [= <- <- <-]. by exists l1.
Qed.

(** The model a call leaves is the model it started from after the
    prunings it lists. *)
Lemma gac_loop_prune_all fuel csp q b l csp' :
  gac_loop fuel csp q [] = Some (b, l, csp') → csp' = prune_all csp l.
Proof.
  revert csp q l. induction fuel as [|fuel IH]; intros csp q l.
  - destruct q as [|[??]?]; [|done]. by intros [= <- <- <-].
  - destruct q as [|[var c] q]; [by intros [= <- <- <-]|]. simpl.
    destruct (gac_iteration csp var c q []) as [[csp1 p1]|[[csp1 q1] p1]] eqn:Hit.
    + intros [= <- <- <-]. unfold gac_iteration in Hit.
      destruct (gac_values _ _ _ _ _ _) as [[csp2 p2]|[[? ?] ?]] eqn:Hv; [|done].
      injection Hit as -> ->.
      apply gac_values_inl in Hv as (l1 & _ & _ & -> & -> & _). done.
    + intros Hloop. apply gac_iteration_inr in Hit as (-> & -> & _ & _).
      apply gac_loop_from_nil in Hloop as (l1 & -> & Hloop).
      apply IH in Hloop. rewrite Hloop. simpl. by rewrite prune_all_app.
Qed.

(** After the values without support were pruned from an unassigned
    variable, or when there was none to prune, what is left had
    support. *)
Lemma cur_domain_after_prune csp c var x :
  let U := unsupported csp c var (cur_domain (get_var csp var)) in
  (U ≠ [] → get_assigned_value (get_var csp var) = None) →
  x ∈ cur_domain (get_var (prune_all csp ((var,.) <$> U)) var) →
  x ∈ cur_domain (get_var csp var) ∧ has_support csp c var x = true.
Proof.
  intros U HU Hx.
  split; [by apply cur_domain_prune_all_subset in Hx|].
  destruct (decide (U = [])) as [Hnil|Hne].
  - rewrite Hnil in Hx. simpl in Hx.
    destruct (has_support csp c var x) eqn:Hs; [done|].
    assert (x ∈ U) as Hin by (by apply unsupported_elem).
    rewrite Hnil in Hin. by apply elem_of_nil in Hin.
  - specialize (HU Hne). rewrite fc_constraint_domain in Hx by done.
    apply list_elem_of_filter in Hx as [Hnin Hx].
    destruct (has_support csp c var x) eqn:Hs; [done|].
    exfalso. apply Hnin. by apply unsupported_elem.
Qed.

Lemma has_support_prune_values csp c v x var U :
  (v = var ∨ var ∉ get_scope csp c) →
  has_support (prune_all csp ((var,.) <$> U)) c v x = has_support csp c v x.
Proof.
  intros Hv. apply has_support_ext; [apply cons_prune_all|].
  intros w Hw Hne. rewrite get_var_prune_values_other; [done|].
  intros ->. destruct Hv as [->|Hv]; done.
Qed.

Section fixpoint.
(** The pairs the call was seeded with. *)
Variable seed : gac_queue_t.


Lemma gac_inv_iteration csp var c q :
  let U := unsupported csp c var (cur_domain (get_var csp var)) in
  let csp1 := prune_all csp ((var,.) <$> U) in
  let q1 := if bool_decide (U ≠ []) then foldl add_new q (enqueue_candidates csp var)
            else q in
  queue_ok csp seed →
  (U ≠ [] → get_assigned_value (get_var csp var) = None) →
  gac_inv seed csp ((var, c) :: q) → gac_inv seed csp1 q1.
Proof.
  intros U csp1 q1 Hseed HU Hinv v c' Hin.
  assert (q `prefix_of` q1 ∧
          (U ≠ [] → ∀ p, p ∈ enqueue_candidates csp var → p ∈ q1)) as [Hpre Hnew].
  { unfold q1. case_bool_decide; [|done].
    destruct (add_new_all q (enqueue_candidates csp var)) as (Hpre & Helem & _).
    split; [done|]. intros _ p Hp. apply Helem. by right. }
  assert (supported csp v c' → (v, c') ∈ q1 ∨ supported csp1 v c') as Hkeep.
  { intros Hsup.
    destruct (decide (U = [])) as [Hnil|Hne].
    { right. unfold csp1. rewrite Hnil. exact Hsup. }
    destruct (decide (v = var)) as [->|Hv].
    - right. intros x Hx. apply cur_domain_prune_all_subset in Hx.
      unfold csp1. rewrite has_support_prune_values by (by left). by apply Hsup.
    - destruct (decide (var ∈ get_scope csp c')) as [Hsc|Hsc].
      + left. apply Hnew; [done|]. apply elem_of_enqueue_candidates.
        destruct (Hseed v c' Hin) as [Hc' Hvc'].
        split; [by apply elem_of_get_cons_with_var|done].
      + right. intros x Hx. unfold csp1 in *.
        rewrite get_var_prune_values_other in Hx by done.
        rewrite has_support_prune_values by (by right). by apply Hsup. }
  destruct (Hinv v c' Hin) as [Hq|Hsup]; [|by apply Hkeep].
  apply elem_of_cons in Hq as [[= -> ->]|Hq].
  - right. intros x Hx. apply cur_domain_after_prune in Hx as [_ Hx]; [|done].
    unfold csp1. rewrite has_support_prune_values by (by left). done.
  - left. by eapply elem_of_prefix.
Qed.

Lemma gac_loop_fixpoint fuel csp q l csp' :
  queue_ok csp seed → gac_inv seed csp q →
  gac_loop fuel csp q [] = Some (true, l, csp') →
  Forall (λ p, get_assigned_value (get_var csp p.1) = None) l →
  ∀ v c, (v, c) ∈ seed → supported csp' v c.
Proof.
  revert csp q l. induction fuel as [|fuel IH]; intros csp q l Hseed Hinv.
  - destruct q as [|[??]?]; [|done]. intros [= <- <-] _ v c Hin.
    destruct (Hinv v c Hin) as [Hq|?]; [|done]. by apply elem_of_nil in Hq.
  - destruct q as [|[var c] q].
    { intros [= <- <-] _ v c Hin.
      destruct (Hinv v c Hin) as [Hq|?]; [|done]. by apply elem_of_nil in Hq. }
    simpl.
    destruct (gac_iteration csp var c q []) as [[csp1 p1]|[[csp1 q1] p1]] eqn:Hit; [done|].
    apply gac_iteration_inr in Hit as (-> & -> & -> & _).
    intros Hloop Hun. apply gac_loop_from_nil in Hloop as (l1 & -> & Hloop).
    apply Forall_app in Hun as [Hun1 Hun2].
    eapply IH; [| |done|].
    + by apply queue_ok_prune_all.
    + apply gac_inv_iteration; [done| |done].
      intros HU. simpl in Hun1.
      destruct (unsupported csp c var (cur_domain (get_var csp var))) as [|x U]; [done|].
      by apply Forall_cons in Hun1 as [? _].
    + eapply Forall_impl; [done|]. intros p Hp. by rewrite assigned_prune_all.
Qed.
End fixpoint.

Lemma gac_seed_prune_all csp l newVar :
  gac_seed (prune_all csp l) (constraints_of (prune_all csp l) newVar) =
  gac_seed csp (constraints_of csp newVar).
Proof.
  assert (constraints_of (prune_all csp l) newVar = constraints_of csp newVar) as ->.
  { destruct newVar; simpl; [apply get_cons_with_var_prune_all|apply get_all_cons_prune_all]. }
  unfold gac_seed. apply list_bind_ext; [|done]. intros c. by rewrite get_scope_prune_all.
Qed.

Lemma arc_consistent_outside_inv csp newVar :
  arc_consistent_outside csp newVar →
  gac_inv (gac_seed csp (get_all_cons csp)) csp (gac_seed csp (constraints_of csp newVar)).
Proof.
  intros Hac v c Hin. unfold arc_consistent_outside in Hac.
  rewrite Forall_forall in Hac. destruct (Hac _ Hin) as [?|Hsup]; [by left|right].
  intros x Hx. simpl in Hsup. rewrite Forall_forall in Hsup. by apply Hsup.
Qed.

(** C3, as amended. When a call of [prop_GAC] succeeds and has pruned no
    value of an assigned variable, repeating the call with the same
    argument on the model it left succeeds with an empty prune list; and
    so does a call without a newly assigned variable, when the pairs the
    first call did not seed were supported before it. *)
Theorem prop_GAC_idempotent fuel csp newVar pruned csp' :
  prop_GAC fuel csp newVar = Some (true, pruned, csp') →
  prunes_unassigned csp pruned →
  (∀ fuel', length (gac_seed csp (constraints_of csp newVar)) ≤ fuel' →
            prop_GAC fuel' csp' newVar = Some (true, [], csp')) ∧
  (arc_consistent_outside csp newVar →
   ∀ fuel', length (gac_seed csp (constraints_of csp None)) ≤ fuel' →
            prop_GAC fuel' csp' None = Some (true, [], csp')).
Proof.
  unfold prop_GAC. intros Hrun Hun.
  pose proof (gac_loop_prune_all _ _ _ _ _ _ Hrun) as ->.
  split.
  - intros fuel' Hfuel. rewrite gac_seed_prune_all.
    eapply gac_loop_fuel_mono; [|done]. apply gac_loop_supported.
    eapply (gac_loop_fixpoint (gac_seed csp (constraints_of csp newVar))); [| |done..].
    + apply queue_ok_seed.
    + intros v c Hin. by left.
  - intros Hac fuel' Hfuel. rewrite gac_seed_prune_all.
    eapply gac_loop_fuel_mono; [|done]. apply gac_loop_supported.
    eapply (gac_loop_fixpoint (gac_seed csp (constraints_of csp None))); [| |done..].
    + apply (queue_ok_seed csp None).
    + by apply arc_consistent_outside_inv.
Qed.

(** *** The encoders on a board of one cell *)

(** C6, counterexample. For a board of one cell the second encoder
    returns a model with two constraints. *)
Lemma futoshiki_csp_model_2_one_cell :
  ∃ csp variable_array,
    futoshiki_csp_model_2 [[Num 0]] = Some (csp, variable_array) ∧
    length (csp_vars csp) = 1 ∧ length (csp_cons csp) = 2.
Proof. do 2 eexists. split; [vm_compute; reflexivity|]. done. Qed.

(** C6, as amended. For a board of one cell the first encoder returns one
    variable and no constraint; the second returns the same variable and
    two all-different constraints over it, one for the row and one for the
    column. *)
Theorem encoders_one_cell z :
  let domain := if (z =? 0)%Z then [1%Z] else [z] in
  let var := new_Variable "V0,0" domain in
  let c := {| cname := "all_different"; scope := [0]; sat_tuples := [domain] |} in
  futoshiki_csp_model_1 [[Num z]] =
    Some ({| csp_name := "Futoshiki-M1"; csp_vars := [var]; csp_cons := [] |}, [[0]]) ∧
  futoshiki_csp_model_2 [[Num z]] =
    Some ({| csp_name := "Futoshiki-M2"; csp_vars := [var]; csp_cons := [c; c] |}, [[0]]).
Proof.
  destruct (z =? 0)%Z eqn:Hz; split; unfold futoshiki_csp_model_1, futoshiki_csp_model_2,
    build_variables; simpl; rewrite Hz; reflexivity.
Qed.

(** *** The materializer *)

Lemma all_different_check_NoDup t : all_different_check t = true ↔ NoDup t.
Proof.
  induction t as [|x t IH]; simpl.
  - split; [constructor|done].
  - rewrite andb_true_iff, IH, NoDup_cons, forallb_elem_of. split.
    + intros [Hx ?]. split; [|done]. intros Hin. specialize (Hx x Hin).
      by rewrite Z.eqb_refl in Hx.
    + intros [Hx ?]. split; [|done]. intros y Hy.
      apply negb_true_iff, Z.eqb_neq. by intros ->.
Qed.

Lemma NoDup_pairwise (t : list Z) :
  NoDup t ↔ ∀ i j x y, i < j → t !! i = Some x → t !! j = Some y → x ≠ y.
Proof.
  rewrite NoDup_alt. split.
  - intros H i j x y Hlt Hi Hj ->. specialize (H i j y Hi Hj). lia.
  - intros H i j x Hi Hj. destruct (Nat.lt_trichotomy i j) as [Hlt|[?|Hlt]]; [|done|].
    + by destruct (H i j x x Hlt Hi Hj).
    + by destruct (H j i x x Hlt Hj Hi).
Qed.

Lemma operator_holds_spec name t :
  operator_holds name t = true ↔ satisfies_operator name t.
Proof.
  unfold operator_holds, satisfies_operator.
  destruct t as [|a [|b t]].
  - rewrite bool_decide_eq_true. split.
    + intros ->. do 3 right. split; [done|]. intros i j x y _ Hi.
      by rewrite lookup_nil in Hi.
    + intros [[_ (a & b & Ha & _)]|[[_ (a & b & Ha & _)]|[[_ (a & b & Ha & _)]|[? _]]]];
        [by rewrite lookup_nil in Ha..|done].
  - rewrite bool_decide_eq_true. split.
    + intros ->. do 3 right. split; [done|]. intros i [|j] x y Hlt Hi Hj; [lia|].
      simpl in Hj. by rewrite lookup_nil in Hj.
    + intros [[_ (? & b & _ & Hb & _)]|[[_ (? & b & _ & Hb & _)]|[[_ (? & b & _ & Hb & _)]|[? _]]]];
        [by simpl in Hb..|done].
  - destruct (decide (name = ">")) as [->|H1];
      [|destruct (decide (name = "<")) as [->|H2];
        [|destruct (decide (name = "not_equal")) as [->|H3]]];
      rewrite bool_decide_eq_true.
    + split.
      * intros ?. left. split; [done|]. exists a, b. done.
      * intros [[_ (? & ? & [= <-] & [= <-] & ?)]|[[? _]|[[? _]|[? _]]]]; done.
    + split.
      * intros ?. right. left. split; [done|]. exists a, b. done.
      * intros [[? _]|[[_ (? & ? & [= <-] & [= <-] & ?)]|[[? _]|[? _]]]]; done.
    + split.
      * intros ?. right. right. left. split; [done|]. exists a, b. done.
      * intros [[? _]|[[? _]|[[_ (? & ? & [= <-] & [= <-] & ?)]|[? _]]]]; done.
    + rewrite NoDup_pairwise. split.
      * intros [? ?]. do 3 right. done.
      * intros [[? _]|[[? _]|[[? _]|[? ?]]]]; done.
Qed.

Lemma length_product domains t :
  t ∈ product domains → length t = length domains.
Proof.
  revert t. induction domains as [|d domains IH]; intros t; simpl.
  - by intros ->%list_elem_of_singleton.
  - intros Ht. apply list_elem_of_bind in Ht as (x & Ht & _).
    apply list_elem_of_fmap in Ht as (t' & -> & Ht'). simpl. f_equal. by apply IH.
Qed.

Lemma elem_of_product domains t :
  t ∈ product domains ↔ Forall2 (λ x d, x ∈ d) t domains.
Proof.
  revert t. induction domains as [|d domains IH]; intros t; simpl.
  - rewrite list_elem_of_singleton. split; [intros ->; constructor|by intros ?%Forall2_nil_inv_r].
  - rewrite list_elem_of_bind. split.
    + intros (x & Ht & Hx). apply list_elem_of_fmap in Ht as (t' & -> & Ht').
      constructor; [done|]. by apply IH.
    + intros H. apply Forall2_cons_inv_r in H as (x & t' & Hx & Ht' & ->).
      exists x. split; [|done]. apply list_elem_of_fmap. exists t'. split; [done|]. by apply IH.
Qed.

Lemma keep_satisfying_filter f (holds : list Z → bool) ts :
  (∀ t, t ∈ ts → f t = Some (holds t)) →
  keep_satisfying (Some f) ts = Some (filter (λ t, holds t = true) ts).
Proof.
  induction ts as [|t ts IH]; intros H; simpl; [done|].
  rewrite (H t) by left. simpl. rewrite IH by (intros t' Ht'; apply H; by right). simpl.
  rewrite filter_cons. destruct (holds t); simpl; done.
Qed.

Lemma eq_bool_decide (b : bool) (P : Prop) `{Decision P} :
  (b = true ↔ P) → b = bool_decide P.
Proof.
  intros Hiff. destruct b; symmetry.
  - apply bool_decide_eq_true. by apply Hiff.
  - apply bool_decide_eq_false. intros HP. by apply Hiff in HP.
Qed.

Lemma switch_holds name t :
  known_tag name → (name ≠ "all_different" → 2 ≤ length t) →
  ∃ f, switch name = Some f ∧ f t = Some (operator_holds name t).
Proof.
  intros Hname Hlen. unfold switch, operator_holds.
  destruct Hname as [-> | [-> | [-> | ->]]]; simpl.
  - destruct t as [|a [|b t]]; try (simpl in Hlen; specialize (Hlen ltac:(done)); lia).
    eexists. split; [done|]. unfold switch_gt. simpl. f_equal.
    apply eq_bool_decide. rewrite Z.ltb_lt. lia.
  - destruct t as [|a [|b t]]; try (simpl in Hlen; specialize (Hlen ltac:(done)); lia).
    eexists. split; [done|]. unfold switch_lt. simpl. f_equal.
    apply eq_bool_decide. by rewrite Z.ltb_lt.
  - destruct t as [|a [|b t]]; try (simpl in Hlen; specialize (Hlen ltac:(done)); lia).
    eexists. split; [done|]. unfold switch_not_equal. simpl. f_equal.
    apply eq_bool_decide. by rewrite negb_true_iff, Z.eqb_neq.
  - eexists. split; [done|]. simpl. f_equal.
    destruct t as [|a [|b t]]; try done.
    apply eq_bool_decide. rewrite all_different_check_NoDup. tauto.
Qed.

Lemma check_constraint_add_tuples_filter csp_variables c :
  known_tag (cname c) →
  (cname c ≠ "all_different" → 2 ≤ length (scope c)) →
  check_constraint_add_tuples csp_variables c =
    Some (add_satisfying_tuples c
            (filter (λ t, operator_holds (cname c) t = true)
               (product (scope_domains csp_variables c)))).
Proof.
  intros Hname Hlen.
  unfold check_constraint_add_tuples. fold (scope_domains csp_variables c).
  destruct (product (scope_domains csp_variables c)) as [|t0 ts] eqn:Hprod.
  - simpl. done.
  - assert (∀ t, t ∈ t0 :: ts → 2 ≤ length t ∨ cname c = "all_different") as Hts.
    { intros t Ht. rewrite <- Hprod in Ht. apply length_product in Ht.
      unfold scope_domains in Ht. rewrite length_fmap in Ht.
      destruct (decide (cname c = "all_different")); [by right|left].
      rewrite Ht. by apply Hlen. }
    destruct (switch_holds (cname c) t0 Hname) as (f & Hf & _).
    { intros Hne. destruct (Hts t0 ltac:(left)); done. }
    rewrite Hf. rewrite (keep_satisfying_filter f (operator_holds (cname c))); [done|].
    intros t Ht. destruct (switch_holds (cname c) t Hname) as (f' & Hf' & Hft).
    { intros Hne. destruct (Hts t Ht); done. }
    congruence.
Qed.

(** C7, as amended. For one of the four operator tags, on a scope of at
    least two variables for the binary ones, the materializer assigns to
    the constraint the tuples of the Cartesian product of the original
    domains of the scope, in product order, that satisfy the operator. *)
Theorem check_constraint_add_tuples_spec csp_variables c :
  known_tag (cname c) →
  (cname c ≠ "all_different" → 2 ≤ length (scope c)) →
  check_constraint_add_tuples csp_variables c =
    Some (add_satisfying_tuples c
            (filter (λ t, operator_holds (cname c) t = true)
               (product (scope_domains csp_variables c)))) ∧
  (∀ t, t ∈ product (scope_domains csp_variables c) ↔
        Forall2 (λ x d, x ∈ d) t (scope_domains csp_variables c)) ∧
  (∀ t, operator_holds (cname c) t = true ↔ satisfies_operator (cname c) t).
Proof.
  intros Hname Hlen.
  split; [by apply check_constraint_add_tuples_filter|].
  split; [apply elem_of_product|apply operator_holds_spec].
Qed.

(** C7, counterexample. With the value 1 pruned from the first variable,
    the materializer still keeps the tuple (1, 2), which is not in the
    product of the current domains. *)
Lemma check_constraint_add_tuples_original_domains :
  check_constraint_add_tuples pruned_variables (new_Constraint "<" [0; 1]) =
    Some {| cname := "<"; scope := [0; 1]; sat_tuples := [[1; 2]%Z] |} ∧
  [1; 2]%Z ∉ product (scope_cur_domains pruned_variables (new_Constraint "<" [0; 1])).
Proof.
  split; [reflexivity|]. vm_compute. intros H. apply list_elem_of_In in H.
  simpl in H. destruct H as [H|[H|[]]]; discriminate H.
Qed.

(** *** The encoders on boards in the input format *)

Lemma for_each_inv {A S} (P : S → Prop) (body : S → A → option S) (l : list A) (s : S) :
  (∀ s x, x ∈ l → P s → ∃ s', body s x = Some s' ∧ P s') →
  P s → ∃ s', for_each body l s = Some s' ∧ P s'.
Proof.
  revert s. induction l as [|x l IH]; intros s Hbody Hs; simpl; [by eauto|].
  destruct (Hbody s x ltac:(left) Hs) as (s1 & -> & Hs1). simpl.
  apply IH; [|done]. intros s2 y Hy. apply Hbody. by right.
Qed.

Lemma elem_of_enumerate {A} (l : list A) i x :
  (i, x) ∈ enumerate l ↔ l !! i = Some x.
Proof.
  unfold enumerate. rewrite elem_of_zip_lookup. split.
  - intros (k & Hk & Hx). apply lookup_seq in Hk as [-> _]. done.
  - intros Hx. exists i. split; [|done]. apply lookup_seq. split; [done|].
    by eapply lookup_lt_Some.
Qed.


Lemma emit_known csp name sc :
  known_tag name → (name ≠ "all_different" → 2 ≤ length sc) →
  tags_known csp →
  ∃ csp', emit csp name sc = Some csp' ∧ tags_known csp' ∧ csp_vars csp' = csp_vars csp.
Proof.
  intros Hname Hlen Htags. unfold emit.
  rewrite check_constraint_add_tuples_filter by done. simpl.
  eexists. split; [done|]. split; [|done].
  unfold tags_known, add_constraint. simpl. apply Forall_app. split; [done|].
  by apply Forall_singleton.
Qed.

Lemma row_ok_inv n row :
  row_ok n row = true →
  (n = 1 ∧ ∃ z, row = [Num z]) ∨
  (∃ n' z s rest, n = S n' ∧ row = Num z :: Sym s :: rest ∧
                  (s = ">" ∨ s = "<" ∨ s = ".") ∧ row_ok n' rest = true).
Proof.
  destruct n as [|n]; [done|]. simpl.
  destruct row as [|[z|s] row]; [by destruct n|..|by destruct n].
  destruct row as [|[z'|s] rest].
  - destruct n; [|done]. intros _. left. eauto.
  - by destruct n.
  - intros H. right. exists n, z, s, rest.
    destruct n as [|n].
    + simpl in H. apply andb_true_iff in H as [_ H]. by destruct rest as [|[]?].
    + apply andb_true_iff in H as [H1%bool_decide_eq_true H2]. done.
Qed.

Lemma row_variables_ok full_domain i n row j csp_variables row_array :
  row_ok n row = true →
  ∃ csp_variables' row_array',
    row_variables full_domain i row true j csp_variables row_array
      = Some (csp_variables', row_array') ∧
    length row_array' = length row_array + n.
Proof.
  revert row j csp_variables row_array.
  induction n as [|n IH]; intros row j vs ra Hok; [done|].
  apply row_ok_inv in Hok as [[[= ->] [z ->]]|(n' & z & s & rest & [= <-] & -> & _ & Hrest)].
  - simpl. do 2 eexists. split; [done|]. rewrite length_app. simpl. lia.
  - simpl. destruct (IH rest (S j) (vs ++ [new_Variable ("V" +:+ pretty i +:+ "," +:+ pretty j)
        (if (z =? 0)%Z then full_domain else [z])]) (ra ++ [length vs]) Hrest)
      as (vs' & ra' & -> & Hlen).
    do 2 eexists. split; [done|]. rewrite length_app in Hlen. simpl in Hlen. lia.
Qed.


Lemma build_variables_ok b :
  board_ok b = true →
  ∃ csp_variables variable_array,
    build_variables b = Some (csp_variables, variable_array) ∧
    grid (length b) variable_array.
Proof.
  intros Hok. unfold board_ok in Hok. rewrite forallb_elem_of in Hok.
  unfold build_variables.
  set (full_domain := (λ i, (Z.of_nat i + 1)%Z) <$> range (length b)).
  set (n := length b) in *.
  assert (∀ rows k acc,
    (∀ row, row ∈ rows → row_ok n row = true) →
    Forall (λ row_array, length row_array = n) acc.2 →
    ∃ vs va,
      for_each (λ '(csp_variables, variable_array) '(i, row),
          '(csp_variables', row_array) ←
            row_variables full_domain i row true 0 csp_variables [];
          Some (csp_variables', variable_array ++ [row_array]))
        (zip (seq k (length rows)) rows) acc = Some (vs, va) ∧
      length va = length acc.2 + length rows ∧
      Forall (λ row_array, length row_array = n) va) as Hloop.
  { induction rows as [|row rows IH]; intros k [vs va] Hrows Hacc; simpl.
    - exists vs, va. split; [done|]. split; [lia|done].
    - destruct (row_variables_ok full_domain k n row 0 vs [] (Hrows row ltac:(left)))
        as (vs' & ra & -> & Hlen). simpl.
      destruct (IH (S k) (vs', va ++ [ra])) as (vs2 & va2 & -> & Hlen2 & Hall).
      + intros r Hr. apply Hrows. by right.
      + simpl. apply Forall_app. split; [done|]. by apply Forall_singleton.
      + exists vs2, va2. split; [done|]. split; [|done].
        simpl in Hlen2. rewrite length_app in Hlen2. simpl in Hlen2. lia. }
  destruct (Hloop b 0 ([], [])) as (vs & va & Hrun & Hlen & Hall); [done|constructor|].
  exists vs, va. split; [done|]. split; [done|done].
Qed.

Lemma cell_grid n variable_array i j :
  grid n variable_array → i < n → j < n → is_Some (cell variable_array i j).
Proof.
  intros [Hlen Hall] Hi Hj. unfold cell.
  destruct (lookup_lt_is_Some_2 variable_array i) as [row Hrow]; [lia|].
  rewrite Hrow. simpl. apply lookup_lt_is_Some_2.
  rewrite Forall_lookup in Hall. by rewrite (Hall i row Hrow).
Qed.

Lemma py_get_nonneg {A} (l : list A) j : (0 ≤ j)%Z → py_get l j = l !! Z.to_nat j.
Proof. intros Hj. unfold py_get. by rewrite (proj2 (Z.leb_le 0 j) Hj). Qed.

Lemma row_symbols_ok row_array n row j csp :
  row_ok n row = true → tags_known csp →
  (0 ≤ j + 1)%Z → Z.to_nat (j + 1) + n ≤ length row_array →
  ∃ csp', row_symbols row_array row false j csp = Some csp' ∧ tags_known csp'.
Proof.
  revert row j csp. induction n as [|n IH]; intros row j csp Hok Htags Hj Hlen; [done|].
  apply row_ok_inv in Hok as [[_ [z ->]]|(n' & z & s & rest & [= <-] & -> & Hs & Hrest)].
  - simpl. eauto.
  - simpl. assert (n ≠ 0) as Hn' by (intros ->; by destruct rest).
    case_decide as Hdot.
    + apply IH; [done|done|lia|lia].
    + rewrite !py_get_nonneg by lia.
      destruct (lookup_lt_is_Some_2 row_array (Z.to_nat (j + 1))) as [a ->]; [lia|].
      destruct (lookup_lt_is_Some_2 row_array (Z.to_nat (j + 1 + 1))) as [a' ->]; [lia|].
      simpl.
      destruct (emit_known csp s [a; a']) as (csp' & -> & Htags' & _); [| |done|].
      * destruct Hs as [-> | [-> | ->]]; [by left|by right; left|done].
      * simpl. lia.
      * simpl. apply IH; [done|done|lia|lia].
Qed.

Lemma board_symbols_ok b variable_array csp :
  board_ok b = true → grid (length b) variable_array → tags_known csp →
  ∃ csp', board_symbols b variable_array csp = Some csp' ∧ tags_known csp'.
Proof.
  intros Hok [Hlen Hall] Htags. unfold board_symbols.
  apply for_each_inv; [|done].
  intros csp1 [i row] Hin Htags1. apply elem_of_enumerate in Hin.
  destruct (lookup_lt_is_Some_2 variable_array i) as [ra Hra].
  { rewrite Hlen. by eapply lookup_lt_Some. }
  rewrite Hra. simpl. apply (row_symbols_ok ra (length b)); [|done|lia|].
  - unfold board_ok in Hok. rewrite forallb_elem_of in Hok. apply Hok.
    by eapply list_elem_of_lookup_2.
  - rewrite Forall_lookup in Hall. rewrite (Hall i ra Hra). simpl. lia.
Qed.

Lemma known_tag_switch name : known_tag name ↔ is_Some (switch name).
Proof.
  unfold switch, known_tag.
  destruct (decide (name = ">")) as [->|H1]; [split; [by eexists|by left]|].
  destruct (decide (name = "<")) as [->|H2]; [split; [by eexists|by right; left]|].
  destruct (decide (name = "not_equal")) as [->|H3];
    [split; [by eexists|by right; right; left]|].
  destruct (decide (name = "all_different")) as [->|H4];
    [split; [by eexists|by do 3 right]|].
  split; [intros [?|[?|[?|?]]]; done|by intros [? [=]]].
Qed.

(** The step for a loop of the encoders: its body keeps [tags_known] and
    does not raise. *)
Ltac for_each_tags csp' Htags' :=
  match goal with
  | |- context [for_each ?body ?l ?s] =>
      let Hrun := fresh "Hrun" in
      destruct (for_each_inv tags_known body l s) as (csp' & Hrun & Htags');
      [ | | rewrite Hrun; simpl ]
  end.

Lemma not_equal_pair_ok n variable_array csp i j i' j' :
  grid n variable_array → tags_known csp → i < n → j < n → i' < n → j' < n →
  ∃ csp', (a ← cell variable_array i j; b ← cell variable_array i' j';
           emit csp "not_equal" [a; b]) = Some csp' ∧ tags_known csp'.
Proof.
  intros Hgrid Htags ????.
  destruct (cell_grid _ variable_array i j Hgrid) as [a ->]; [lia..|].
  destruct (cell_grid _ variable_array i' j' Hgrid) as [a' ->]; [lia..|]. simpl.
  destruct (emit_known csp "not_equal" [a; a']) as (csp4 & -> & ? & _);
    [by right; right; left|simpl; lia|done|eauto].
Qed.

Lemma futoshiki_csp_model_1_ok b :
  board_ok b = true →
  ∃ csp variable_array,
    futoshiki_csp_model_1 b = Some (csp, variable_array) ∧ tags_known csp.
Proof.
  intros Hok.
  destruct (build_variables_ok b Hok) as (vs & va & Hbuild & Hgrid).
  unfold futoshiki_csp_model_1. rewrite Hbuild. simpl.
  for_each_tags csp1 Ht1.
  - intros csp [i row] Hin Htags. apply elem_of_enumerate, lookup_lt_Some in Hin.
    apply for_each_inv; [|done]. intros csp' cur_item Hcur Htags'.
    apply list_elem_of_In, in_seq in Hcur.
    for_each_tags csp2 Ht2.
    + intros csp3 j Hj Htags3. apply list_elem_of_In, in_seq in Hj.
      apply (not_equal_pair_ok (length b)); try done; lia.
    + done.
    + apply for_each_inv; [|done]. intros csp3 k Hk Htags3.
      apply list_elem_of_In, in_seq in Hk.
      apply (not_equal_pair_ok (length b)); try done; lia.
  - constructor.
  - destruct (board_symbols_ok b va csp1 Hok Hgrid Ht1) as (csp2 & -> & Ht2).
    simpl. eauto.
Qed.

Lemma futoshiki_csp_model_2_ok b :
  board_ok b = true →
  ∃ csp variable_array,
    futoshiki_csp_model_2 b = Some (csp, variable_array) ∧ tags_known csp.
Proof.
  intros Hok.
  destruct (build_variables_ok b Hok) as (vs & va & Hbuild & Hgrid).
  unfold futoshiki_csp_model_2. rewrite Hbuild. simpl.
  for_each_tags csp1 Ht1.
  - intros csp [i row] Hin Htags. apply elem_of_enumerate, lookup_lt_Some in Hin.
    destruct (lookup_lt_is_Some_2 va i) as [ra ->]; [destruct Hgrid; lia|]. simpl.
    destruct (emit_known csp "all_different" ra) as (csp4 & -> & ? & _);
      [by do 3 right|done|done|eauto].
  - constructor.
  - for_each_tags csp2 Ht2.
    + intros csp j Hj Htags. apply list_elem_of_In, in_seq in Hj.
      assert (is_Some (mapM (λ row : list nat, row !! j) va)) as [sc ->].
      { apply mapM_is_Some. destruct Hgrid as [_ Hall].
        eapply Forall_impl; [done|]. intros ra Hra. simpl in Hra.
        apply lookup_lt_is_Some_2. lia. }
      simpl. destruct (emit_known csp "all_different" sc) as (csp4 & -> & ? & _);
        [by do 3 right|done|done|eauto].
    + done.
    + destruct (board_symbols_ok b va csp2 Hok Hgrid Ht2) as (csp3 & -> & Ht3).
      simpl. eauto.
Qed.

(** C10, as amended. On a board in the input format, where every string
    between two cells is ['>'], ['<'] or ['.'], both encoders return a
    model, and every constraint of it carries one of the four operator
    tags, for which the lookup in [switch] yields a predicate: the
    materializer never takes the branch where the lookup misses. *)
Theorem encoders_tags_known b :
  board_ok b = true →
  ∃ csp1 variable_array1 csp2 variable_array2,
    futoshiki_csp_model_1 b = Some (csp1, variable_array1) ∧
    futoshiki_csp_model_2 b = Some (csp2, variable_array2) ∧
    Forall (λ c, known_tag (cname c) ∧ is_Some (switch (cname c))) (csp_cons csp1) ∧
    Forall (λ c, known_tag (cname c) ∧ is_Some (switch (cname c))) (csp_cons csp2).
Proof.
  intros Hok.
  destruct (futoshiki_csp_model_1_ok b Hok) as (csp1 & va1 & H1 & Ht1).
  destruct (futoshiki_csp_model_2_ok b Hok) as (csp2 & va2 & H2 & Ht2).
  assert (∀ csp, tags_known csp →
    Forall (λ c, known_tag (cname c) ∧ is_Some (switch (cname c))) (csp_cons csp)) as Hfin.
  { intros csp Htags. eapply Forall_impl; [done|]. intros c Hc. split; [done|].
    by apply known_tag_switch. }
  exists csp1, va1, csp2, va2. split; [done|]. split; [done|]. split; by apply Hfin.
Qed.

(** *** What GAC prunes *)

Lemma in_cur_domain_prune_other csp u x y :
  y ≠ x → y ∈ cur_domain (get_var csp u) →
  y ∈ cur_domain (get_var (prune_value csp u x) u).
Proof.
  intros Hne Hy. rewrite get_var_prune_value_eq. unfold cur_domain in *. simpl.
  destruct (assignedValue (get_var csp u)); [done|]. by apply list_elem_of_filter.
Qed.

(** Pruning distinct values of the current domain of [u], one after the
    other, assigned or not. *)
Lemma replay_distinct_values csp u l :
  NoDup l → (∀ x, x ∈ l → x ∈ cur_domain (get_var csp u)) →
  replay csp ((u,.) <$> l) = Some (prune_all csp ((u,.) <$> l)).
Proof.
  revert csp. induction l as [|x l IH]; intros csp Hnd Hin; [done|].
  apply NoDup_cons in Hnd as [Hx Hnd]. simpl.
  assert (in_cur_domain (get_var csp u) x = true) as ->.
  { apply in_cur_domain_true, Hin. left. }
  apply IH; [done|]. intros y Hy. apply in_cur_domain_prune_other.
  - by intros ->.
  - apply Hin. by right.
Qed.

Lemma NoDup_cur_domain csp v :
  (∀ w, NoDup (curdom (get_var csp w))) → NoDup (cur_domain (get_var csp v)).
Proof.
  intros Hnd. unfold cur_domain. destruct (assignedValue (get_var csp v)); [|apply Hnd].
  apply NoDup_singleton.
Qed.

Lemma gac_loop_replay fuel csp q b l csp' :
  (∀ w, NoDup (curdom (get_var csp w))) →
  gac_loop fuel csp q [] = Some (b, l, csp') → replay csp l = Some csp'.
Proof.
  revert csp q l. induction fuel as [|fuel IH]; intros csp q l Hnd.
  - destruct q as [|[??]?]; [|done]. by intros [= <- <- <-].
  - destruct q as [|[var c] q]; [by intros [= <- <- <-]|]. simpl.
    destruct (gac_iteration csp var c q []) as [[csp1 p1]|[[csp1 q1] p1]] eqn:Hit.
    + intros [= <- <- <-]. unfold gac_iteration in Hit.
      destruct (gac_values _ _ _ _ _ _) as [[csp2 p2]|[[? ?] ?]] eqn:Hv; [|done].
      injection Hit as -> ->.
      apply gac_values_inl in Hv as (l1 & _ & Hpre & -> & -> & _). simpl.
      assert (NoDup (unsupported csp c var (cur_domain (get_var csp var)))) as HU.
      { apply NoDup_filter. by apply NoDup_cur_domain. }
      destruct Hpre as [l2 Hl2]. rewrite Hl2 in HU. apply NoDup_app in HU as (HU & _ & _).
      apply replay_distinct_values; [done|]. intros x Hx.
      assert (x ∈ unsupported csp c var (cur_domain (get_var csp var))) as Hx2.
      { rewrite Hl2. apply elem_of_app. by left. }
      by apply unsupported_elem in Hx2 as [? _].
    + intros Hloop. apply gac_iteration_inr in Hit as (-> & -> & _ & _).
      apply gac_loop_from_nil in Hloop as (l1 & -> & Hloop). simpl.
      rewrite replay_app, replay_distinct_values.
      * simpl. eapply IH; [|done]. by apply curdom_nodup_prune_all.
      * apply NoDup_filter. by apply NoDup_cur_domain.
      * intros x Hx. by apply unsupported_elem in Hx as [? _].
Qed.

(** X22. The prune list of GAC replays on the model the call started from,
    each value still in the current domain of its variable at its turn,
    and leads to the model the call leaves; the pairs of unassigned
    variables are listed once. *)
Lemma prop_GAC_prunings_replay fuel csp newVar b pruned csp' :
  domains_nodup csp →
  prop_GAC fuel csp newVar = Some (b, pruned, csp') →
  replay csp pruned = Some csp' ∧
  (prunes_unassigned csp pruned → NoDup pruned).
Proof.
  intros Hnd Hrun.
  assert (replay csp pruned = Some csp') as Hrep.
  { eapply gac_loop_replay; [|done]. by apply domains_nodup_get. }
  split; [done|]. intros Hun. eapply replay_NoDup; [done|].
  unfold prunes_unassigned in Hun. rewrite Forall_forall in Hun. done.
Qed.

(** *** Counterexamples to the fixed point *)

(** C3, counterexample. After a successful call for a newly assigned
    corner of the 3x3 board, a call without a newly assigned variable still
    prunes; and on a model that a failed call left behind, a successful call
    that pruned the value of an assigned variable prunes it again when
    repeated. *)
Lemma prop_GAC_not_idempotent :
  ¬ gac_fixed_point_after_any_call ∧
  (∃ csp', prop_GAC 20 gac_unrestored_model (Some 0)
             = Some (true, [(0, 1%Z); (2, 1%Z); (3, 2%Z)], csp') ∧
           prop_GAC 20 csp' (Some 0) = Some (true, [(0, 1%Z)], csp')).
Proof.
  split.
  - intros H.
    destruct (H 20 gac_corner_model (Some 8)
                [(2, 1%Z); (5, 1%Z); (6, 1%Z); (7, 1%Z)]
                (prune_all gac_corner_model [(2, 1%Z); (5, 1%Z); (6, 1%Z); (7, 1%Z)]))
      as [fuel' Hfix]; [vm_compute; reflexivity|].
    assert (prop_GAC 50 (prune_all gac_corner_model
                           [(2, 1%Z); (5, 1%Z); (6, 1%Z); (7, 1%Z)]) None =
            Some (true, [(0, 3%Z); (1, 1%Z)],
                  prune_all gac_corner_model
                    [(2, 1%Z); (5, 1%Z); (6, 1%Z); (7, 1%Z); (0, 3%Z); (1, 1%Z)]))
      as Hrun by (vm_compute; reflexivity).
    pose proof (gac_loop_deterministic _ _ _ _ _ _ _ Hfix Hrun) as Heq. discriminate Heq.
  - exists (prune_all gac_unrestored_model [(0, 1%Z); (2, 1%Z); (3, 2%Z)]).
    split; vm_compute; reflexivity.
Qed.

(** *** The theorems at work on the example models *)

(** A decidable statement about an example, by evaluation. *)
Ltac by_evaluation :=
  match goal with |- ?P => apply (bool_decide_unpack P); vm_compute; exact I end.

(** C2 at work on the unsolvable board. *)
Lemma prop_BT_prop_FC_spare_assigned_values_witness :
  prop_FC gac_assigned_model (Some 0) =
    (false, [(1, 1%Z)], prune_all gac_assigned_model [(1, 1%Z)]) ∧
  get_assigned_value (get_var gac_assigned_model 1) ≠ Some 1%Z.
Proof.
  split; [vm_compute; reflexivity|].
  destruct prop_BT_prop_FC_spare_assigned_values as [_ Hfc].
  apply (Hfc gac_assigned_model (Some 0) false [(1, 1%Z)]
           (prune_all gac_assigned_model [(1, 1%Z)]) 1 1%Z).
  - vm_compute. reflexivity.
  - left.
Defined.

(** C3 at work: in a search on the 3x3 board, the call for an assigned
    corner, then the same call again and the call for all constraints. *)
Lemma prop_GAC_idempotent_witness :
  let pruned := [(2, 1%Z); (5, 1%Z); (6, 1%Z); (7, 1%Z)] in
  let csp' := prune_all gac_search_3x3 pruned in
  prop_GAC 20 gac_search_3x3 (Some 8) = Some (true, pruned, csp') ∧
  prop_GAC 20 csp' (Some 8) = Some (true, [], csp') ∧
  prop_GAC 40 csp' None = Some (true, [], csp').
Proof.
  intros pruned csp'.
  assert (prop_GAC 20 gac_search_3x3 (Some 8) = Some (true, pruned, csp'))
    as Hrun by (vm_compute; reflexivity).
  assert (prunes_unassigned gac_search_3x3 pruned) as Hun by by_evaluation.
  destruct (prop_GAC_idempotent 20 gac_search_3x3 (Some 8) pruned csp' Hrun Hun)
    as [Hsame Hall].
  split; [done|]. split.
  - apply Hsame. vm_compute. lia.
  - apply Hall; [by_evaluation|]. vm_compute. lia.
Defined.

(** C7 at work on the inequality of the 2x2 board. *)
Lemma check_constraint_add_tuples_spec_witness :
  check_constraint_add_tuples (csp_vars model_2x2) (new_Constraint "<" [0; 1]) =
    Some {| cname := "<"; scope := [0; 1]; sat_tuples := [[1; 2]%Z] |}.
Proof.
  destruct (check_constraint_add_tuples_spec (csp_vars model_2x2)
              (new_Constraint "<" [0; 1])) as (Hrun & _ & _).
  - right. left. reflexivity.
  - intros _. simpl. lia.
  - rewrite Hrun. vm_compute. reflexivity.
Defined.

(** X26 at work on the unsolvable board with its first cell assigned. *)
Lemma prop_GAC_terminates_witness :
  ∃ fuel r, prop_GAC fuel gac_assigned_model (Some 0) = Some r.
Proof.
  apply (prop_GAC_terminates gac_assigned_model (Some 0)); by_evaluation.
Defined.

(** C10 at work on the 2x2 board. *)
Lemma encoders_tags_known_witness :
  ∃ csp1 variable_array1 csp2 variable_array2,
    futoshiki_csp_model_1 board_2x2 = Some (csp1, variable_array1) ∧
    futoshiki_csp_model_2 board_2x2 = Some (csp2, variable_array2) ∧
    Forall (λ c, known_tag (cname c) ∧ is_Some (switch (cname c))) (csp_cons csp1) ∧
    Forall (λ c, known_tag (cname c) ∧ is_Some (switch (cname c))) (csp_cons csp2).
Proof. apply (encoders_tags_known board_2x2). reflexivity. Defined.

(** *** The worklist of GAC, from the seed to the verdict *)

Lemma gac_loop_ends fuel csp q pruned r :
  gac_loop fuel csp q pruned = Some r → ∃ n, n ≤ fuel ∧ gac_ends n csp q pruned r.
Proof.
  revert csp q pruned. induction fuel as [|fuel IH]; intros csp q pruned.
  { destruct q as [|[??]?]; [|done]. intros [= <-]. exists 0. split; [done|].
    left. by eexists _, _. }
  destruct q as [|[var c] q].
  { intros [= <-]. exists 0. split; [lia|]. left. by eexists _, _. }
  simpl. destruct (gac_iteration csp var c q pruned) as [[csp1 p1]|[[csp1 q1] p1]] eqn:Hit.
  - intros [= <-]. exists 1. split; [lia|]. right.
    by exists 0, csp, var, c, q, pruned, csp1, p1.
  - intros Hloop. destruct (IH _ _ _ Hloop) as (n & Hn & Hends).
    exists (S n). split; [lia|].
    destruct Hends as [(csp' & p' & Hsteps & ->)
                      |(m & csp2 & v2 & c2 & q2 & p2 & csp' & p' & -> & Hsteps & Hit2 & ->)].
    + left. exists csp', p'. split; [|done]. simpl. by rewrite Hit.
    + right. exists (S m), csp2, v2, c2, q2, p2, csp', p'.
      split; [done|]. split; [|done]. simpl. by rewrite Hit.
Qed.

Lemma gac_ends_loop n fuel csp q pruned r :
  gac_ends n csp q pruned r → n ≤ fuel → gac_loop fuel csp q pruned = Some r.
Proof.
  intros [(csp' & p' & Hsteps & ->)
         |(m & csp1 & var & c & q1 & p1 & csp' & p' & -> & Hsteps & Hit & ->)] Hn.
  - replace fuel with (n + (fuel - n)) by lia.
    rewrite (gac_loop_steps _ _ _ _ _ _ _ _ Hsteps). by destruct (fuel - n).
  - replace fuel with (m + S (fuel - S m)) by lia.
    rewrite (gac_loop_steps _ _ _ _ _ _ _ _ Hsteps). simpl. by rewrite Hit.
Qed.

Lemma gac_steps_NoDup n csp q pruned csp1 q1 p1 :
  NoDup q → gac_steps n csp q pruned = Some (csp1, q1, p1) → NoDup q1.
Proof.
  revert csp q pruned. induction n as [|n IH]; intros csp q pruned Hnd; simpl.
  { by intros [= <- <- <-]. }
  destruct q as [|[var c] q]; [done|].
  destruct (gac_iteration csp var c q pruned) as [|[[csp2 q2] p2]] eqn:Hit; [done|].
  apply IH. apply gac_iteration_inr in Hit as (_ & _ & -> & _).
  apply NoDup_cons in Hnd as [_ Hnd]. case_bool_decide; [|done].
  by apply add_new_all.
Qed.

Lemma gac_steps_prune_all n csp q pruned csp1 q1 p1 :
  gac_steps n csp q pruned = Some (csp1, q1, p1) → ∃ l, csp1 = prune_all csp l.
Proof.
  revert csp q pruned. induction n as [|n IH]; intros csp q pruned; simpl.
  { intros [= <- <- <-]. by exists []. }
  destruct q as [|[var c] q]; [done|].
  destruct (gac_iteration csp var c q pruned) as [|[[csp2 q2] p2]] eqn:Hit; [done|].
  apply gac_iteration_inr in Hit as (-> & _). intros Hsteps.
  apply IH in Hsteps as (l & ->). eexists. by rewrite <- prune_all_app.
Qed.

(** C4, as amended. With scopes that list no variable twice, a call of
    [prop_GAC] processes its worklist front to back: the call returns a
    result exactly when the iterations that pop the head of the worklist,
    one after the other from the seed, leave the worklist empty (success)
    or empty a domain (failure), and the result is the one reached then.
    At every iteration the worklist holds no pair twice.  When processing
    the popped pair [(var, c)] prunes nothing, the worklist is the rest;
    when it prunes a value without emptying the domain, the rest stays in
    front, in its order, and is followed by the pairs [(u, c')] not yet
    pending, for every constraint [c'] over [var], the popped constraint
    [c] included, and every variable [u] of its scope other than [var]. *)
Theorem gac_worklist_discipline csp newVar :
  scopes_nodup csp →
  let seed := gac_seed csp (constraints_of csp newVar) in
  (∀ fuel r, prop_GAC fuel csp newVar = Some r ↔
             ∃ n, n ≤ fuel ∧ gac_ends n csp seed [] r) ∧
  (∀ n csp1 var c q p1,
     gac_steps n csp seed [] = Some (csp1, (var, c) :: q, p1) →
     NoDup ((var, c) :: q) ∧
     ∀ csp' q' pruned',
       gac_iteration csp1 var c q p1 = inr (csp', q', pruned') →
       gac_steps (S n) csp seed [] = Some (csp', q', pruned') ∧
       (pruned' = p1 → q' = q) ∧
       (pruned' ≠ p1 →
        q `prefix_of` q' ∧ NoDup q' ∧
        ∀ u c', (u, c') ∈ q' ↔
                (u, c') ∈ q ∨
                (c' ∈ get_cons_with_var csp var ∧ u ∈ get_scope csp c' ∧ u ≠ var))).
Proof.
  intros Hsc seed. split.
  - intros fuel r. unfold prop_GAC. fold seed. split.
    + apply gac_loop_ends.
    + intros (n & Hn & Hends). by eapply gac_ends_loop.
  - intros n csp1 var c q p1 Hsteps.
    assert (NoDup seed) as Hseed.
    { apply NoDup_gac_seed; [by apply scopes_nodup_get|apply NoDup_constraints_of]. }
    pose proof (gac_steps_NoDup _ _ _ _ _ _ _ Hseed Hsteps) as Hnd.
    split; [done|]. intros csp' q' pruned' Hit.
    split.
    { replace (S n) with (n + 1) by lia. rewrite gac_steps_add, Hsteps. simpl.
      by rewrite Hit. }
    destruct (gac_steps_prune_all _ _ _ _ _ _ _ Hsteps) as (l & ->).
    apply gac_iteration_inr in Hit as (-> & -> & -> & _).
    apply NoDup_cons in Hnd as [_ Hnd].
    case_bool_decide as HU.
    + split.
      { intros Heq. exfalso. apply HU.
        rewrite <- (app_nil_r p1) in Heq at 2. apply app_inv_head in Heq.
        by apply fmap_nil_inv in Heq. }
      intros _.
      destruct (add_new_all q (enqueue_candidates (prune_all csp l) var))
        as (Hpre & Hin & Hnd').
      split; [done|]. split; [by apply Hnd'|].
      intros u c'. rewrite Hin, elem_of_enqueue_candidates.
      by autorewrite with prune_all.
    + split; [done|]. intros Hne. exfalso. apply Hne. rewrite HU. simpl.
      by rewrite app_nil_r.
Qed.

(** C4, counterexample. In the call of [prop_GAC] before any assignment
    on the 2x2 board, the tenth iteration pops the pair of the second cell
    and the inequality and prunes a value; it puts the pair of the first
    cell and the inequality, the popped constraint itself, on the
    worklist. *)
Lemma gac_enqueues_popped_constraint : ¬ enqueues_for_other_constraints.
Proof.
  intros H.
  specialize (H model_2x2 None 9 (prune_all model_2x2 [(0, 2%Z)]) 1 4
                [(1, 0); (2, 1)] [(0, 2%Z)]
                (prune_all model_2x2 [(0, 2%Z); (1, 1%Z)])
                [(1, 0); (2, 1); (0, 0); (3, 2); (0, 4)] [(0, 2%Z); (1, 1%Z)]).
  destruct (H ltac:(vm_compute; reflexivity) ltac:(vm_compute; reflexivity)
              ltac:(discriminate) 0 4) as [Hin _].
  destruct Hin as [Hin|(_ & Hne & _)]; [by_evaluation| |done].
  revert Hin. by_evaluation.
Qed.

(** C4 at work on the 2x2 board: the whole call, and its tenth
    iteration. *)
Lemma gac_worklist_discipline_witness :
  let pruned := [(0, 2%Z); (1, 1%Z); (2, 1%Z); (3, 2%Z)] in
  prop_GAC 19 model_2x2 None = Some (true, pruned, prune_all model_2x2 pruned) ∧
  NoDup [(1, 4); (1, 0); (2, 1)] ∧
  gac_steps 10 model_2x2 (gac_seed model_2x2 (constraints_of model_2x2 None)) []
    = Some (prune_all model_2x2 [(0, 2%Z); (1, 1%Z)],
            [(1, 0); (2, 1); (0, 0); (3, 2); (0, 4)], [(0, 2%Z); (1, 1%Z)]) ∧
  [(1, 0); (2, 1)] `prefix_of` [(1, 0); (2, 1); (0, 0); (3, 2); (0, 4)] ∧
  NoDup [(1, 0); (2, 1); (0, 0); (3, 2); (0, 4)].
Proof.
  intros pruned.
  destruct (gac_worklist_discipline model_2x2 None) as [Hrun Hstep]; [by_evaluation|].
  split.
  { apply Hrun. exists 19. split; [lia|]. left. eexists _, _.
    split; [vm_compute; reflexivity|reflexivity]. }
  destruct (Hstep 9 (prune_all model_2x2 [(0, 2%Z)]) 1 4 [(1, 0); (2, 1)] [(0, 2%Z)])
    as [Hnd Hnext]; [vm_compute; reflexivity|].
  split; [exact Hnd|].
  destruct (Hnext (prune_all model_2x2 [(0, 2%Z); (1, 1%Z)])
              [(1, 0); (2, 1); (0, 0); (3, 2); (0, 4)] [(0, 2%Z); (1, 1%Z)])
    as (Hsteps & _ & Hnew); [vm_compute; reflexivity|].
  split; [exact Hsteps|].
  destruct Hnew as (Hpre & Hnd' & _); [discriminate|]. done.
Defined.

(** *** A string between two cells that is no operator *)

(** C10, counterexample. On a board of the right shape with ['=']
    between two cells, the inequality loop of either encoder makes a
    constraint with the tag ['='], the lookup in [switch] misses, and the
    materializer, and with it the encoder, raises. *)
Lemma encoders_reach_missing_tag :
  board_shape board_unknown_symbol = true ∧
  switch "=" = None ∧
  check_constraint_add_tuples (board_variables board_unknown_symbol)
    (new_Constraint "=" [0; 1]) = None ∧
  futoshiki_csp_model_1 board_unknown_symbol = None ∧
  futoshiki_csp_model_2 board_unknown_symbol = None.
Proof. repeat split; vm_compute; reflexivity. Qed.

(** *** The propagators keep the solutions *)

Lemma get_con_elem csp c : c ∈ get_all_cons csp → get_con csp c ∈ csp_cons csp.
Proof.
  unfold get_all_cons, get_con. intros Hc. apply elem_of_seq in Hc as [_ Hc].
  simpl in Hc. destruct (lookup_lt_is_Some_2 (csp_cons csp) c Hc) as [x Hx].
  rewrite (list_lookup_total_correct _ _ _ Hx). by eapply list_elem_of_lookup_2.
Qed.

Lemma solution_con csp σ c :
  solution csp σ → c ∈ get_all_cons csp →
  (∀ v, v ∈ get_scope csp c → σ !!! v ∈ cur_domain (get_var csp v)) ∧
  (σ !!!.) <$> get_scope csp c ∈ sat_tuples (get_con csp c).
Proof.
  intros Hsol Hc. unfold solution in Hsol. rewrite Forall_forall in Hsol.
  destruct (Hsol _ (get_con_elem _ _ Hc)) as [Hdom Hsat].
  rewrite Forall_forall in Hdom. done.
Qed.

Lemma solution_has_support csp σ c v :
  solution csp σ → c ∈ get_all_cons csp → v ∈ get_scope csp c →
  has_support csp c v (σ !!! v) = true.
Proof.
  intros Hsol Hc Hv. destruct (solution_con _ _ _ Hsol Hc) as [Hdom Hsat].
  apply has_support_true. exists ((σ !!!.) <$> get_scope csp c).
  split; [done|]. split.
  - apply list_elem_of_lookup_1 in Hv as [i Hi]. apply elem_of_zip_lookup.
    exists i. split; [done|]. by rewrite list_lookup_fmap, Hi.
  - intros w y Hwy _. apply elem_of_zip_lookup in Hwy as (i & Hw & Hy).
    rewrite list_lookup_fmap, Hw in Hy. injection Hy as <-.
    apply Hdom. by eapply list_elem_of_lookup_2.
Qed.

Lemma cur_domain_prune_value_keeps csp v x w y :
  y ∈ cur_domain (get_var csp w) → (w = v → y ≠ x) →
  y ∈ cur_domain (get_var (prune_value csp v x) w).
Proof.
  intros Hy Hne. rewrite get_var_prune_value. case_decide as Hw; [|done].
  unfold cur_domain in *. simpl.
  destruct (assignedValue (get_var csp w)); [done|].
  apply list_elem_of_filter. split; [by apply Hne|done].
Qed.

Lemma cur_domain_prune_all_keeps csp l w y :
  y ∈ cur_domain (get_var csp w) → (∀ x, (w, x) ∈ l → y ≠ x) →
  y ∈ cur_domain (get_var (prune_all csp l) w).
Proof.
  revert csp. induction l as [|[v x] l IH]; intros csp Hy Hne; [done|].
  simpl. apply IH.
  - apply cur_domain_prune_value_keeps; [done|]. intros ->. apply Hne. left.
  - intros x' Hx'. apply Hne. by right.
Qed.

Lemma solution_prune_all csp σ l :
  solution csp σ → (∀ p, p ∈ l → σ !!! p.1 ≠ p.2) →
  solution (prune_all csp l) σ.
Proof.
  unfold solution. intros Hsol Hl. rewrite cons_prune_all.
  eapply Forall_impl; [exact Hsol|]. intros c [Hdom Hsat]. split; [|done].
  eapply Forall_impl; [exact Hdom|]. intros v Hv. simpl in *.
  apply cur_domain_prune_all_keeps; [done|]. intros x Hx. by apply (Hl (v, x)).
Qed.

(** A solution is an assignment that extends the one made so far. *)
Lemma solution_assigned csp σ c t :
  solution csp σ → c ∈ get_all_cons csp → assigned_tuple csp c t →
  t = (σ !!!.) <$> get_scope csp c.
Proof.
  intros Hsol Hc Hat. destruct (solution_con _ _ _ Hsol Hc) as [Hdom _].
  unfold assigned_tuple in Hat. revert Hdom.
  induction Hat as [|v x sc t Hv Hat IH]; intros Hdom; [done|].
  csimpl. f_equal.
  - specialize (Hdom v ltac:(left)). unfold cur_domain, get_assigned_value in *.
    rewrite Hv in Hdom. by apply list_elem_of_singleton in Hdom.
  - apply IH. intros w Hw. apply Hdom. by right.
Qed.

(** X10. [prop_BT] never reports a dead end on a model that has a
    solution within the current domains. *)
Theorem prop_BT_accepts_solution csp σ newVar :
  solution csp σ → (prop_BT csp newVar).1.1 = true.
Proof.
  intros Hsol. destruct newVar as [v|]; [|done]. simpl.
  destruct (bt_loop csp (get_cons_with_var csp v)).1 eqn:Hb; [done|].
  apply bt_loop_spec in Hb as (c & t & Hc & Hat & Hnot).
  apply elem_of_get_cons_with_var in Hc as [Hc _].
  rewrite (solution_assigned _ _ _ _ Hsol Hc Hat) in Hnot.
  by destruct (solution_con _ _ _ Hsol Hc) as [_ Hsat].
Qed.

(** *** Forward checking: what a call prunes and what it leaves *)

(** One turn of the loop over the constraints. *)
Lemma fc_loop_cons csp c rest pruned :
  (get_n_unasgn csp c ≠ 1 ∧ fc_loop csp (c :: rest) pruned = fc_loop csp rest pruned) ∨
  (∃ u, get_n_unasgn csp c = 1 ∧ u ∈ get_scope csp c ∧
        get_assigned_value (get_var csp u) = None ∧
        (∀ u', u' ∈ get_scope csp c →
               get_assigned_value (get_var csp u') = None → u' = u) ∧
        fc_loop csp (c :: rest) pruned =
          let csp1 := prune_all csp ((u,.) <$> fc_failing csp c u) in
          let pruned1 := pruned ++ ((u,.) <$> fc_failing csp c u) in
          if decide (cur_domain (get_var csp1 u) = []) then (false, pruned1, csp1)
          else fc_loop csp1 rest pruned1).
Proof.
  simpl. case_decide as Hone; [right|by left].
  destruct (one_unassigned _ _ Hone) as (j & u & Hj & Hu & Huniq).
  assert (u ∈ get_scope csp c) as Hin by (by eapply list_elem_of_lookup_2).
  exists u. repeat split; [done..| |].
  - intros u' Hu' Hnone. apply list_elem_of_lookup in Hu' as [i Hi].
    pose proof (Huniq _ _ Hi Hnone) as ->. congruence.
  - rewrite (fc_constraint_spec csp c pruned u) by done. simpl.
    destruct (cur_domain (get_var (prune_all csp ((u,.) <$> fc_failing csp c u)) u));
      simpl; by repeat case_decide.
Qed.

Lemma fc_tuple_prune_all csp l c u val :
  fc_tuple (prune_all csp l) c u val = fc_tuple csp c u val.
Proof.
  unfold fc_tuple. autorewrite with prune_all. apply list_fmap_ext.
  intros i v _. by autorewrite with prune_all.
Qed.

Lemma fc_failing_elem csp c u val :
  val ∈ fc_failing csp c u ↔
  val ∈ cur_domain (get_var csp u) ∧ fc_tuple csp c u val ∉ sat_tuples (get_con csp c).
Proof.
  unfold fc_failing. rewrite list_elem_of_filter, check_false. tauto.
Qed.

(** The model a call leaves is the one it got with some values pruned. *)
Lemma fc_loop_prune_all csp cs pruned0 b pruned csp' :
  fc_loop csp cs pruned0 = (b, pruned, csp') →
  ∃ l, pruned = pruned0 ++ l ∧ csp' = prune_all csp l.
Proof.
  revert csp pruned0. induction cs as [|c cs IH]; intros csp pruned0.
  - intros [= <- <- <-]. exists []. by rewrite app_nil_r.
  - destruct (fc_loop_cons csp c cs pruned0) as [[_ ->]|(u & _ & _ & _ & _ & ->)];
      [by apply IH|]. simpl.
    case_decide.
    + intros [= <- <- <-]. by eexists.
    + intros Hrun. apply IH in Hrun as (l & -> & ->).
      exists (((u,.) <$> fc_failing csp c u) ++ l).
      by rewrite prune_all_app, app_assoc.
Qed.

(** Every pruning of the loop is of a value that fails the check of one of
    the constraints, together with the assigned values. *)
Lemma fc_loop_justified csp cs pruned0 b pruned csp' p :
  fc_loop csp cs pruned0 = (b, pruned, csp') → p ∈ pruned →
  p ∈ pruned0 ∨
  ∃ c, c ∈ cs ∧ get_n_unasgn csp c = 1 ∧ p.1 ∈ get_scope csp c ∧
       get_assigned_value (get_var csp p.1) = None ∧
       p.2 ∈ cur_domain (get_var csp p.1) ∧
       fc_tuple csp c p.1 p.2 ∉ sat_tuples (get_con csp c).
Proof.
  revert csp pruned0. induction cs as [|c cs IH]; intros csp pruned0.
  - intros [= <- <- <-]. by left.
  - destruct (fc_loop_cons csp c cs pruned0) as [[_ ->]|(u & Hone & Hu & Hnone & _ & ->)].
    { intros Hrun Hp. destruct (IH _ _ Hrun Hp) as [?|(c' & ? & ?)]; [by left|right].
      exists c'. split; [by right|done]. }
    simpl.
    assert (p ∈ pruned0 ++ ((u,.) <$> fc_failing csp c u) →
            p ∈ pruned0 ∨
            ∃ c0, c0 ∈ c :: cs ∧ get_n_unasgn csp c0 = 1 ∧ p.1 ∈ get_scope csp c0 ∧
                  get_assigned_value (get_var csp p.1) = None ∧
                  p.2 ∈ cur_domain (get_var csp p.1) ∧
                  fc_tuple csp c0 p.1 p.2 ∉ sat_tuples (get_con csp c0)) as Hhere.
    { intros [Hp|Hp]%elem_of_app; [by left|right].
      apply list_elem_of_fmap in Hp as (x & -> & Hx). simpl.
      apply fc_failing_elem in Hx as [Hx Hnot].
      exists c. split; [left|done]. }
    case_decide.
    + intros [= <- <- <-]. done.
    + intros Hrun Hp. destruct (IH _ _ Hrun Hp) as [Hp0|(c' & Hc' & Hj)]; [by apply Hhere|].
      right. exists c'. split; [by right|].
      revert Hj. rewrite fc_tuple_prune_all. autorewrite with prune_all.
      intros (? & ? & ? & Hd & ?). repeat split; try done.
      by eapply cur_domain_prune_all_subset.
Qed.

(** X11. Every pruning [prop_FC] lists is justified by a constraint of the
    call: the constraint has the pruned variable as its one unassigned
    variable, the value was in the current domain of the variable, and the
    tuple of that value and the assigned values of the others is not in the
    satisfying set. *)
Theorem prop_FC_prunes_justified csp newVar b pruned csp' v x :
  prop_FC csp newVar = (b, pruned, csp') → (v, x) ∈ pruned →
  ∃ c, c ∈ constraints_of csp newVar ∧ get_n_unasgn csp c = 1 ∧
       v ∈ get_scope csp c ∧ get_assigned_value (get_var csp v) = None ∧
       x ∈ cur_domain (get_var csp v) ∧
       fc_tuple csp c v x ∉ sat_tuples (get_con csp c).
Proof.
  intros Hrun Hp.
  destruct (fc_loop_justified _ _ _ _ _ _ _ Hrun Hp) as [Hnil|H]; [|done].
  by apply elem_of_nil in Hnil.
Qed.

(** With one variable of the constraint left, the tuple forward checking
    tests for the value of a solution is the tuple of the solution. *)
Lemma fc_tuple_solution csp σ c u :
  solution csp σ → c ∈ get_all_cons csp →
  (∀ u', u' ∈ get_scope csp c →
         get_assigned_value (get_var csp u') = None → u' = u) →
  fc_tuple csp c u (σ !!! u) = (σ !!!.) <$> get_scope csp c.
Proof.
  intros Hsol Hc Huniq. destruct (solution_con _ _ _ Hsol Hc) as [Hdom _].
  unfold fc_tuple. apply list_fmap_ext. intros i v Hv.
  case_decide as Hvu; [by subst|].
  apply list_elem_of_lookup_2 in Hv. specialize (Hdom v Hv).
  unfold cur_domain, get_assigned_value in *.
  destruct (assignedValue (get_var csp v)) as [a|] eqn:Ha.
  - apply list_elem_of_singleton in Hdom. by rewrite Hdom.
  - destruct Hvu. by apply Huniq.
Qed.

Lemma constraints_of_all csp newVar c :
  c ∈ constraints_of csp newVar → c ∈ get_all_cons csp.
Proof.
  destruct newVar as [v|]; simpl; [|done].
  by intros [? _]%elem_of_get_cons_with_var.
Qed.

Lemma fc_loop_solution csp σ cs pruned0 b pruned csp' :
  solution csp σ → (∀ c, c ∈ cs → c ∈ get_all_cons csp) →
  fc_loop csp cs pruned0 = (b, pruned, csp') →
  b = true ∧ solution csp' σ.
Proof.
  revert csp pruned0. induction cs as [|c cs IH]; intros csp pruned0 Hsol Hcs.
  - intros [= <- <- <-]. done.
  - assert (∀ c0, c0 ∈ cs → c0 ∈ get_all_cons csp) as Hcs' by (intros; apply Hcs; by right).
    assert (c ∈ get_all_cons csp) as Hc by (apply Hcs; left).
    destruct (fc_loop_cons csp c cs pruned0) as [[_ ->]|(u & Hone & Hu & Hnone & Huniq & ->)];
      [by apply IH|]. simpl.
    assert (solution (prune_all csp ((u,.) <$> fc_failing csp c u)) σ) as Hsol1.
    { apply solution_prune_all; [done|]. intros p Hp Heq.
      apply list_elem_of_fmap in Hp as (x & -> & Hx). simpl in Heq. subst x.
      apply fc_failing_elem in Hx as [_ Hnot]. apply Hnot.
      rewrite (fc_tuple_solution csp σ c u) by done.
      by destruct (solution_con _ _ _ Hsol Hc) as [_ Hsat]. }
    case_decide as Hwipe.
    + exfalso.
      assert (c ∈ get_all_cons (prune_all csp ((u,.) <$> fc_failing csp c u))) as Hc1
        by (by autorewrite with prune_all).
      destruct (solution_con _ _ _ Hsol1 Hc1) as [Hdom _].
      specialize (Hdom u). autorewrite with prune_all in Hdom.
      specialize (Hdom Hu). rewrite Hwipe in Hdom. by apply elem_of_nil in Hdom.
    + apply IH; [done|]. intros c0 Hc0. autorewrite with prune_all. by apply Hcs'.
Qed.

(** X12. [prop_FC] keeps every solution: on a model with a solution
    within the current domains it reports success, the solution is still
    within the current domains afterwards, and no listed pruning is of a
    value of the solution. *)
Theorem prop_FC_keeps_solution csp σ newVar b pruned csp' :
  solution csp σ → prop_FC csp newVar = (b, pruned, csp') →
  b = true ∧ solution csp' σ ∧ Forall (λ p, σ !!! p.1 ≠ p.2) pruned.
Proof.
  intros Hsol Hrun.
  destruct (fc_loop_solution csp σ _ _ _ _ _ Hsol (constraints_of_all csp newVar) Hrun)
    as [-> Hsol'].
  split; [done|]. split; [done|].
  apply Forall_forall. intros [v x] Hp Heq. simpl in Heq. subst x.
  destruct (fc_loop_justified _ _ _ _ _ _ _ Hrun Hp)
    as [Hnil|(c & Hc & Hone & Hv & Hnone & _ & Hnot)]; [by apply elem_of_nil in Hnil|].
  simpl in *. apply constraints_of_all in Hc.
  destruct (fc_loop_cons csp c [] []) as [[Hne _]|(u & _ & Hu & Hnone' & Huniq & _)];
    [done|].
  assert (v = u) as -> by (by apply Huniq).
  rewrite (fc_tuple_solution csp σ c u) in Hnot by done.
  by destruct (solution_con _ _ _ Hsol Hc) as [_ Hsat].
Qed.

(** *** Forward checking: the verdict *)

Lemma forward_checked_prune_all csp l c :
  forward_checked csp c → forward_checked (prune_all csp l) c.
Proof.
  intros Hfc u val. rewrite fc_tuple_prune_all. autorewrite with prune_all.
  intros Hu Hnone Hval. apply Hfc; [done..|]. by eapply cur_domain_prune_all_subset.
Qed.

(** A call that succeeds empties no current domain. *)
Lemma fc_loop_keeps_nonempty csp cs pruned0 pruned csp' u :
  fc_loop csp cs pruned0 = (true, pruned, csp') →
  cur_domain (get_var csp u) ≠ [] → cur_domain (get_var csp' u) ≠ [].
Proof.
  revert csp pruned0. induction cs as [|c cs IH]; intros csp pruned0 Hrun Hne.
  - by injection Hrun as _ <-.
  - destruct (fc_loop_cons csp c cs pruned0) as [[_ Heq]|(u1 & _ & _ & Hn1 & _ & Heq)];
      rewrite Heq in Hrun; [by eapply IH|].
    simpl in Hrun. case_decide as Hw1; [done|].
    eapply IH; [done|].
    destruct (decide (u1 = u)) as [->|Hneq]; [done|].
    by rewrite get_var_prune_values_other.
Qed.

Lemma fc_loop_success csp cs pruned0 pruned csp' c u :
  fc_loop csp cs pruned0 = (true, pruned, csp') →
  c ∈ cs → get_n_unasgn csp c = 1 →
  u ∈ get_scope csp c → get_assigned_value (get_var csp u) = None →
  cur_domain (get_var csp' u) ≠ [] ∧ forward_checked csp' c.
Proof.
  revert csp pruned0. induction cs as [|c0 cs IH]; intros csp pruned0 Hrun Hc Hone Hu Hnone.
  { by apply elem_of_nil in Hc. }
  destruct (fc_loop_cons csp c0 cs pruned0)
    as [[Hne Heq]|(u0 & Hone0 & Hu0 & Hnone0 & Huniq0 & Heq)]; rewrite Heq in Hrun.
  { apply elem_of_cons in Hc as [->|Hc]; [done|]. by eapply IH. }
  simpl in Hrun. case_decide as Hwipe; [done|].
  set (csp1 := prune_all csp ((u0,.) <$> fc_failing csp c0 u0)) in *.
  destruct (decide (c ∈ cs)) as [Hin|Hnin].
  { eapply IH; [done|done|..]; unfold csp1; by autorewrite with prune_all. }
  apply elem_of_cons in Hc as [->|Hc]; [|done].
  assert (u = u0) as -> by (by apply Huniq0).
  assert (forward_checked csp1 c0) as Hfc1.
  { intros u' val. unfold csp1. rewrite fc_tuple_prune_all. autorewrite with prune_all.
    intros Hu' Hnone' Hval. assert (u' = u0) as -> by (by apply Huniq0).
    rewrite fc_constraint_domain in Hval by done.
    apply list_elem_of_filter in Hval as [Hval Hd].
    destruct (check (get_con csp c0) (fc_tuple csp c0 u0 val)) eqn:Hchk; [done|].
    destruct Hval. apply fc_failing_elem. split; [done|]. by apply check_false. }
  split; [by eapply fc_loop_keeps_nonempty|].
  destruct (fc_loop_prune_all _ _ _ _ _ _ Hrun) as (l & _ & ->).
  by apply forward_checked_prune_all.
Qed.

(** X13. [prop_FC] reports a dead end exactly when, in the model it
    leaves, the one unassigned variable of some constraint of the call has
    no value left. *)
Theorem prop_FC_fails_on_wipeout csp newVar b pruned csp' :
  prop_FC csp newVar = (b, pruned, csp') →
  (b = false ↔
   ∃ c u, c ∈ constraints_of csp newVar ∧ get_n_unasgn csp c = 1 ∧
          u ∈ get_scope csp c ∧ get_assigned_value (get_var csp u) = None ∧
          cur_domain (get_var csp' u) = []).
Proof.
  unfold prop_FC. generalize (constraints_of csp newVar) as cs.
  generalize (@nil (var_id * Z)) as pruned0.
  intros pruned0 cs Hrun. split.
  - intros ->. revert csp pruned0 Hrun.
    induction cs as [|c cs IH]; intros csp pruned0 Hrun; [done|].
    destruct (fc_loop_cons csp c cs pruned0) as [[_ Heq]|(u & Hone & Hu & Hn & _ & Heq)];
      rewrite Heq in Hrun.
    { destruct (IH _ _ Hrun) as (c' & u' & ? & ?). exists c', u'. split; [by right|done]. }
    simpl in Hrun. case_decide as Hw.
    + injection Hrun as _ <-. exists c, u. split; [left|done].
    + destruct (IH _ _ Hrun) as (c' & u' & Hc' & Hj). exists c', u'.
      split; [by right|]. revert Hj. by autorewrite with prune_all.
  - intros (c & u & Hc & Hone & Hu & Hn & Hempty). destruct b; [|done].
    by destruct (fc_loop_success _ _ _ _ _ _ _ Hrun Hc Hone Hu Hn) as [Hne _].
Qed.

(** X14. After a successful call of [prop_FC], the one unassigned variable
    of each constraint of the call that had exactly one has values left, and
    each of them passes the check of the constraint with the assigned values
    of the others. *)
Theorem prop_FC_forward_checks csp newVar pruned csp' c u :
  prop_FC csp newVar = (true, pruned, csp') →
  c ∈ constraints_of csp newVar → get_n_unasgn csp c = 1 →
  u ∈ get_scope csp c → get_assigned_value (get_var csp u) = None →
  cur_domain (get_var csp' u) ≠ [] ∧
  ∀ val, val ∈ cur_domain (get_var csp' u) →
         fc_tuple csp c u val ∈ sat_tuples (get_con csp c).
Proof.
  intros Hrun Hc Hone Hu Hn.
  destruct (fc_loop_success _ _ _ _ _ _ _ Hrun Hc Hone Hu Hn) as [Hne Hfc].
  split; [done|]. intros val Hval.
  destruct (fc_loop_prune_all _ _ _ _ _ _ Hrun) as (l & _ & ->).
  specialize (Hfc u val). rewrite fc_tuple_prune_all in Hfc.
  autorewrite with prune_all in Hfc. specialize (Hfc Hu Hn Hval).
  unfold check in Hfc. by apply bool_decide_eq_true in Hfc.
Qed.

(** *** GAC: what a call prunes and what it leaves *)

Lemma gac_iteration_inl csp var c q pruned csp' pruned' :
  gac_iteration csp var c q pruned = inl (csp', pruned') →
  ∃ l, l ≠ [] ∧
       l `prefix_of` unsupported csp c var (cur_domain (get_var csp var)) ∧
       csp' = prune_all csp ((var,.) <$> l) ∧
       pruned' = pruned ++ ((var,.) <$> l) ∧
       cur_domain (get_var csp' var) = [].
Proof.
  unfold gac_iteration.
  destruct (gac_values csp c var (cur_domain (get_var csp var)) pruned false)
    as [[csp1 p1]|[[csp1 p1] shr]] eqn:Hv; [|done].
  intros [= <- <-]. by eapply gac_values_inl.
Qed.

Lemma queue_ok_tail csp p q : queue_ok csp (p :: q) → queue_ok csp q.
Proof. intros Hq v c Hin. apply Hq. by right. Qed.

Lemma gac_loop_solution σ fuel csp q pruned b l csp' :
  queue_ok csp q → solution csp σ →
  gac_loop fuel csp q pruned = Some (b, l, csp') →
  b = true ∧ solution csp' σ ∧ ∀ p, p ∈ l → p ∈ pruned ∨ σ !!! p.1 ≠ p.2.
Proof.
  revert csp q pruned. induction fuel as [|fuel IH]; intros csp q pruned Hq Hsol.
  { destruct q as [|[??]?]; [|done]. intros [= <- <- <-]. split; [done|]. split; [done|].
    intros p Hp. by left. }
  destruct q as [|[var c] q].
  { intros [= <- <- <-]. split; [done|]. split; [done|]. intros p Hp. by left. }
  simpl. destruct (Hq var c ltac:(left)) as [Hc Hvar].
  assert (∀ U, (∀ x, x ∈ U → x ∈ unsupported csp c var (cur_domain (get_var csp var))) →
               solution (prune_all csp ((var,.) <$> U)) σ ∧
               ∀ p, p ∈ pruned ++ ((var,.) <$> U) → p ∈ pruned ∨ σ !!! p.1 ≠ p.2)
    as Hstep.
  { intros U HU.
    assert (∀ p, p ∈ (var,.) <$> U → σ !!! p.1 ≠ p.2) as Hne.
    { intros p (x & -> & Hx)%list_elem_of_fmap Heq. simpl in Heq. subst x.
      apply HU, unsupported_elem in Hx as [_ Hx].
      by rewrite (solution_has_support csp σ c var) in Hx. }
    split; [by apply solution_prune_all|].
    intros p [Hp|Hp]%elem_of_app; [by left|right; by apply Hne]. }
  destruct (gac_iteration csp var c q pruned) as [[csp1 p1]|[[csp1 q1] p1]] eqn:Hit.
  - apply gac_iteration_inl in Hit as (U & _ & Hpre & -> & -> & Hempty).
    destruct (Hstep U) as [Hsol1 _]; [intros x Hx; by eapply elem_of_prefix|].
    exfalso. assert (c ∈ get_all_cons (prune_all csp ((var,.) <$> U))) as Hc1
      by (by autorewrite with prune_all).
    destruct (solution_con _ _ _ Hsol1 Hc1) as [Hdom _].
    specialize (Hdom var). autorewrite with prune_all in Hdom.
    specialize (Hdom Hvar). rewrite Hempty in Hdom. by apply elem_of_nil in Hdom.
  - apply gac_iteration_inr in Hit as (-> & -> & -> & _).
    destruct (Hstep (unsupported csp c var (cur_domain (get_var csp var))))
      as [Hsol1 Hl1]; [done|].
    intros Hloop. eapply IH in Hloop as (-> & Hsol' & Hl); [| |done].
    + split; [done|]. split; [done|]. intros p Hp.
      destruct (Hl p Hp) as [Hp1|?]; [by apply Hl1|by right].
    + apply queue_ok_prune_all. case_bool_decide; [|by eapply queue_ok_tail].
      apply queue_ok_enqueue. by eapply queue_ok_tail.
Qed.

(** A solution leaves every constraint open or satisfied. *)
Lemma solution_consistent csp σ : solution csp σ → consistent_assignments csp.
Proof.
  intros Hsol. unfold consistent_assignments. apply Forall_forall. intros c Hc.
  destruct (solution_con _ _ _ Hsol Hc) as [Hdom Hsat].
  destruct (decide (Exists (λ u, get_assigned_value (get_var csp u) = None)
                      (get_scope csp c))) as [Hex|Hall].
  - left. apply Exists_exists in Hex as (u & Hu & Hn). apply Exists_exists.
    exists u. split; [done|]. split; [done|]. intros Hempty.
    specialize (Hdom u Hu). rewrite Hempty in Hdom. by apply elem_of_nil in Hdom.
  - right. apply Exists_exists. exists ((σ !!!.) <$> get_scope csp c). split; [done|].
    unfold assigned_tuple. apply Forall2_fmap_r, Forall_Forall2_diag, Forall_forall.
    intros v Hv. specialize (Hdom v Hv).
    destruct (get_assigned_value (get_var csp v)) as [a|] eqn:Ha.
    + unfold cur_domain, get_assigned_value in *. rewrite Ha in Hdom.
      apply list_elem_of_singleton in Hdom. simpl. by rewrite Hdom.
    + destruct Hall. apply Exists_exists. by exists v.
Qed.

(** X18. [prop_GAC] keeps every solution: on a well-formed model with a
    solution within the current domains the call terminates and reports
    success, the solution is still within the current domains afterwards,
    and no listed pruning is of a value of the solution. *)
Theorem prop_GAC_keeps_solution csp σ newVar :
  constraints_wf csp → solution csp σ →
  ∃ fuel pruned csp',
    prop_GAC fuel csp newVar = Some (true, pruned, csp') ∧
    solution csp' σ ∧ Forall (λ p, σ !!! p.1 ≠ p.2) pruned.
Proof.
  intros Hwf Hsol.
  destruct (gac_loop_terminates csp (gac_seed csp (constraints_of csp newVar)) [])
    as (fuel & [[b pruned] csp'] & Hrun);
    [done|by eapply solution_consistent|apply queue_ok_seed|].
  destruct (gac_loop_solution σ _ _ _ _ _ _ _ (queue_ok_seed csp newVar) Hsol Hrun)
    as (-> & Hsol' & Hl).
  exists fuel, pruned, csp'. split; [done|]. split; [done|].
  apply Forall_forall. intros p Hp. destruct (Hl p Hp) as [Hnil|?]; [|done].
  by apply elem_of_nil in Hnil.
Qed.

(** *** GAC: the verdict *)

Lemma gac_loop_keeps_nonempty fuel csp q pruned l csp' u :
  gac_loop fuel csp q pruned = Some (true, l, csp') →
  cur_domain (get_var csp u) ≠ [] → cur_domain (get_var csp' u) ≠ [].
Proof.
  revert csp q pruned. induction fuel as [|fuel IH]; intros csp q pruned.
  { destruct q as [|[??]?]; [|done]. by intros [= <- <-]. }
  destruct q as [|[var c] q]; [by intros [= <- <-]|]. simpl.
  destruct (gac_iteration csp var c q pruned) as [[csp1 p1]|[[csp1 q1] p1]] eqn:Hit; [done|].
  apply gac_iteration_inr in Hit as (-> & -> & -> & Hdom).
  intros Hloop Hne. eapply IH; [done|].
  destruct (decide (u = var)) as [->|Hneq]; [|by rewrite get_var_prune_values_other].
  destruct (decide (unsupported csp c var (cur_domain (get_var csp var)) = []))
    as [->|HU]; [done|by apply Hdom].
Qed.

Lemma gac_loop_failure fuel csp q pruned l csp' :
  gac_loop fuel csp q pruned = Some (false, l, csp') →
  ∃ l0 u x, l = l0 ++ [(u, x)] ∧ cur_domain (get_var csp u) ≠ [] ∧
            get_assigned_value (get_var csp u) = None ∧
            cur_domain (get_var csp' u) = [].
Proof.
  revert csp q pruned. induction fuel as [|fuel IH]; intros csp q pruned.
  { by destruct q as [|[??]?]. }
  destruct q as [|[var c] q]; [done|]. simpl.
  destruct (gac_iteration csp var c q pruned) as [[csp1 p1]|[[csp1 q1] p1]] eqn:Hit.
  - apply gac_iteration_inl in Hit as (U & HU & Hpre & -> & -> & Hempty).
    intros [= <- <-].
    destruct (exists_last HU) as (U0 & x & ->).
    exists (pruned ++ ((var,.) <$> U0)), var, x.
    split; [by rewrite fmap_app, app_assoc|].
    assert (get_assigned_value (get_var csp var) = None) as Hn.
    { destruct (get_assigned_value (get_var csp var)) as [a|] eqn:Ha; [|done].
      exfalso. rewrite <- (assigned_prune_all csp ((var,.) <$> U0 ++ [x]) var) in Ha.
      unfold cur_domain, get_assigned_value in *. by rewrite Ha in Hempty. }
    split; [|done].
    assert (x ∈ unsupported csp c var (cur_domain (get_var csp var))) as Hx.
    { eapply elem_of_prefix; [|done]. apply elem_of_app. right. left. }
    apply unsupported_elem in Hx as [Hx _]. intros Hnil. rewrite Hnil in Hx.
    by apply elem_of_nil in Hx.
  - apply gac_iteration_inr in Hit as (-> & -> & -> & _).
    intros Hloop. apply IH in Hloop as (l0 & u & x & -> & Hne & Hn & Hempty).
    exists l0, u, x. split; [done|]. autorewrite with prune_all in Hn.
    split; [|done]. intros Hnil. apply Hne. 
    destruct (cur_domain (get_var (prune_all csp _) u)) as [|y ?] eqn:Hd; [done|].
    assert (y ∈ cur_domain (get_var csp u)) as Hy.
    { eapply cur_domain_prune_all_subset. rewrite Hd. left. }
    rewrite Hnil in Hy. by apply elem_of_nil in Hy.
Qed.

(** X19. [prop_GAC] reports a dead end exactly when it has emptied a
    current domain that was not empty; the variable of the last pruning it
    lists is then an unassigned variable without a value left. *)
Theorem prop_GAC_fails_on_wipeout fuel csp newVar b pruned csp' :
  prop_GAC fuel csp newVar = Some (b, pruned, csp') →
  (b = false ↔
   ∃ u, cur_domain (get_var csp u) ≠ [] ∧ cur_domain (get_var csp' u) = []) ∧
  (b = false →
   ∃ l u x, pruned = l ++ [(u, x)] ∧ get_assigned_value (get_var csp u) = None ∧
            cur_domain (get_var csp' u) = []).
Proof.
  unfold prop_GAC. intros Hrun. split; [split|].
  - intros ->. apply gac_loop_failure in Hrun as (l0 & u & x & _ & Hne & _ & Hempty).
    by exists u.
  - intros (u & Hne & Hempty). destruct b; [|done].
    by pose proof (gac_loop_keeps_nonempty _ _ _ _ _ _ u Hrun Hne).
  - intros ->. apply gac_loop_failure in Hrun as (l0 & u & x & -> & _ & Hn & Hempty).
    by exists l0, u, x.
Qed.

(** *** GAC in the states of a search *)

(** A pending pair over a dead constraint, with an unassigned variable
    that has values left, makes the call fail. *)
Lemma gac_loop_killer_false k fuel csp q pruned u c b l csp' :
  q !! k = Some (u, c) →
  dead csp c → get_assigned_value (get_var csp u) = None →
  cur_domain (get_var csp u) ≠ [] →
  gac_loop fuel csp q pruned = Some (b, l, csp') → b = false.
Proof.
  revert fuel csp q pruned.
  induction k as [|k IH]; intros fuel csp q pruned Hk Hdead Hu Hne.
  - destruct q as [|[u' c'] q]; [done|]. injection Hk as -> ->.
    destruct fuel as [|fuel]; [done|]. simpl.
    destruct (gac_iteration_dead csp c u q pruned Hdead Hu Hne) as [[csp1 p1] ->].
    by intros [= <- _ _].
  - destruct q as [|[var c0] q]; [done|]. simpl in Hk.
    destruct fuel as [|fuel]; [done|]. simpl.
    destruct (gac_iteration csp var c0 q pruned) as [[csp1 p1]|[[csp1 q1] p1]] eqn:Hit;
      [by intros [= <- _ _]|].
    apply gac_iteration_inr in Hit as (-> & -> & -> & Hdom).
    apply IH.
    + case_bool_decide; [|done].
      destruct (add_new_all q (enqueue_candidates csp var)) as (Hpre & _).
      by eapply prefix_lookup_Some.
    + by apply dead_prune_all.
    + by rewrite assigned_prune_all.
    + destruct (decide (u = var)) as [->|Hneq].
      * destruct (decide (unsupported csp c0 var (cur_domain (get_var csp var)) = []))
          as [->|HU]; [done|]. by apply Hdom.
      * by rewrite get_var_prune_values_other.
Qed.

Lemma gac_loop_unassigned fuel csp q pruned l csp' :
  constraints_wf csp → consistent_assignments csp → queue_ok csp q →
  gac_loop fuel csp q pruned = Some (true, l, csp') →
  ∀ p, p ∈ l → p ∈ pruned ∨ get_assigned_value (get_var csp p.1) = None.
Proof.
  revert csp q pruned. induction fuel as [|fuel IH]; intros csp q pruned Hwf Hcons Hq.
  { destruct q as [|[??]?]; [|done]. intros [= <- <-] p Hp. by left. }
  destruct q as [|[var c] q]; [intros [= <- <-] p Hp; by left|]. simpl.
  destruct (gac_iteration csp var c q pruned) as [[csp1 p1]|[[csp1 q1] p1]] eqn:Hit; [done|].
  apply gac_iteration_inr in Hit as (-> & -> & -> & Hdom).
  destruct (Hq var c ltac:(left)) as [Hc Hvar].
  pose proof (queue_ok_tail _ _ _ Hq) as Hq'.
  set (U := unsupported csp c var (cur_domain (get_var csp var))) in *.
  case_bool_decide as HU.
  2:{ rewrite HU. simpl. rewrite app_nil_r. by apply IH. }
  specialize (Hdom HU).
  destruct (get_assigned_value (get_var csp var)) as [a|] eqn:Ha.
  - (* an assigned variable lost its value: the call cannot succeed *)
    intros Hloop. exfalso.
    assert (U = [a]) as HUa.
    { unfold U, unsupported in *. unfold cur_domain, get_assigned_value in *.
      rewrite Ha in *. rewrite filter_cons in *. case_decide; [done|]. done. }
    assert (has_support csp c var a = false) as Hns.
    { apply (unsupported_elem csp c var (cur_domain (get_var csp var)) a).
      fold U. rewrite HUa. left. }
    assert (dead csp c) as Hdead by (by eapply assigned_unsupported_dead).
    unfold consistent_assignments in Hcons. rewrite Forall_forall in Hcons.
    destruct (Hcons c Hc) as [(u & Hu & Hun & Hudom)%Exists_exists|Hsat].
    2:{ rewrite (satisfied_has_support csp c var a) in Hns; done. }
    assert (u ≠ var) as Hneq by (intros ->; congruence).
    assert ((u, c) ∈ foldl add_new q (enqueue_candidates csp var)) as Hin.
    { destruct (add_new_all q (enqueue_candidates csp var)) as (_ & Helem & _).
      apply Helem. right. apply elem_of_enqueue_candidates.
      split; [by apply elem_of_get_cons_with_var|done]. }
    apply list_elem_of_lookup in Hin as [k Hk].
    eapply (gac_loop_killer_false k) in Hloop; [done|done| | |].
    + by apply dead_prune_all.
    + by rewrite assigned_prune_all.
    + by rewrite get_var_prune_values_other.
  - intros Hloop p Hp.
    assert (constraints_wf (prune_all csp ((var,.) <$> U))) as Hwf1
      by (by apply constraints_wf_prune_all).
    assert (consistent_assignments (prune_all csp ((var,.) <$> U))) as Hcons1
      by (by apply consistent_assignments_prune).
    assert (queue_ok (prune_all csp ((var,.) <$> U))
              (foldl add_new q (enqueue_candidates csp var))) as Hq1
      by (apply queue_ok_prune_all; by apply queue_ok_enqueue).
    destruct (IH _ _ _ Hwf1 Hcons1 Hq1 Hloop p Hp) as [[Hp0|Hp0]%elem_of_app|Hn]; [by left| |].
    + right. apply list_elem_of_fmap in Hp0 as (x & -> & _). done.
    + right. by rewrite assigned_prune_all in Hn.
Qed.

(** X20. In a well-formed model where every constraint is open or
    satisfied, a successful call of [prop_GAC] lists prunings of unassigned
    variables only, and none twice. *)
Theorem prop_GAC_success_prunes_unassigned fuel csp newVar pruned csp' :
  constraints_wf csp → consistent_assignments csp → domains_nodup csp →
  prop_GAC fuel csp newVar = Some (true, pruned, csp') →
  prunes_unassigned csp pruned ∧ NoDup pruned.
Proof.
  intros Hwf Hcons Hnd Hrun.
  assert (prunes_unassigned csp pruned) as Hun.
  { apply Forall_forall. intros p Hp.
    destruct (gac_loop_unassigned _ _ _ _ _ _ Hwf Hcons (queue_ok_seed csp newVar) Hrun p Hp)
      as [Hnil|?]; [by apply elem_of_nil in Hnil|done]. }
  split; [done|].
  assert (replay csp pruned = Some csp') as Hrep.
  { eapply gac_loop_replay; [|done]. by apply domains_nodup_get. }
  eapply replay_NoDup; [done|].
  unfold prunes_unassigned in Hun. by rewrite Forall_forall in Hun.
Qed.

(** X21. A successful call of [prop_GAC] establishes arc consistency: when
    every constraint is open or satisfied and the pairs the call does not
    seed were supported before it, then afterwards every value of every
    current domain has support in every constraint over its variable. *)
Theorem prop_GAC_establishes_arc_consistency fuel csp newVar pruned csp' c v x :
  constraints_wf csp → consistent_assignments csp →
  arc_consistent_outside csp newVar →
  prop_GAC fuel csp newVar = Some (true, pruned, csp') →
  c ∈ get_all_cons csp' → v ∈ get_scope csp' c → x ∈ cur_domain (get_var csp' v) →
  has_support csp' c v x = true.
Proof.
  intros Hwf Hcons Hac Hrun Hc Hv Hx.
  assert (Forall (λ p, get_assigned_value (get_var csp p.1) = None) pruned) as Hun.
  { apply Forall_forall. intros p Hp.
    destruct (gac_loop_unassigned _ _ _ _ _ _ Hwf Hcons (queue_ok_seed csp newVar) Hrun p Hp)
      as [Hnil|?]; [by apply elem_of_nil in Hnil|done]. }
  pose proof (gac_loop_prune_all _ _ _ _ _ _ Hrun) as ->.
  autorewrite with prune_all in Hc, Hv.
  eapply (gac_loop_fixpoint (gac_seed csp (get_all_cons csp)));
    [apply (queue_ok_seed csp None)|by apply arc_consistent_outside_inv|done|done| |done].
  by apply elem_of_gac_seed.
Qed.

(** *** The propagators change the current domains only *)

Lemma fc_loop_frame csp cs b pruned csp' :
  fc_loop csp cs [] = (b, pruned, csp') → csp' = prune_all csp pruned.
Proof. intros Hrun. by destruct (fc_loop_prune_all _ _ _ _ _ _ Hrun) as (l & -> & ->). Qed.

Lemma prune_all_frame csp l :
  csp_name (prune_all csp l) = csp_name csp ∧
  csp_cons (prune_all csp l) = csp_cons csp ∧
  length (csp_vars (prune_all csp l)) = length (csp_vars csp) ∧
  ∀ v, vname (get_var (prune_all csp l) v) = vname (get_var csp v) ∧
       domain (get_var (prune_all csp l) v) = domain (get_var csp v) ∧
       get_assigned_value (get_var (prune_all csp l) v) = get_assigned_value (get_var csp v) ∧
       curdom (get_var (prune_all csp l) v) =
         filter (λ y, (v, y) ∉ l) (curdom (get_var csp v)).
Proof.
  split; [|split; [apply cons_prune_all|split]].
  - revert csp. induction l as [|p l IH]; intros csp; [done|]. simpl. by rewrite IH.
  - revert csp. induction l as [|p l IH]; intros csp; [done|]. simpl. rewrite IH.
    unfold prune_value. simpl. by rewrite length_alter.
  - intros v. split; [|split; [|split; [apply assigned_prune_all|apply curdom_prune_all]]].
    + rewrite get_var_prune_all. generalize (get_var csp v) as var.
      induction l as [|p l IH]; intros var; [done|]. simpl. rewrite IH. by case_decide.
    + rewrite get_var_prune_all. generalize (get_var csp v) as var.
      induction l as [|p l IH]; intros var; [done|]. simpl. rewrite IH. by case_decide.
Qed.

(** X16. [prop_FC] changes stored current domains only: the name, the
    constraints, and the names, original domains and assigned values of the
    variables are as before, and the stored current domain of a variable is
    the former one without the values listed for that variable. *)
Theorem prop_FC_changes_current_domains_only csp newVar :
  let '(_, pruned, csp') := prop_FC csp newVar in
  csp_name csp' = csp_name csp ∧ csp_cons csp' = csp_cons csp ∧
  length (csp_vars csp') = length (csp_vars csp) ∧
  ∀ v, vname (get_var csp' v) = vname (get_var csp v) ∧
       domain (get_var csp' v) = domain (get_var csp v) ∧
       get_assigned_value (get_var csp' v) = get_assigned_value (get_var csp v) ∧
       curdom (get_var csp' v) = filter (λ y, (v, y) ∉ pruned) (curdom (get_var csp v)).
Proof.
  destruct (prop_FC csp newVar) as [[b pruned] csp'] eqn:Hrun.
  apply fc_loop_frame in Hrun as ->. apply prune_all_frame.
Qed.

(** X23. [prop_GAC] changes stored current domains only: the name, the
    constraints, and the names, original domains and assigned values of the
    variables are as before, and the stored current domain of a variable is
    the former one without the values listed for that variable. *)
Theorem prop_GAC_changes_current_domains_only fuel csp newVar b pruned csp' :
  prop_GAC fuel csp newVar = Some (b, pruned, csp') →
  csp_name csp' = csp_name csp ∧ csp_cons csp' = csp_cons csp ∧
  length (csp_vars csp') = length (csp_vars csp) ∧
  ∀ v, vname (get_var csp' v) = vname (get_var csp v) ∧
       domain (get_var csp' v) = domain (get_var csp v) ∧
       get_assigned_value (get_var csp' v) = get_assigned_value (get_var csp v) ∧
       curdom (get_var csp' v) = filter (λ y, (v, y) ∉ pruned) (curdom (get_var csp v)).
Proof.
  intros Hrun. apply gac_loop_prune_all in Hrun as ->. apply prune_all_frame.
Qed.

(** *** The encoders, loop by loop *)

Lemma extend_nil csp : extend csp [] = csp.
Proof. destruct csp. unfold extend. simpl. by rewrite app_nil_r. Qed.

Lemma extend_extend csp l1 l2 : extend (extend csp l1) l2 = extend csp (l1 ++ l2).
Proof. unfold extend. simpl. by rewrite app_assoc. Qed.

(** A loop whose body adds constraints to the model, or raises on an
    element that is not [ok]. *)
Lemma for_each_extend {A} (vars : list variable) (ok : A → bool)
    (g : A → list constraint) (body : CSP → A → option CSP) (l : list A) :
  (∀ csp x, x ∈ l → csp_vars csp = vars →
            body csp x = if ok x then Some (extend csp (g x)) else None) →
  ∀ csp, csp_vars csp = vars →
         for_each body l csp =
         if forallb ok l then Some (extend csp (l ≫= g)) else None.
Proof.
  induction l as [|x l IH]; intros Hbody csp Hvars; simpl.
  - by rewrite extend_nil.
  - rewrite (Hbody csp x) by (done || left). destruct (ok x); [|done]. simpl.
    rewrite IH; [|intros; apply Hbody; [by right|done]|done].
    destruct (forallb ok l); [|done]. by rewrite extend_extend.
Qed.

Lemma for_each_extend_all {A} (vars : list variable)
    (g : A → list constraint) (body : CSP → A → option CSP) (l : list A) :
  (∀ csp x, x ∈ l → csp_vars csp = vars → body csp x = Some (extend csp (g x))) →
  ∀ csp, csp_vars csp = vars → for_each body l csp = Some (extend csp (l ≫= g)).
Proof.
  intros Hbody csp Hvars.
  rewrite (for_each_extend vars (λ _, true) g); [|done..].
  assert (forallb (λ _ : A, true) l = true) as ->; [|done].
  clear. induction l as [|x l IH]; [done|]. simpl. exact IH.
Qed.

(** What [emit] does: a constraint for a key of [switch], an error for
    another string when there is a tuple to test. *)
Lemma emit_pair csp name a b :
  domain (csp_vars csp !!! a) ≠ [] → domain (csp_vars csp !!! b) ≠ [] →
  emit csp name [a; b] =
  if bool_decide (is_Some (switch name))
  then Some (extend csp [materialized (csp_vars csp) name [a; b]]) else None.
Proof.
  intros Ha Hb. unfold emit. case_bool_decide as Hk.
  - apply known_tag_switch in Hk.
    rewrite check_constraint_add_tuples_filter; [done|done|simpl; lia].
  - unfold check_constraint_add_tuples, new_Constraint. cbn [cname scope].
    assert (switch name = None) as -> by (by destruct (switch name); [destruct Hk|]).
    simpl. destruct (domain (csp_vars csp !!! a)) as [|x ?]; [done|].
    destruct (domain (csp_vars csp !!! b)) as [|y ?]; [done|]. done.
Qed.

Lemma emit_known_tag csp name sc :
  known_tag name → (name ≠ "all_different" → 2 ≤ length sc) →
  emit csp name sc = Some (extend csp [materialized (csp_vars csp) name sc]).
Proof.
  intros Hk Hlen. unfold emit. by rewrite check_constraint_add_tuples_filter.
Qed.

(** *** The variables *)

Lemma row_shape_inv n row :
  row_shape n row = true →
  (n = 1 ∧ ∃ z, row = [Num z]) ∨
  (∃ n' z s rest, n = S n' ∧ n' ≠ 0 ∧ row = Num z :: Sym s :: rest ∧
                  row_shape n' rest = true).
Proof.
  destruct n as [|n]; [done|]. simpl.
  destruct row as [|[z|s] row]; [by destruct n|..|by destruct n].
  destruct row as [|[z'|s] rest].
  - destruct n; [|done]. intros _. left. eauto.
  - by destruct n.
  - intros H. right. exists n, z, s, rest.
    destruct n as [|n]; [by destruct rest as [|[]?]|done].
Qed.

Lemma row_ok_shape n row :
  row_ok n row = true → row_shape n row = true.
Proof.
  revert row. induction n as [|n IH]; intros row H; [done|].
  apply row_ok_inv in H as [[[= ->] [z ->]]|(n' & z & s & rest & [= <-] & -> & _ & Hrest)];
    [done|].
  simpl. destruct n; [by destruct rest|]. by apply IH.
Qed.

Lemma row_cells_length n row : row_shape n row = true → length (row_cells row) = n.
Proof.
  revert row. induction n as [|n IH]; intros row H; [done|].
  apply row_shape_inv in H as [[[= ->] [z ->]]|(n' & z & s & rest & [= <-] & _ & -> & Hrest)];
    [done|].
  simpl. f_equal. by apply IH.
Qed.

Lemma row_variables_spec full_domain i n row j csp_variables row_array :
  row_shape n row = true →
  row_variables full_domain i row true j csp_variables row_array =
  Some (csp_variables ++
          ((λ '(k, z), new_Variable ("V" +:+ pretty i +:+ "," +:+ pretty k)
                         (if (z =? 0)%Z then full_domain else [z]))
             <$> zip (seq j n) (row_cells row)),
        row_array ++ seq (length csp_variables) n).
Proof.
  revert row j csp_variables row_array.
  induction n as [|n IH]; intros row j vs ra H; [done|].
  apply row_shape_inv in H as [[[= ->] [z ->]]|(n' & z & s & rest & [= <-] & _ & -> & Hrest)].
  - done.
  - cbn [row_variables row_cells]. rewrite (IH rest) by done.
    rewrite length_app, <- !app_assoc. simpl length. rewrite Nat.add_1_r.
    reflexivity.
Qed.

Lemma build_variables_spec b :
  board_shape b = true →
  build_variables b = Some (board_variables b, variable_grid (length b)).
Proof.
  intros Hok. unfold board_shape in Hok. rewrite forallb_elem_of in Hok.
  unfold build_variables, board_variables, variable_grid, enumerate.
  set (full_domain := (λ i, (Z.of_nat i + 1)%Z) <$> range (length b)).
  set (n := length b) in *.
  set (rowvars := λ '(i, row),
         (λ '(j, z), new_Variable ("V" +:+ pretty i +:+ "," +:+ pretty j) (cell_domain n z))
           <$> zip (seq 0 (length (row_cells row))) (row_cells row)).
  assert (∀ rows k vs va,
    (∀ row, row ∈ rows → row_shape n row = true) → length vs = k * n →
    for_each (λ '(csp_variables, variable_array) '(i, row),
        '(csp_variables', row_array) ←
          row_variables full_domain i row true 0 csp_variables [];
        Some (csp_variables', variable_array ++ [row_array]))
      (zip (seq k (length rows)) rows) (vs, va) =
    Some (vs ++ (zip (seq k (length rows)) rows ≫= rowvars),
          va ++ ((λ i, seq (i * n) n) <$> seq k (length rows)))) as Hloop.
  { induction rows as [|row rows IH]; intros k vs va Hrows Hlen.
    - simpl. by rewrite !app_nil_r.
    - cbn [length seq zip zip_with for_each].
      rewrite (row_variables_spec full_domain k n row) by (apply Hrows; left).
      cbn. rewrite IH.
      + rewrite <- !app_assoc. cbn. rewrite Hlen.
        rewrite (row_cells_length n row) by (apply Hrows; left). done.
      + intros r Hr. apply Hrows. by right.
      + rewrite length_app, length_fmap, length_zip, length_seq.
        rewrite (row_cells_length n row) by (apply Hrows; left). lia. }
  exact (Hloop b 0 [] [] Hok eq_refl).
Qed.

(** *** The variable array and the variables, by position *)

Lemma variable_grid_lookup n i :
  i < n → variable_grid n !! i = Some (seq (i * n) n).
Proof.
  intros Hi. unfold variable_grid. rewrite list_lookup_fmap.
  by rewrite (lookup_seq_lt 0 n i Hi).
Qed.

Lemma cell_variable_grid n i j :
  i < n → j < n → cell (variable_grid n) i j = Some (i * n + j).
Proof.
  intros Hi Hj. unfold cell. rewrite variable_grid_lookup by done. simpl.
  by apply lookup_seq_lt.
Qed.

Lemma lookup_bind_blocks {A B} (f : A → list B) (l : list A) n i j x :
  (∀ y, y ∈ l → length (f y) = n) → l !! i = Some x → j < n →
  (l ≫= f) !! (i * n + j) = f x !! j.
Proof.
  revert i. induction l as [|y l IH]; intros i Hlen Hi Hj; [done|].
  rewrite bind_cons. destruct i as [|i]; simpl in *.
  - injection Hi as ->. rewrite lookup_app_l; [done|].
    rewrite (Hlen x) by left. done.
  - rewrite lookup_app_r by (rewrite (Hlen y) by left; lia).
    rewrite (Hlen y) by left.
    replace (n + i * n + j - n) with (i * n + j) by lia.
    apply IH; [|done|done]. intros y' Hy'. apply Hlen. by right.
Qed.

Lemma length_bind_blocks {A B} (f : A → list B) (l : list A) n :
  (∀ y, y ∈ l → length (f y) = n) → length (l ≫= f) = length l * n.
Proof.
  induction l as [|y l IH]; intros Hlen; [done|].
  rewrite bind_cons, length_app, (Hlen y) by left. simpl.
  rewrite IH; [done|]. intros y' Hy'. apply Hlen. by right.
Qed.

Lemma row_cells_lookup n row j :
  row_shape n row = true → j < n →
  ∃ z, row !! (2 * j) = Some (Num z) ∧ row_cells row !! j = Some z.
Proof.
  revert row j. induction n as [|n IH]; intros row j H Hj; [lia|].
  apply row_shape_inv in H as [[[= ->] [z ->]]|(n' & z & s & rest & [= <-] & _ & -> & Hrest)].
  - destruct j; [|lia]. by exists z.
  - destruct j as [|j]; [by exists z|].
    destruct (IH rest j Hrest) as (z' & Hz' & Hc); [lia|].
    exists z'. split; [|done].
    replace (2 * S j) with (S (S (2 * j))) by lia. done.
Qed.

Lemma board_shape_row b i row :
  board_shape b = true → b !! i = Some row → row_shape (length b) row = true.
Proof.
  intros Hok Hrow. unfold board_shape in Hok. rewrite forallb_elem_of in Hok.
  apply Hok. by eapply list_elem_of_lookup_2.
Qed.

Lemma length_board_variables b :
  board_shape b = true → length (board_variables b) = length b * length b.
Proof.
  intros Hok. unfold board_variables.
  rewrite (length_bind_blocks _ _ (length b)).
  - unfold enumerate. rewrite length_zip, length_seq. lia.
  - intros [i row] Hin. apply elem_of_enumerate in Hin.
    unfold enumerate. rewrite length_fmap, length_zip, length_seq.
    rewrite (row_cells_length (length b)) by (by eapply board_shape_row). lia.
Qed.

Lemma enumerate_lookup {A} (l : list A) i x :
  l !! i = Some x → enumerate l !! i = Some (i, x).
Proof.
  intros Hx. unfold enumerate. apply lookup_zip_with_Some.
  exists i, x. split; [done|]. split; [|done].
  apply lookup_seq_lt. by eapply lookup_lt_Some.
Qed.

Lemma board_variables_lookup b i j :
  board_shape b = true → i < length b → j < length b →
  ∃ z, board_cell b i j = Some (Num z) ∧
       board_variables b !! (i * length b + j) =
         Some (new_Variable ("V" +:+ pretty i +:+ "," +:+ pretty j)
                 (cell_domain (length b) z)).
Proof.
  intros Hok Hi Hj.
  destruct (lookup_lt_is_Some_2 b i Hi) as [row Hrow].
  pose proof (board_shape_row _ _ _ Hok Hrow) as Hshape.
  destruct (row_cells_lookup _ _ j Hshape Hj) as (z & Hz & Hc).
  exists z. split; [unfold board_cell, board in *; by rewrite Hrow|].
  unfold board_variables.
  rewrite (lookup_bind_blocks _ _ (length b) i j (i, row)).
  - rewrite list_lookup_fmap, (enumerate_lookup _ _ _ Hc). done.
  - intros [i' row'] Hin. apply elem_of_enumerate in Hin.
    unfold enumerate. rewrite length_fmap, length_zip, length_seq.
    rewrite (row_cells_length (length b)) by (by eapply board_shape_row). lia.
  - by apply enumerate_lookup.
  - done.
Qed.

Lemma cell_domain_nonempty n z : 0 < n → cell_domain n z ≠ [].
Proof.
  intros Hn. unfold cell_domain. destruct (z =? 0)%Z; [|done].
  destruct n; [lia|done].
Qed.

Lemma board_variables_total b i j :
  board_shape b = true → i < length b → j < length b →
  ∃ z, board_cell b i j = Some (Num z) ∧
       board_variables b !!! (i * length b + j) =
         new_Variable ("V" +:+ pretty i +:+ "," +:+ pretty j) (cell_domain (length b) z).
Proof.
  intros Hok Hi Hj.
  destruct (board_variables_lookup b i j Hok Hi Hj) as (z & Hz & Hv).
  exists z. split; [done|]. by apply list_lookup_total_correct.
Qed.

Lemma board_variables_domain b i j :
  board_shape b = true → i < length b → j < length b →
  domain (board_variables b !!! (i * length b + j)) ≠ [].
Proof.
  intros Hok Hi Hj.
  destruct (board_variables_total b i j Hok Hi Hj) as (z & _ & ->).
  simpl. apply cell_domain_nonempty. lia.
Qed.

(** *** The inequality loop *)

Lemma row_symbols_spec vars i n0 row_array n row j0 csp :
  row_shape n row = true → j0 + n ≤ n0 → row_array = seq (i * n0) n0 →
  (∀ k, k < n0 → domain (vars !!! (i * n0 + k)) ≠ []) →
  csp_vars csp = vars →
  row_symbols row_array row false (Z.of_nat j0 - 1) csp =
  if forallb (λ p, bool_decide (is_Some (switch p.1))) (row_inequalities row j0)
  then Some (extend csp
               ((λ '(s, j), materialized vars s [i * n0 + j; i * n0 + (j + 1)])
                  <$> row_inequalities row j0))
  else None.
Proof.
  intros Hshape Hlen -> Hdom. revert row j0 csp Hshape Hlen.
  induction n as [|n IH]; intros row j0 csp Hshape Hlen Hvars; [done|].
  apply row_shape_inv in Hshape
    as [[[= ->] [z ->]]|(n' & z & s & rest & [= <-] & Hn & -> & Hrest)].
  - simpl. by rewrite extend_nil.
  - cbn [row_symbols row_inequalities].
    replace (Z.of_nat j0 - 1 + 1)%Z with (Z.of_nat (S j0) - 1)%Z by lia.
    case_decide as Hdot.
    + simpl. by apply IH; [|lia|].
    + assert (∀ k, k < n0 → py_get (seq (i * n0) n0) (Z.of_nat k) = Some (i * n0 + k))
        as Hget.
      { intros k Hk. rewrite py_get_nonneg by lia. rewrite Nat2Z.id.
        by apply lookup_seq_lt. }
      replace (Z.of_nat (S j0) - 1 + 1)%Z with (Z.of_nat (S j0)) by lia.
      replace (Z.of_nat (S j0) - 1)%Z with (Z.of_nat j0) by lia.
      rewrite (Hget j0) by lia. simpl. rewrite (Hget (S j0)) by lia. simpl.
      replace (Z.of_nat j0) with (Z.of_nat (S j0) - 1)%Z by lia.
      rewrite emit_pair; [|rewrite Hvars; apply Hdom; lia..].
      replace (i * n0 + S j0) with (i * n0 + (j0 + 1)) by lia.
      case_bool_decide as Hk; simpl; [|done].
      rewrite IH; [|done|lia|done]. rewrite Hvars.
      destruct (forallb _ (row_inequalities rest (S j0))); [|done].
      by rewrite extend_extend.
Qed.

Lemma forallb_bind {A B} (p : B → bool) (f : A → list B) (l : list A) :
  forallb p (l ≫= f) = forallb (λ x, forallb p (f x)) l.
Proof.
  induction l as [|x l IH]; [done|].
  rewrite bind_cons, forallb_app. simpl. by rewrite IH.
Qed.

Lemma forallb_fmap {A B} (p : B → bool) (f : A → B) (l : list A) :
  forallb p (f <$> l) = forallb (λ x, p (f x)) l.
Proof. induction l as [|x l IH]; [done|]. csimpl. by rewrite IH. Qed.

Lemma forallb_enumerate {A} (p : A → bool) (l : list A) :
  forallb (λ x, p x.2) (enumerate l) = forallb p l.
Proof.
  unfold enumerate. generalize 0 as k.
  induction l as [|x l IH]; intros k; [done|]. simpl. by rewrite IH.
Qed.

Lemma board_symbols_spec b csp :
  board_shape b = true → csp_vars csp = board_variables b →
  board_symbols b (variable_grid (length b)) csp =
  if symbols_known b
  then Some (extend csp (inequality_constraints b (board_variables b)))
  else None.
Proof.
  intros Hok Hvars. unfold board_symbols, inequality_constraints.
  assert (symbols_known b =
          forallb (λ x : nat * list item,
                     forallb (λ p, bool_decide (is_Some (switch p.1)))
                       (row_inequalities x.2 0)) (enumerate b)) as ->.
  { rewrite (forallb_enumerate
               (λ row, forallb (λ p : string * nat, bool_decide (is_Some (switch p.1)))
                         (row_inequalities row 0))).
    unfold symbols_known, board_inequalities. rewrite forallb_bind.
    apply forallb_ext_in. intros row _. by rewrite forallb_fmap. }
  rewrite (for_each_extend (board_variables b)
             (λ x, forallb (λ p, bool_decide (is_Some (switch p.1)))
                     (row_inequalities x.2 0))
             (λ '(i, row),
                (λ '(s, j), materialized (board_variables b) s
                              [i * length b + j; i * length b + (j + 1)])
                  <$> row_inequalities row 0)); [| |done].
  - done.
  - intros csp1 [i row] Hin Hvars1. apply elem_of_enumerate in Hin.
    pose proof (lookup_lt_Some _ _ _ Hin) as Hi.
    rewrite variable_grid_lookup by done. simpl.
    apply (row_symbols_spec (board_variables b) i (length b) _ (length b) row 0);
      [by eapply board_shape_row|lia|done| |done].
    intros k Hk. by apply board_variables_domain.
Qed.

(** *** The two encoders *)

Lemma enumerate_bind_fst {A B} (h : nat → list B) (l : list A) :
  (enumerate l ≫= λ '(i, _), h i) = seq 0 (length l) ≫= h.
Proof.
  unfold enumerate. generalize 0 as k.
  induction l as [|x l IH]; intros k; [done|].
  cbn [length seq zip zip_with]. rewrite !bind_cons. by rewrite IH.
Qed.

Lemma bind_singleton_fmap {A B} (f : A → B) (l : list A) :
  (l ≫= λ x, [f x]) = f <$> l.
Proof. induction l as [|x l IH]; [done|]. rewrite bind_cons, IH. done. Qed.

Lemma mapM_fmap_Some {A B C} (f : B → option C) (g : A → B) (h : A → C) (l : list A) :
  (∀ x, x ∈ l → f (g x) = Some (h x)) → mapM f (g <$> l) = Some (h <$> l).
Proof.
  induction l as [|x l IH]; intros H; [done|].
  change (mapM f (g <$> x :: l)) with
    (y ← f (g x); k ← mapM f (g <$> l); mret (y :: k)).
  rewrite (H x) by left. rewrite IH; [done|].
  intros y Hy. apply H. by right.
Qed.

Lemma known_not_equal : known_tag "not_equal".
Proof. by right; right; left. Qed.

Lemma known_all_different : known_tag "all_different".
Proof. by do 3 right. Qed.

Lemma futoshiki_csp_model_1_spec b :
  board_shape b = true →
  futoshiki_csp_model_1 b =
  if symbols_known b
  then Some (extend (new_CSP "Futoshiki-M1" (board_variables b))
               (not_equal_constraints (length b) (board_variables b) ++
                inequality_constraints b (board_variables b)),
             variable_grid (length b))
  else None.
Proof.
  intros Hok. unfold futoshiki_csp_model_1.
  rewrite build_variables_spec by done. cbn [mbind option_bind].
  set (vars := board_variables b). set (n := length b).
  rewrite (for_each_extend_all vars
    (λ '(i, _), cur_item ← seq 0 n;
       ((λ j, materialized vars "not_equal" [i * n + cur_item; i * n + j])
          <$> seq (cur_item + 1) (n - (cur_item + 1))) ++
       ((λ k, materialized vars "not_equal" [i * n + cur_item; k * n + cur_item])
          <$> seq (i + 1) (n - (i + 1))))); [| |done].
  - cbn [mbind option_bind]. rewrite board_symbols_spec by done.
    destruct (symbols_known b); [|done]. cbn [mbind option_bind].
    rewrite extend_extend.
    rewrite (enumerate_bind_fst (λ i, cur_item ← seq 0 n;
       ((λ j, materialized vars "not_equal" [i * n + cur_item; i * n + j])
          <$> seq (cur_item + 1) (n - (cur_item + 1))) ++
       ((λ k, materialized vars "not_equal" [i * n + cur_item; k * n + cur_item])
          <$> seq (i + 1) (n - (i + 1))))).
    reflexivity.
  - intros csp [i row] Hin Hvars. apply elem_of_enumerate, lookup_lt_Some in Hin.
    fold n in Hin.
    apply (for_each_extend_all vars
      (λ cur_item,
         ((λ j, materialized vars "not_equal" [i * n + cur_item; i * n + j])
            <$> seq (cur_item + 1) (n - (cur_item + 1))) ++
         ((λ k, materialized vars "not_equal" [i * n + cur_item; k * n + cur_item])
            <$> seq (i + 1) (n - (i + 1))))); [|done].
    intros csp1 cur_item Hcur Hvars1. apply elem_of_seq in Hcur.
    rewrite (for_each_extend_all vars
      (λ j, [materialized vars "not_equal" [i * n + cur_item; i * n + j]])); [| |done].
    + cbn [mbind option_bind].
      rewrite (for_each_extend_all vars
        (λ k, [materialized vars "not_equal" [i * n + cur_item; k * n + cur_item]]));
        [| |done].
      * by rewrite extend_extend, !bind_singleton_fmap.
      * intros csp2 k Hk Hvars2. apply elem_of_seq in Hk.
        rewrite !cell_variable_grid by (unfold n in *; lia). cbn [mbind option_bind].
        rewrite emit_known_tag by (apply known_not_equal || (simpl; lia)).
        by rewrite Hvars2.
    + intros csp2 j Hj Hvars2. apply elem_of_seq in Hj.
      rewrite !cell_variable_grid by (unfold n in *; lia). cbn [mbind option_bind].
      rewrite emit_known_tag by (apply known_not_equal || (simpl; lia)).
      by rewrite Hvars2.
Qed.

Lemma futoshiki_csp_model_2_spec b :
  board_shape b = true →
  futoshiki_csp_model_2 b =
  if symbols_known b
  then Some (extend (new_CSP "Futoshiki-M2" (board_variables b))
               (all_different_constraints (length b) (board_variables b) ++
                inequality_constraints b (board_variables b)),
             variable_grid (length b))
  else None.
Proof.
  intros Hok. unfold futoshiki_csp_model_2.
  rewrite build_variables_spec by done. cbn [mbind option_bind].
  set (vars := board_variables b). set (n := length b).
  rewrite (for_each_extend_all vars
    (λ '(i, _), [materialized vars "all_different" (seq (i * n) n)])); [| |done].
  - cbn [mbind option_bind].
    rewrite (for_each_extend_all vars
      (λ j, [materialized vars "all_different" ((λ i, i * n + j) <$> seq 0 n)]));
      [| |done].
    + cbn [mbind option_bind]. rewrite board_symbols_spec by done.
      destruct (symbols_known b); [|done]. cbn [mbind option_bind].
      rewrite !extend_extend. unfold all_different_constraints.
      rewrite (enumerate_bind_fst
                 (λ i, [materialized vars "all_different" (seq (i * n) n)])).
      rewrite !bind_singleton_fmap, app_assoc. reflexivity.
    + intros csp j Hj Hvars. apply elem_of_seq in Hj.
      unfold variable_grid.
      rewrite (mapM_fmap_Some _ _ (λ i, i * n + j)).
      * cbn [mbind option_bind].
        rewrite emit_known_tag by (apply known_all_different || done).
        by rewrite Hvars.
      * intros i Hi. apply elem_of_seq in Hi. apply lookup_seq_lt. lia.
  - intros csp [i row] Hin Hvars. apply elem_of_enumerate, lookup_lt_Some in Hin.
    rewrite variable_grid_lookup by done. cbn [mbind option_bind].
    rewrite emit_known_tag by (apply known_all_different || done).
    by rewrite Hvars.
Qed.

(** *** Boards in the input format *)

Lemma row_inequalities_elem n row j0 s j :
  row_shape n row = true →
  (s, j) ∈ row_inequalities row j0 ↔
  ∃ k, j = j0 + k ∧ k + 1 < n ∧ row !! (2 * k + 1) = Some (Sym s) ∧ s ≠ ".".
Proof.
  revert row j0. induction n as [|n IH]; intros row j0 H; [done|].
  apply row_shape_inv in H
    as [[[= ->] [z ->]]|(n' & z & s0 & rest & [= <-] & Hn & -> & Hrest)].
  - simpl. split; [by intros ?%elem_of_nil|]. intros (k & _ & ? & _). lia.
  - cbn [row_inequalities]. rewrite elem_of_app, (IH rest (S j0)) by done. split.
    + intros [Hhead|(k & -> & Hk & Hs & Hdot)].
      * case_decide as Hdot; [by apply elem_of_nil in Hhead|].
        apply list_elem_of_singleton in Hhead as [= -> ->].
        exists 0. split; [lia|]. split; [lia|done].
      * exists (S k). split; [lia|]. split; [lia|].
        replace (2 * S k + 1) with (S (S (2 * k + 1))) by lia. done.
    + intros ([|k] & -> & Hk & Hs & Hdot).
      * left. simpl in Hs. injection Hs as ->. rewrite decide_False by done.
        rewrite Nat.add_0_r. left.
      * right. exists k. split; [lia|]. split; [lia|].
        replace (2 * S k + 1) with (S (S (2 * k + 1))) in Hs by lia. done.
Qed.

Lemma row_ok_inequalities n row j0 p :
  row_ok n row = true → p ∈ row_inequalities row j0 → p.1 = ">" ∨ p.1 = "<".
Proof.
  revert row j0. induction n as [|n IH]; intros row j0 H; [done|].
  apply row_ok_inv in H
    as [[[= ->] [z ->]]|(n' & z & s0 & rest & [= <-] & -> & Hs & Hrest)].
  - by intros ?%elem_of_nil.
  - cbn [row_inequalities]. intros [Hhead|Hrest']%elem_of_app; [|by eapply IH].
    case_decide as Hdot; [by apply elem_of_nil in Hhead|].
    apply list_elem_of_singleton in Hhead as ->. simpl.
    destruct Hs as [?|[?|?]]; [by left|by right|done].
Qed.

Lemma board_ok_shape b : board_ok b = true → board_shape b = true.
Proof.
  unfold board_ok, board_shape. rewrite !forallb_elem_of.
  intros H row Hrow. by apply row_ok_shape, H.
Qed.

Lemma board_ok_inequalities b s :
  board_ok b = true → s ∈ board_inequalities b → s = ">" ∨ s = "<".
Proof.
  unfold board_ok, board_inequalities. rewrite forallb_elem_of.
  intros H (row & Hs & Hrow)%list_elem_of_bind.
  apply list_elem_of_fmap in Hs as (p & -> & Hp).
  by eapply (row_ok_inequalities _ row 0 p), Hp; apply H.
Qed.

Lemma board_ok_symbols_known b : board_ok b = true → symbols_known b = true.
Proof.
  intros Hok. unfold symbols_known. apply forallb_elem_of. intros s Hs.
  apply bool_decide_eq_true.
  destruct (board_ok_inequalities b s Hok Hs) as [-> | ->]; by eexists.
Qed.

Lemma futoshiki_csp_model_1_board_ok b :
  board_ok b = true →
  futoshiki_csp_model_1 b =
  Some (extend (new_CSP "Futoshiki-M1" (board_variables b))
          (not_equal_constraints (length b) (board_variables b) ++
           inequality_constraints b (board_variables b)),
        variable_grid (length b)).
Proof.
  intros Hok. rewrite futoshiki_csp_model_1_spec by (by apply board_ok_shape).
  by rewrite board_ok_symbols_known.
Qed.

Lemma futoshiki_csp_model_2_board_ok b :
  board_ok b = true →
  futoshiki_csp_model_2 b =
  Some (extend (new_CSP "Futoshiki-M2" (board_variables b))
          (all_different_constraints (length b) (board_variables b) ++
           inequality_constraints b (board_variables b)),
        variable_grid (length b)).
Proof.
  intros Hok. rewrite futoshiki_csp_model_2_spec by (by apply board_ok_shape).
  by rewrite board_ok_symbols_known.
Qed.

(** *** Counting the constraints *)

Lemma length_bind_sum {A B} (f : A → list B) (l : list A) :
  length (l ≫= f) = sum_list ((λ x, length (f x)) <$> l).
Proof.
  induction l as [|x l IH]; [done|]. rewrite bind_cons, length_app, IH. done.
Qed.

Lemma sum_list_add_const (a : nat → nat) (c : nat) (l : list nat) :
  sum_list ((λ x, a x + c) <$> l) = sum_list (a <$> l) + length l * c.
Proof. induction l as [|x l IH]; [done|]. csimpl. rewrite IH. lia. Qed.

Lemma sum_list_const_add (a : nat → nat) (c : nat) (l : list nat) :
  sum_list ((λ x, c + a x) <$> l) = length l * c + sum_list (a <$> l).
Proof. induction l as [|x l IH]; [done|]. csimpl. rewrite IH. lia. Qed.

Lemma sum_list_descending n m :
  n ≤ m → 2 * sum_list ((λ c, m - (c + 1)) <$> seq 0 n) + n * (n + 1) = 2 * n * m.
Proof.
  induction n as [|n IH]; intros Hn; [done|].
  rewrite seq_S, fmap_app, sum_list_with_app. simpl.
  specialize (IH ltac:(lia)). nia.
Qed.

Lemma sum_list_fmap_ext {A} (f g : A → nat) (l : list A) :
  (∀ x, x ∈ l → f x = g x) → sum_list (f <$> l) = sum_list (g <$> l).
Proof.
  induction l as [|x l IH]; intros H; [done|]. csimpl.
  rewrite (H x) by left. rewrite IH; [done|]. intros y Hy. apply H. by right.
Qed.

Lemma sum_list_mul (a : nat → nat) (c : nat) (l : list nat) :
  sum_list ((λ x, c * a x) <$> l) = c * sum_list (a <$> l).
Proof. induction l as [|x l IH]; [simpl; lia|]. csimpl. rewrite IH. lia. Qed.

Lemma length_not_equal_constraints n vars :
  length (not_equal_constraints n vars) = n * n * (n - 1).
Proof.
  unfold not_equal_constraints. rewrite length_bind_sum.
  set (T := sum_list ((λ c, n - (c + 1)) <$> seq 0 n)).
  rewrite (sum_list_fmap_ext _ (λ i, T + n * (n - (i + 1)))).
  2:{ intros i _. rewrite length_bind_sum.
      rewrite (sum_list_fmap_ext _ (λ c, (n - (c + 1)) + (n - (i + 1)))).
      2:{ intros c _. by rewrite length_app, !length_fmap, !length_seq. }
      by rewrite (sum_list_add_const (λ c, n - (c + 1)) (n - (i + 1))), length_seq. }
  rewrite (sum_list_const_add (λ i, n * (n - (i + 1))) T), length_seq.
  rewrite (sum_list_mul (λ i, n - (i + 1)) n). fold T.
  pose proof (sum_list_descending n n ltac:(lia)) as H. fold T in H.
  destruct n as [|n]; [done|]. simpl (S n - 1). rewrite Nat.sub_0_r. nia.
Qed.


Lemma length_inequality_constraints b vars :
  length (inequality_constraints b vars) = length (board_inequalities b).
Proof.
  assert (∀ (rows : board) n k,
    length (zip (seq k (length rows)) rows ≫= λ '(i, row),
              (λ '(s, j), materialized vars s [i * n + j; i * n + (j + 1)])
                <$> row_inequalities row 0) =
    length (rows ≫= λ row, fst <$> row_inequalities row 0)) as H.
  { induction rows as [|row rows IH]; intros n k; [done|].
    cbn [length seq zip zip_with]. rewrite !bind_cons, !length_app, !length_fmap.
    by rewrite IH. }
  apply H.
Qed.

(** *** The constraints of the encoders, one by one *)

Lemma elem_of_not_equal_constraints n vars c :
  c ∈ not_equal_constraints n vars ↔
  ∃ i cur_item, i < n ∧ cur_item < n ∧
    ((∃ j, cur_item < j < n ∧
           c = materialized vars "not_equal" [i * n + cur_item; i * n + j]) ∨
     (∃ k, i < k < n ∧
           c = materialized vars "not_equal" [i * n + cur_item; k * n + cur_item])).
Proof.
  unfold not_equal_constraints. rewrite list_elem_of_bind. split.
  - intros (i & Hc & Hi). apply elem_of_seq in Hi.
    apply list_elem_of_bind in Hc as (cur & Hc & Hcur). apply elem_of_seq in Hcur.
    exists i, cur. split; [lia|]. split; [lia|].
    apply elem_of_app in Hc as [Hc|Hc];
      apply list_elem_of_fmap in Hc as (x & -> & Hx); apply elem_of_seq in Hx.
    + left. exists x. split; [lia|done].
    + right. exists x. split; [lia|done].
  - intros (i & cur & Hi & Hcur & H). exists i. split; [|apply elem_of_seq; lia].
    apply list_elem_of_bind. exists cur. split; [|apply elem_of_seq; lia].
    apply elem_of_app. destruct H as [(j & Hj & ->)|(k & Hk & ->)]; [left|right];
      apply list_elem_of_fmap; eexists; (split; [done|apply elem_of_seq; lia]).
Qed.

Lemma elem_of_all_different_constraints n vars c :
  c ∈ all_different_constraints n vars ↔
  (∃ i, i < n ∧ c = materialized vars "all_different" (seq (i * n) n)) ∨
  (∃ j, j < n ∧ c = materialized vars "all_different" ((λ i, i * n + j) <$> seq 0 n)).
Proof.
  unfold all_different_constraints. rewrite elem_of_app, !list_elem_of_fmap.
  split.
  - intros [(i & -> & Hi)|(j & -> & Hj)]; [left|right]; eexists;
      (split; [|done]); by apply elem_of_seq in Hi || apply elem_of_seq in Hj; lia.
  - intros [(i & Hi & ->)|(j & Hj & ->)]; [left|right]; eexists;
      (split; [done|]); apply elem_of_seq; lia.
Qed.

Lemma elem_of_inequality_constraints b vars c :
  board_shape b = true →
  c ∈ inequality_constraints b vars ↔
  ∃ i j s, i < length b ∧ j + 1 < length b ∧
           board_symbol b i j = Some (Sym s) ∧ s ≠ "." ∧
           c = materialized vars s [i * length b + j; i * length b + (j + 1)].
Proof.
  intros Hok. unfold inequality_constraints. rewrite list_elem_of_bind. split.
  - intros ([i row] & Hc & Hin). apply elem_of_enumerate in Hin.
    apply list_elem_of_fmap in Hc as ([s j] & -> & Hsj).
    apply (row_inequalities_elem (length b)) in Hsj as (k & -> & Hk & Hs & Hdot);
      [|by eapply board_shape_row].
    exists i, k, s. split; [by eapply lookup_lt_Some|]. split; [done|].
    split; [|done]. unfold board_symbol, board in *. by rewrite Hin.
  - intros (i & j & s & Hi & Hj & Hs & Hdot & ->).
    unfold board_symbol, board in *.
    destruct (b !! i) as [row|] eqn:Hrow; [|done]. simpl in Hs.
    exists (i, row). split; [|by apply elem_of_enumerate].
    apply list_elem_of_fmap. exists (s, j). split; [done|].
    apply (row_inequalities_elem (length b)); [by eapply board_shape_row|].
    exists j. done.
Qed.

(** *** The models the encoders build are well formed *)

Lemma materialized_tuples vars name sc :
  Forall (λ t, length t = length sc) (sat_tuples (materialized vars name sc)).
Proof.
  apply Forall_forall. intros t Ht. simpl in Ht.
  apply list_elem_of_filter in Ht as [_ Ht].
  apply length_product in Ht. by rewrite length_fmap in Ht.
Qed.

Lemma NoDup_pair {A} (a b : A) : a ≠ b → NoDup [a; b].
Proof.
  intros Hne. apply NoDup_cons. split; [by intros ->%list_elem_of_singleton|].
  apply NoDup_singleton.
Qed.

Lemma cell_pair_well_scoped n vars name i j i' j' :
  i < n → j < n → i' < n → j' < n → (i, j) ≠ (i', j') →
  well_scoped n (materialized vars name [i * n + j; i' * n + j']).
Proof.
  intros Hi Hj Hi' Hj' Hne. split; [|split; [done|split]].
  - apply NoDup_pair. simpl. intros Heq. apply Hne.
    assert (i = i') as -> by nia. f_equal. lia.
  - simpl. repeat constructor; eauto 10.
  - apply materialized_tuples.
Qed.

Lemma not_equal_well_scoped n vars :
  Forall (well_scoped n) (not_equal_constraints n vars).
Proof.
  apply Forall_forall. intros c Hc.
  apply elem_of_not_equal_constraints in Hc
    as (i & cur & Hi & Hcur & [(j & Hj & ->)|(k & Hk & ->)]).
  - apply cell_pair_well_scoped; [lia..|]. intros [= ?]. lia.
  - apply cell_pair_well_scoped; [lia..|]. intros [= ?]. lia.
Qed.

Lemma inequality_well_scoped b vars :
  board_shape b = true →
  Forall (well_scoped (length b)) (inequality_constraints b vars).
Proof.
  intros Hok. apply Forall_forall. intros c Hc.
  apply elem_of_inequality_constraints in Hc
    as (i & j & s & Hi & Hj & _ & _ & ->); [|done].
  apply cell_pair_well_scoped; [lia..|]. intros [= ?]. lia.
Qed.

Lemma all_different_well_scoped n vars :
  Forall (well_scoped n) (all_different_constraints n vars).
Proof.
  apply Forall_forall. intros c Hc.
  apply elem_of_all_different_constraints in Hc as [(i & Hi & ->)|(j & Hj & ->)].
  - split; [apply NoDup_seq|]. split; [simpl; by destruct n; [lia|]|].
    split; [|apply materialized_tuples].
    apply Forall_forall. intros v Hv. simpl in Hv. apply elem_of_seq in Hv.
    exists i, (v - i * n). split; [done|]. split; lia.
  - split; [|split; [simpl; by destruct n; [lia|]|split; [|apply materialized_tuples]]].
    + apply NoDup_fmap_2_strong; [|apply NoDup_seq]. intros x y _ _ Heq. nia.
    + apply Forall_forall. intros v Hv. simpl in Hv.
      apply list_elem_of_fmap in Hv as (i & -> & Hi). apply elem_of_seq in Hi.
      exists i, j. split; [lia|done].
Qed.

(** *** A freshly built model *)

Lemma board_variables_new b v :
  ∃ name d, board_variables b !!! v = new_Variable name d.
Proof.
  assert (Forall (λ x, ∃ name d, x = new_Variable name d) (board_variables b)) as Hall.
  { unfold board_variables. apply Forall_bind, Forall_forall. intros [i row] _.
    apply Forall_fmap, Forall_forall. intros [j z] _. simpl. eauto. }
  rewrite list_lookup_total_alt. destruct (board_variables b !! v) as [x|] eqn:Hx.
  - rewrite Forall_lookup in Hall. by apply (Hall v).
  - by exists "", [].
Qed.

Lemma fresh_get_var b name l v :
  get_var (extend (new_CSP name (board_variables b)) l) v = board_variables b !!! v.
Proof. done. Qed.

Lemma fresh_unassigned b name l v :
  get_assigned_value (get_var (extend (new_CSP name (board_variables b)) l) v) = None.
Proof.
  rewrite fresh_get_var. by destruct (board_variables_new b v) as (nm & d & ->).
Qed.

Lemma fresh_cur_domain b name l v :
  cur_domain (get_var (extend (new_CSP name (board_variables b)) l) v) =
  domain (board_variables b !!! v).
Proof.
  rewrite fresh_get_var. by destruct (board_variables_new b v) as (nm & d & ->).
Qed.

Lemma cell_domain_NoDup n z : NoDup (cell_domain n z).
Proof.
  unfold cell_domain. destruct (z =? 0)%Z; [|apply NoDup_singleton].
  apply NoDup_fmap_2_strong; [|apply NoDup_seq]. intros x y _ _ ?. lia.
Qed.

Lemma fresh_domains_nodup b name l :
  domains_nodup (extend (new_CSP name (board_variables b)) l).
Proof.
  unfold domains_nodup, board_variables. simpl.
  apply Forall_bind, Forall_forall. intros [i row] _.
  apply Forall_fmap, Forall_forall. intros [j z] _. simpl. apply cell_domain_NoDup.
Qed.

Lemma fresh_constraints_wf b name l :
  Forall (well_scoped (length b)) l →
  constraints_wf (extend (new_CSP name (board_variables b)) l).
Proof.
  intros Hl. unfold constraints_wf. simpl. eapply Forall_impl; [done|].
  by intros c (? & _ & _ & ?).
Qed.

Lemma fresh_consistent b name l :
  board_shape b = true → Forall (well_scoped (length b)) l →
  consistent_assignments (extend (new_CSP name (board_variables b)) l).
Proof.
  intros Hok Hl. unfold consistent_assignments. apply Forall_forall. intros c Hc.
  left. apply get_con_elem in Hc. simpl in Hc.
  rewrite Forall_forall in Hl. destruct (Hl _ Hc) as (_ & Hne & Hcells & _).
  unfold open_constraint, get_scope.
  destruct (scope (get_con _ c)) as [|u sc] eqn:Hsc; [done|].
  apply Exists_cons_hd. split; [apply fresh_unassigned|].
  rewrite fresh_cur_domain.
  apply Forall_cons in Hcells as [(i & j & Hi & Hj & ->) _].
  by apply board_variables_domain.
Qed.

(** *** The solutions of the models are the solutions of the puzzle *)

Lemma product_fmap_elem (vars : list variable) (σ : list Z) (sc : list nat) :
  (σ !!!.) <$> sc ∈ product ((λ v, domain (vars !!! v)) <$> sc) ↔
  Forall (λ v, σ !!! v ∈ domain (vars !!! v)) sc.
Proof.
  rewrite elem_of_product. induction sc as [|v sc IH]; csimpl.
  - split; constructor.
  - rewrite Forall2_cons, Forall_cons, IH. done.
Qed.

Lemma materialized_meets vars σ name sc :
  (σ !!!.) <$> sc ∈ sat_tuples (materialized vars name sc) ↔ meets vars σ name sc.
Proof.
  unfold meets. simpl. rewrite list_elem_of_filter, product_fmap_elem. tauto.
Qed.

Lemma fresh_solution b name l σ :
  (∀ c, c ∈ l → ∃ tag sc, c = materialized (board_variables b) tag sc) →
  solution (extend (new_CSP name (board_variables b)) l) σ ↔
  ∀ tag sc, materialized (board_variables b) tag sc ∈ l →
            meets (board_variables b) σ tag sc.
Proof.
  intros Hl. unfold solution. simpl. rewrite Forall_forall. split.
  - intros H tag sc Hin. destruct (H _ Hin) as [_ Hsat].
    by apply materialized_meets in Hsat.
  - intros H c Hc. destruct (Hl c Hc) as (tag & sc & ->).
    specialize (H tag sc Hc). split; [|by apply materialized_meets].
    destruct H as [Hdom _]. eapply Forall_impl; [done|]. intros v Hv. simpl in *.
    by rewrite (fresh_cur_domain b name l v).
Qed.

Lemma operator_holds_not_equal a b :
  operator_holds "not_equal" [a; b] = true ↔ a ≠ b.
Proof.
  rewrite operator_holds_spec. unfold satisfies_operator. split.
  - intros [[[=] _]|[[[=] _]|[[_ (x & y & [= <-] & [= <-] & ?)]|[[=] _]]]]. done.
  - intros ?. right. right. left. split; [done|]. by exists a, b.
Qed.

Lemma operator_holds_lt a b :
  operator_holds "<" [a; b] = true ↔ (a < b)%Z.
Proof.
  rewrite operator_holds_spec. unfold satisfies_operator. split.
  - intros [[[=] _]|[[_ (x & y & [= <-] & [= <-] & ?)]|[[[=] _]|[[=] _]]]]. done.
  - intros ?. right. left. split; [done|]. by exists a, b.
Qed.

Lemma operator_holds_gt a b :
  operator_holds ">" [a; b] = true ↔ (a > b)%Z.
Proof.
  rewrite operator_holds_spec. unfold satisfies_operator. split.
  - intros [[_ (x & y & [= <-] & [= <-] & ?)]|[[[=] _]|[[[=] _]|[[=] _]]]]. done.
  - intros ?. left. split; [done|]. by exists a, b.
Qed.

Lemma operator_holds_all_different t :
  operator_holds "all_different" t = true ↔ NoDup t.
Proof.
  rewrite operator_holds_spec, NoDup_pairwise. unfold satisfies_operator. split.
  - intros [[[=] _]|[[[=] _]|[[[=] _]|[_ ?]]]]. done.
  - intros ?. by do 3 right.
Qed.

Lemma materialized_inj vars tag sc tag' sc' :
  materialized vars tag sc = materialized vars tag' sc' → tag = tag' ∧ sc = sc'.
Proof. by intros [= -> ->]. Qed.

Lemma board_ok_symbol b i j s :
  board_ok b = true → i < length b → j + 1 < length b →
  board_symbol b i j = Some (Sym s) → s = ">" ∨ s = "<" ∨ s = ".".
Proof.
  intros Hok Hi Hj Hs. destruct (decide (s = ".")) as [->|Hdot]; [by do 2 right|].
  unfold board_symbol, board in *.
  destruct (b !! i) as [row|] eqn:Hrow; [|done]. simpl in Hs.
  assert (row_ok (length b) row = true) as Hrok.
  { unfold board_ok in Hok. rewrite forallb_elem_of in Hok. apply Hok.
    by eapply list_elem_of_lookup_2. }
  assert ((s, j) ∈ row_inequalities row 0) as Hin.
  { apply (row_inequalities_elem (length b)); [by apply row_ok_shape|]. by exists j. }
  destruct (row_ok_inequalities _ _ _ _ Hrok Hin) as [?|?]; [by left|by right; left].
Qed.

Lemma cell_meets b σ i j :
  board_shape b = true → futoshiki_rules b σ → i < length b → j < length b →
  σ !!! (i * length b + j) ∈ domain (board_variables b !!! (i * length b + j)).
Proof.
  intros Hok (Hdom & _) Hi Hj.
  destruct (board_variables_total b i j Hok Hi Hj) as (z & Hz & ->).
  simpl. by apply Hdom.
Qed.

Lemma pair_meets b σ i j i' j' :
  board_shape b = true → futoshiki_rules b σ →
  i < length b → j < length b → i' < length b → j' < length b →
  Forall (λ v, σ !!! v ∈ domain (board_variables b !!! v))
    [i * length b + j; i' * length b + j'].
Proof.
  intros. apply Forall_cons. split; [by apply cell_meets|].
  apply Forall_cons. split; [by apply cell_meets|constructor].
Qed.

Lemma meets_cell b σ i j z tag sc :
  board_shape b = true → i < length b → j < length b →
  board_cell b i j = Some (Num z) →
  meets (board_variables b) σ tag sc → i * length b + j ∈ sc →
  σ !!! (i * length b + j) ∈ cell_domain (length b) z.
Proof.
  intros Hok Hi Hj Hz [Hdom _] Hin. rewrite Forall_forall in Hdom.
  specialize (Hdom _ Hin).
  destruct (board_variables_total b i j Hok Hi Hj) as (z' & Hz' & Hv).
  rewrite Hv in Hdom. simpl in Hdom. congruence.
Qed.

Lemma inequality_meets b σ :
  board_ok b = true → futoshiki_rules b σ →
  ∀ tag sc, materialized (board_variables b) tag sc ∈
              inequality_constraints b (board_variables b) →
            meets (board_variables b) σ tag sc.
Proof.
  intros Hok Hrules tag sc Hin. pose proof (board_ok_shape b Hok) as Hshape.
  apply elem_of_inequality_constraints in Hin
    as (i & j & s & Hi & Hj & Hs & Hdot & Heq); [|done].
  apply materialized_inj in Heq as [-> ->].
  split; [apply pair_meets; done || lia|].
  destruct Hrules as (_ & _ & _ & Hlt & Hgt). simpl.
  destruct (board_ok_symbol b i j s Hok Hi Hj Hs) as [-> | [-> | ->]]; [| |done].
  - apply operator_holds_gt. by apply Hgt.
  - apply operator_holds_lt. by apply Hlt.
Qed.

Lemma meets_inequalities b σ :
  board_shape b = true →
  (∀ tag sc, materialized (board_variables b) tag sc ∈
               inequality_constraints b (board_variables b) →
             meets (board_variables b) σ tag sc) →
  (∀ i j, i < length b → j + 1 < length b → board_symbol b i j = Some (Sym "<") →
          (σ !!! (i * length b + j)%nat < σ !!! (i * length b + (j + 1))%nat)%Z) ∧
  (∀ i j, i < length b → j + 1 < length b → board_symbol b i j = Some (Sym ">") →
          (σ !!! (i * length b + j)%nat > σ !!! (i * length b + (j + 1))%nat)%Z).
Proof.
  intros Hshape H. split; intros i j Hi Hj Hs.
  - destruct (H "<" [i * length b + j; i * length b + (j + 1)]) as [_ Hop].
    { apply elem_of_inequality_constraints; [done|]. by exists i, j, "<". }
    by apply operator_holds_lt in Hop.
  - destruct (H ">" [i * length b + j; i * length b + (j + 1)]) as [_ Hop].
    { apply elem_of_inequality_constraints; [done|]. by exists i, j, ">". }
    by apply operator_holds_gt in Hop.
Qed.

Lemma all_materialized_not_equal n vars c :
  c ∈ not_equal_constraints n vars → ∃ tag sc, c = materialized vars tag sc.
Proof.
  intros (i & cur & _ & _ & [(j & _ & ->)|(k & _ & ->)])%elem_of_not_equal_constraints;
    eauto.
Qed.

Lemma all_materialized_all_different n vars c :
  c ∈ all_different_constraints n vars → ∃ tag sc, c = materialized vars tag sc.
Proof.
  intros [(i & _ & ->)|(j & _ & ->)]%elem_of_all_different_constraints; eauto.
Qed.

Lemma all_materialized_inequality b vars c :
  board_shape b = true →
  c ∈ inequality_constraints b vars → ∃ tag sc, c = materialized vars tag sc.
Proof.
  intros Hok (i & j & s & _ & _ & _ & _ & ->)%elem_of_inequality_constraints; eauto.
Qed.

Lemma model_1_solution b σ :
  board_ok b = true → 2 ≤ length b →
  solution (extend (new_CSP "Futoshiki-M1" (board_variables b))
              (not_equal_constraints (length b) (board_variables b) ++
               inequality_constraints b (board_variables b))) σ ↔
  futoshiki_rules b σ.
Proof.
  intros Hok Hn. pose proof (board_ok_shape b Hok) as Hshape.
  rewrite fresh_solution.
  2:{ intros c [Hc|Hc]%elem_of_app;
        [by eapply all_materialized_not_equal|by eapply all_materialized_inequality]. }
  set (n := length b) in *. set (vars := board_variables b).
  split.
  - intros H.
    assert (∀ i cur j, i < n → cur < j → j < n →
              meets vars σ "not_equal" [i * n + cur; i * n + j]) as Hrow.
    { intros i cur j Hi Hcur Hj. apply H, elem_of_app. left.
      apply elem_of_not_equal_constraints. exists i, cur.
      split; [done|]. split; [lia|]. left. exists j. split; [lia|done]. }
    assert (∀ i k cur, i < k → k < n → cur < n →
              meets vars σ "not_equal" [i * n + cur; k * n + cur]) as Hcol.
    { intros i k cur Hi Hk Hcur. apply H, elem_of_app. left.
      apply elem_of_not_equal_constraints. exists i, cur.
      split; [lia|]. split; [done|]. right. exists k. split; [lia|done]. }
    split; [|split; [|split]].
    + intros i j z Hi Hj Hz.
      destruct (decide (j + 1 < n)) as [Hlt|Hge].
      * eapply (meets_cell b σ i j z); [done..|apply (Hrow i j (j + 1)); lia|left].
      * eapply (meets_cell b σ i j z); [done..|apply (Hrow i (j - 1) j); lia|].
        right. left.
    + intros i j j' Hi Hj Hj'. destruct (Hrow i j j') as [_ Hop]; [done..|].
      by apply operator_holds_not_equal in Hop.
    + intros i i' j Hi Hi' Hj. destruct (Hcol i i' j) as [_ Hop]; [done..|].
      by apply operator_holds_not_equal in Hop.
    + apply meets_inequalities; [done|]. intros tag sc Hin. apply H, elem_of_app.
      by right.
  - intros Hrules tag sc [Hin|Hin]%elem_of_app; [|by apply inequality_meets].
    pose proof Hrules as (_ & Hrow & Hcol & _).
    apply elem_of_not_equal_constraints in Hin
      as (i & cur & Hi & Hcur & [(j & Hj & Heq)|(k & Hk & Heq)]);
      apply materialized_inj in Heq as [-> ->].
    + split; [apply pair_meets; done || (fold n; lia)|].
      apply operator_holds_not_equal. apply Hrow; lia.
    + split; [apply pair_meets; done || (fold n; lia)|].
      apply operator_holds_not_equal. apply Hcol; lia.
Qed.

Lemma NoDup_fmap_seq (σ : list Z) (f : nat → nat) n :
  NoDup ((σ !!!.) <$> (f <$> seq 0 n)) ↔
  ∀ j j', j < j' → j' < n → σ !!! f j ≠ σ !!! f j'.
Proof.
  rewrite NoDup_pairwise. split.
  - intros H j j' Hj Hj'. apply (H j j'); [done|..];
      rewrite !list_lookup_fmap, lookup_seq_lt by lia; done.
  - intros H j j' x y Hlt Hx Hy.
    rewrite !list_lookup_fmap in Hx, Hy.
    destruct (seq 0 n !! j) as [k|] eqn:Hk; [|done].
    destruct (seq 0 n !! j') as [k'|] eqn:Hk'; [|done].
    apply lookup_seq in Hk as [-> ?]. apply lookup_seq in Hk' as [-> ?].
    simpl in *. injection Hx as <-. injection Hy as <-. apply H; lia.
Qed.

Lemma seq_shift_fmap k n : seq k n = (λ j, k + j) <$> seq 0 n.
Proof. by rewrite fmap_add_seq, Nat.add_0_r. Qed.

Lemma model_2_solution b σ :
  board_ok b = true →
  solution (extend (new_CSP "Futoshiki-M2" (board_variables b))
              (all_different_constraints (length b) (board_variables b) ++
               inequality_constraints b (board_variables b))) σ ↔
  futoshiki_rules b σ.
Proof.
  intros Hok. pose proof (board_ok_shape b Hok) as Hshape.
  rewrite fresh_solution.
  2:{ intros c [Hc|Hc]%elem_of_app;
        [by eapply all_materialized_all_different|by eapply all_materialized_inequality]. }
  set (n := length b) in *. set (vars := board_variables b).
  split.
  - intros H.
    assert (∀ i, i < n → meets vars σ "all_different" (seq (i * n) n)) as Hrow.
    { intros i Hi. apply H, elem_of_app. left.
      apply elem_of_all_different_constraints. left. by exists i. }
    assert (∀ j, j < n →
              meets vars σ "all_different" ((λ i, i * n + j) <$> seq 0 n)) as Hcol.
    { intros j Hj. apply H, elem_of_app. left.
      apply elem_of_all_different_constraints. right. by exists j. }
    split; [|split; [|split]].
    + intros i j z Hi Hj Hz.
      eapply (meets_cell b σ i j z); [done..|by apply (Hrow i)|].
      apply elem_of_seq. fold n. lia.
    + intros i j j' Hi Hj Hj'. destruct (Hrow i Hi) as [_ Hop].
      apply operator_holds_all_different in Hop.
      rewrite (seq_shift_fmap (i * n) n) in Hop.
      by apply (NoDup_fmap_seq σ (λ j, i * n + j) n).
    + intros i i' j Hi Hi' Hj. destruct (Hcol j Hj) as [_ Hop].
      apply operator_holds_all_different in Hop.
      by apply (NoDup_fmap_seq σ (λ i, i * n + j) n).
    + apply meets_inequalities; [done|]. intros tag sc Hin. apply H, elem_of_app.
      by right.
  - intros Hrules tag sc [Hin|Hin]%elem_of_app; [|by apply inequality_meets].
    pose proof Hrules as (_ & Hrow & Hcol & _).
    apply elem_of_all_different_constraints in Hin
      as [(i & Hi & Heq)|(j & Hj & Heq)]; apply materialized_inj in Heq as [-> ->].
    + split.
      * apply Forall_forall. intros v Hv. apply elem_of_seq in Hv.
        replace v with (i * n + (v - i * n)) by lia.
        apply cell_meets; [done|done|done|fold n; lia].
      * apply operator_holds_all_different.
        rewrite (seq_shift_fmap (i * n) n).
        apply (NoDup_fmap_seq σ (λ j, i * n + j) n). intros j j' ??. by apply Hrow.
    + split.
      * apply Forall_forall. intros v (i & -> & Hi)%list_elem_of_fmap.
        apply elem_of_seq in Hi. apply cell_meets; [done|done|fold n; lia|done].
      * apply operator_holds_all_different.
        apply (NoDup_fmap_seq σ (λ i, i * n + j) n). intros i i' ??. by apply Hcol.
Qed.

(** *** The materializer: the check of tuples and its errors *)

(** X1. [all_different_check] returns True exactly when no two positions
    of the tuple hold the same value; in particular on the empty tuple and
    on a tuple of one value. *)
Theorem all_different_check_pairwise t :
  all_different_check t = true ↔
  ∀ i j x y, i < j → t !! i = Some x → t !! j = Some y → x ≠ y.
Proof. rewrite all_different_check_NoDup. apply NoDup_pairwise. Qed.

Lemma product_nil domains :
  Exists (λ d, d = []) domains → product domains = [].
Proof.
  induction 1 as [d domains ->|d domains _ IH]; simpl; [done|].
  rewrite IH. clear. induction d as [|x d IHd]; [done|]. by rewrite bind_cons, IHd.
Qed.

Lemma product_cons domains :
  Forall (λ d, d ≠ []) domains →
  ∃ t ts, product domains = t :: ts ∧ length t = length domains.
Proof.
  induction 1 as [|d domains Hd _ (t & ts & Ht & Hlen)]; simpl; [by exists [], []|].
  destruct d as [|x d]; [done|]. rewrite bind_cons, Ht. csimpl.
  eexists _, _. split; [done|]. simpl. by rewrite Hlen.
Qed.

Lemma switch_short name f t :
  switch name = Some f → name ≠ "all_different" → length t < 2 → f t = None.
Proof.
  unfold switch. intros Hf Hname Hlen.
  assert (t !! 1 = None) as H1 by (apply lookup_ge_None; lia).
  repeat case_decide; simplify_eq;
    unfold switch_gt, switch_lt, switch_not_equal; rewrite H1;
    by destruct (t !! 0).
Qed.

(** X2. [check_constraint_add_tuples] raises exactly when there is a tuple
    to test, that is when every scope variable has a non-empty original
    domain, and either the tag of the constraint is no key of [switch] or
    the tag is one of the binary operators and the scope has fewer than two
    variables.  With an empty domain in the scope it returns without
    looking at the tag. *)
Theorem check_constraint_add_tuples_raises csp_variables c :
  check_constraint_add_tuples csp_variables c = None ↔
  Forall (λ d, d ≠ []) (scope_domains csp_variables c) ∧
  (switch (cname c) = None ∨ (cname c ≠ "all_different" ∧ length (scope c) < 2)).
Proof.
  split.
  - intros Hnone.
    destruct (decide (Forall (λ d, d ≠ []) (scope_domains csp_variables c))) as [Hall|Hex].
    2:{ exfalso. apply not_Forall_Exists in Hex; [|apply _].
        unfold check_constraint_add_tuples in Hnone. unfold scope_domains in Hex.
        rewrite product_nil in Hnone; [by simpl in Hnone|].
        eapply Exists_impl; [exact Hex|]. intros d Hd. simpl in Hd.
        destruct d; [done|]. by destruct Hd. }
    split; [done|].
    destruct (switch (cname c)) as [f|] eqn:Hsw; [|by left]. right.
    assert (known_tag (cname c)) as Hk by (apply known_tag_switch; by rewrite Hsw).
    destruct (decide (cname c = "all_different")) as [Hall'|Hne].
    { by rewrite check_constraint_add_tuples_filter in Hnone. }
    split; [done|].
    destruct (decide (length (scope c) < 2)) as [?|Hlen]; [done|].
    rewrite check_constraint_add_tuples_filter in Hnone; [done|done|lia].
  - intros [Hall Hbad]. unfold check_constraint_add_tuples.
    destruct (product_cons _ Hall) as (t & ts & Ht & Hlen).
    unfold scope_domains in Ht. rewrite Ht.
    unfold scope_domains in Hlen. rewrite length_fmap in Hlen. simpl.
    destruct (switch (cname c)) as [f|] eqn:Hsw; [|done]. simpl.
    destruct Hbad as [?|[Hne Hshort]]; [done|].
    rewrite (switch_short (cname c) f t); [done|done|done|lia].
Qed.

(** *** The variables of the encoders *)

(** X3. On a board in the input format both encoders build the same
    variables and the same variable array: [n * n] variables, row by row,
    where the cell in row [i] and column [j] is variable [i * n + j], named
    ["Vi,j"], with the domain [1..n] when the board holds 0 there and the
    one value of the board otherwise. *)
Theorem encoders_variables b i j :
  board_ok b = true → i < length b → j < length b →
  ∃ csp1 csp2 variable_array z,
    futoshiki_csp_model_1 b = Some (csp1, variable_array) ∧
    futoshiki_csp_model_2 b = Some (csp2, variable_array) ∧
    csp_vars csp2 = csp_vars csp1 ∧
    length (csp_vars csp1) = length b * length b ∧
    length variable_array = length b ∧
    cell variable_array i j = Some (i * length b + j) ∧
    board_cell b i j = Some (Num z) ∧
    csp_vars csp1 !! (i * length b + j) =
      Some (new_Variable ("V" +:+ pretty i +:+ "," +:+ pretty j)
              (cell_domain (length b) z)).
Proof.
  intros Hok Hi Hj. pose proof (board_ok_shape b Hok) as Hshape.
  destruct (board_variables_lookup b i j Hshape Hi Hj) as (z & Hz & Hv).
  eexists _, _, _, z.
  split; [by apply futoshiki_csp_model_1_board_ok|].
  split; [by apply futoshiki_csp_model_2_board_ok|].
  split; [done|]. split; [by apply length_board_variables|].
  split; [unfold variable_grid; by rewrite length_fmap, length_seq|].
  split; [by apply cell_variable_grid|]. done.
Qed.

(** *** The constraints of the encoders *)

Lemma take_drop_app_length {A} (l k : list A) n :
  length l = n → take n (l ++ k) = l ∧ drop n (l ++ k) = k.
Proof. intros <-. by rewrite take_app_length, drop_app_length. Qed.

Lemma inequality_tags b vars :
  board_ok b = true →
  Forall (λ c, (cname c = "<" ∨ cname c = ">") ∧
               ∃ u, scope c = [u; u + 1] ∧ u + 1 < length b * length b)
    (inequality_constraints b vars).
Proof.
  intros Hok. apply Forall_forall. intros c Hc.
  apply elem_of_inequality_constraints in Hc
    as (i & j & s & Hi & Hj & Hs & Hdot & ->); [|by apply board_ok_shape].
  split.
  - destruct (board_ok_symbol b i j s Hok Hi Hj Hs) as [-> | [-> | ->]];
      [by right|by left|done].
  - exists (i * length b + j). simpl. split; [do 2 f_equal; lia|nia].
Qed.


(** X4. On a board of size [n] in the input format, model 1 has
    [n * n * (n - 1)] not-equal constraints followed by one constraint per
    inequality of the board; every constraint is binary, over two distinct
    variables of the model. *)
Theorem futoshiki_csp_model_1_constraints b :
  board_ok b = true →
  let n := length b in
  ∃ csp variable_array,
    futoshiki_csp_model_1 b = Some (csp, variable_array) ∧
    length (csp_cons csp) = n * n * (n - 1) + length (board_inequalities b) ∧
    Forall (λ c, ∃ u v, scope c = [u; v] ∧ u ≠ v ∧ u < n * n ∧ v < n * n)
      (csp_cons csp) ∧
    Forall (λ c, cname c = "not_equal") (take (n * n * (n - 1)) (csp_cons csp)) ∧
    Forall (λ c, cname c = "<" ∨ cname c = ">") (drop (n * n * (n - 1)) (csp_cons csp)).
Proof.
  intros Hok n. subst n. pose proof (board_ok_shape b Hok) as Hshape.
  eexists _, _. split; [by apply futoshiki_csp_model_1_board_ok|].
  unfold extend, new_CSP. cbn [csp_cons app].
  destruct (take_drop_app_length
              (not_equal_constraints (length b) (board_variables b))
              (inequality_constraints b (board_variables b)) (length b * length b * (length b - 1))
              (length_not_equal_constraints _ _)) as [-> ->].
  split; [|split; [|split]].
  - by rewrite length_app, length_not_equal_constraints, length_inequality_constraints.
  - apply Forall_app. split.
    + apply Forall_forall. intros c Hc.
      apply elem_of_not_equal_constraints in Hc
        as (i & cur & Hi & Hcur & [(j & Hj & ->)|(k & Hk & ->)]); simpl;
        eexists _, _; (split; [done|]); (split; [nia|split; nia]).
    + eapply Forall_impl; [by apply inequality_tags|].
      intros c [_ (u & -> & Hu)]. exists u, (u + 1).
      split; [done|]. split; [lia|]. split; lia.
  - apply Forall_forall. intros c Hc.
    apply elem_of_not_equal_constraints in Hc
      as (i & cur & Hi & Hcur & [(j & Hj & ->)|(k & Hk & ->)]); done.
  - eapply Forall_impl; [by apply inequality_tags|]. by intros c [? _].
Qed.


(** *** The solutions of the models *)

(** X6. The solutions of model 1 of a board of size at least 2 in the
    input format are the fillings that obey the rules of the puzzle: values
    from the domains of the cells, no value twice in a row or a column, and
    the inequalities of the board. *)
Theorem futoshiki_csp_model_1_solutions b σ :
  board_ok b = true → 2 ≤ length b →
  ∃ csp variable_array,
    futoshiki_csp_model_1 b = Some (csp, variable_array) ∧
    (solution csp σ ↔ futoshiki_rules b σ).
Proof.
  intros Hok Hn. eexists _, _. split; [by apply futoshiki_csp_model_1_board_ok|].
  by apply model_1_solution.
Qed.

(** X7. The solutions of model 2 of a board in the input format are the
    fillings that obey the rules of the puzzle. *)
Theorem futoshiki_csp_model_2_solutions b σ :
  board_ok b = true →
  ∃ csp variable_array,
    futoshiki_csp_model_2 b = Some (csp, variable_array) ∧
    (solution csp σ ↔ futoshiki_rules b σ).
Proof.
  intros Hok. eexists _, _. split; [by apply futoshiki_csp_model_2_board_ok|].
  by apply model_2_solution.
Qed.

(** X8. On a board of size at least 2 in the input format the two models
    have the same solutions. *)
Theorem encoders_same_solutions b σ :
  board_ok b = true → 2 ≤ length b →
  ∃ csp1 csp2 variable_array,
    futoshiki_csp_model_1 b = Some (csp1, variable_array) ∧
    futoshiki_csp_model_2 b = Some (csp2, variable_array) ∧
    (solution csp1 σ ↔ solution csp2 σ).
Proof.
  intros Hok Hn. eexists _, _, _.
  split; [by apply futoshiki_csp_model_1_board_ok|].
  split; [by apply futoshiki_csp_model_2_board_ok|].
  by rewrite model_1_solution, model_2_solution.
Qed.

(** *** Strings that are no operator *)

Lemma elem_of_board_inequalities b s :
  board_shape b = true →
  s ∈ board_inequalities b ↔
  ∃ i j, i < length b ∧ j + 1 < length b ∧
         board_symbol b i j = Some (Sym s) ∧ s ≠ ".".
Proof.
  intros Hok. unfold board_inequalities. rewrite list_elem_of_bind. split.
  - intros (row & Hs & Hrow). apply list_elem_of_fmap in Hs as ([s' j] & -> & Hp).
    apply list_elem_of_lookup_1 in Hrow as [i Hi].
    apply (row_inequalities_elem (length b)) in Hp as (k & -> & Hk & Hs & Hdot);
      [|by eapply board_shape_row].
    exists i, k. split; [by eapply lookup_lt_Some|]. split; [done|].
    split; [|done]. unfold board_symbol, board in *. by rewrite Hi.
  - intros (i & j & Hi & Hj & Hs & Hdot). unfold board_symbol, board in *.
    destruct (b !! i) as [row|] eqn:Hrow; [|done]. simpl in Hs.
    exists row. split; [|by eapply list_elem_of_lookup_2].
    apply list_elem_of_fmap. exists (s, j). split; [done|].
    apply (row_inequalities_elem (length b)); [by eapply board_shape_row|].
    by exists j.
Qed.

Lemma symbols_known_false b :
  board_shape b = true →
  symbols_known b = false ↔
  ∃ i j s, i < length b ∧ j + 1 < length b ∧
           board_symbol b i j = Some (Sym s) ∧ s ≠ "." ∧ switch s = None.
Proof.
  intros Hok. unfold symbols_known. rewrite <- not_true_iff_false, forallb_elem_of.
  split.
  - intros Hnot.
    destruct (decide (Exists (λ s, switch s = None) (board_inequalities b))) as [Hex|Hall].
    + apply Exists_exists in Hex as (s & Hs & Hsw).
      apply elem_of_board_inequalities in Hs as (i & j & ? & ? & ? & ?); [|done].
      by exists i, j, s.
    + destruct Hnot. intros s Hs. apply bool_decide_eq_true.
      destruct (switch s) eqn:Hsw; [by eexists|].
      destruct Hall. apply Exists_exists. by exists s.
  - intros (i & j & s & Hi & Hj & Hs & Hdot & Hsw) Hall.
    assert (s ∈ board_inequalities b) as Hin.
    { apply elem_of_board_inequalities; [done|]. by exists i, j. }
    apply Hall, bool_decide_eq_true in Hin. rewrite Hsw in Hin. by destruct Hin.
Qed.

(** X9. On a board of the right shape each encoder raises exactly when
    some string between two cells is neither ['.'] nor a key of [switch]:
    the materializer calls the missing entry. *)
Theorem encoders_raise_on_unknown_symbol b :
  board_shape b = true →
  let unknown := ∃ i j s, i < length b ∧ j + 1 < length b ∧
                          board_symbol b i j = Some (Sym s) ∧ s ≠ "." ∧
                          switch s = None in
  (futoshiki_csp_model_1 b = None ↔ unknown) ∧
  (futoshiki_csp_model_2 b = None ↔ unknown).
Proof.
  intros Hok unknown. unfold unknown.
  rewrite <- (symbols_known_false b Hok).
  rewrite futoshiki_csp_model_1_spec, futoshiki_csp_model_2_spec by done.
  by destruct (symbols_known b).
Qed.

(** *** The propagators on a freshly built model *)

Lemma fresh_gac b name l newVar :
  board_shape b = true → Forall (well_scoped (length b)) l →
  ∃ fuel r, prop_GAC fuel (extend (new_CSP name (board_variables b)) l) newVar = Some r ∧
            NoDup r.1.2.
Proof.
  intros Hok Hl. set (csp := extend (new_CSP name (board_variables b)) l).
  destruct (gac_loop_terminates csp (gac_seed csp (constraints_of csp newVar)) [])
    as (fuel & [[v pruned] csp'] & Hrun);
    [by apply fresh_constraints_wf|by apply fresh_consistent|apply queue_ok_seed|].
  exists fuel, (v, pruned, csp'). split; [done|]. simpl.
  assert (replay csp pruned = Some csp') as Hrep.
  { eapply gac_loop_replay; [|done]. apply domains_nodup_get, fresh_domains_nodup. }
  eapply replay_NoDup; [done|]. intros p _. apply fresh_unassigned.
Qed.

(** X24. On the model of a board in the input format, as either encoder
    returns it, every call of [prop_GAC] terminates and lists no pruning
    twice. *)
Theorem prop_GAC_on_encoded_board b newVar :
  board_ok b = true →
  ∃ csp1 csp2 variable_array fuel1 r1 fuel2 r2,
    futoshiki_csp_model_1 b = Some (csp1, variable_array) ∧
    futoshiki_csp_model_2 b = Some (csp2, variable_array) ∧
    prop_GAC fuel1 csp1 newVar = Some r1 ∧ NoDup r1.1.2 ∧
    prop_GAC fuel2 csp2 newVar = Some r2 ∧ NoDup r2.1.2.
Proof.
  intros Hok. pose proof (board_ok_shape b Hok) as Hshape.
  destruct (fresh_gac b "Futoshiki-M1"
              (not_equal_constraints (length b) (board_variables b) ++
               inequality_constraints b (board_variables b)) newVar Hshape)
    as (fuel1 & r1 & Hrun1 & Hnd1).
  { apply Forall_app. split; [apply not_equal_well_scoped|by apply inequality_well_scoped]. }
  destruct (fresh_gac b "Futoshiki-M2"
              (all_different_constraints (length b) (board_variables b) ++
               inequality_constraints b (board_variables b)) newVar Hshape)
    as (fuel2 & r2 & Hrun2 & Hnd2).
  { apply Forall_app. split; [apply all_different_well_scoped|by apply inequality_well_scoped]. }
  eexists _, _, _, fuel1, r1, fuel2, r2.
  split; [by apply futoshiki_csp_model_1_board_ok|].
  split; [by apply futoshiki_csp_model_2_board_ok|]. done.
Qed.

Lemma fc_loop_idle csp cs pruned :
  (∀ c, c ∈ cs → get_n_unasgn csp c ≠ 1) → fc_loop csp cs pruned = (true, pruned, csp).
Proof.
  induction cs as [|c cs IH]; intros H; [done|]. simpl.
  rewrite decide_False by (apply H; left). apply IH. intros c' Hc'. apply H. by right.
Qed.

Lemma fresh_fc b name l newVar :
  Forall (λ c, 2 ≤ length (scope c)) l →
  let csp := extend (new_CSP name (board_variables b)) l in
  prop_FC csp newVar = (true, [], csp).
Proof.
  intros Hl csp. apply fc_loop_idle. intros c Hc. apply constraints_of_all in Hc.
  apply get_con_elem in Hc. rewrite Forall_forall in Hl. specialize (Hl _ Hc).
  unfold get_n_unasgn, get_scope. rewrite filter_all; [lia|].
  intros v _. apply is_assigned_false, fresh_unassigned.
Qed.

(** X17. On the model of a board of size at least 2, as the encoders
    return it, [prop_FC] prunes nothing and reports success: no variable is
    assigned yet, pre-set cells included, so no constraint has exactly one
    unassigned variable. *)
Theorem prop_FC_idle_on_encoded_board b newVar :
  board_ok b = true → 2 ≤ length b →
  ∃ csp1 csp2 variable_array,
    futoshiki_csp_model_1 b = Some (csp1, variable_array) ∧
    futoshiki_csp_model_2 b = Some (csp2, variable_array) ∧
    prop_FC csp1 newVar = (true, [], csp1) ∧
    prop_FC csp2 newVar = (true, [], csp2).
Proof.
  intros Hok Hn. pose proof (board_ok_shape b Hok) as Hshape.
  assert (Forall (λ c, 2 ≤ length (scope c))
            (inequality_constraints b (board_variables b))) as Hineq.
  { apply Forall_forall. intros c Hc.
    apply elem_of_inequality_constraints in Hc as (i & j & s & _ & _ & _ & _ & ->); done. }
  eexists _, _, _.
  split; [by apply futoshiki_csp_model_1_board_ok|].
  split; [by apply futoshiki_csp_model_2_board_ok|].
  split; apply fresh_fc; (apply Forall_app; split; [|done]); apply Forall_forall; intros c Hc.
  - apply elem_of_not_equal_constraints in Hc
      as (i & cur & _ & _ & [(j & _ & ->)|(k & _ & ->)]); done.
  - apply elem_of_all_different_constraints in Hc as [(i & _ & ->)|(j & _ & ->)]; simpl.
    + by rewrite length_seq.
    + by rewrite length_fmap, length_seq.
Qed.

(** *** From the board to the propagator *)

Lemma fresh_gac_solution b name l σ newVar :
  board_shape b = true → Forall (well_scoped (length b)) l →
  solution (extend (new_CSP name (board_variables b)) l) σ →
  ∃ fuel pruned csp',
    prop_GAC fuel (extend (new_CSP name (board_variables b)) l) newVar
      = Some (true, pruned, csp') ∧
    solution csp' σ.
Proof.
  intros Hok Hl Hsol. set (csp := extend (new_CSP name (board_variables b)) l) in *.
  destruct (gac_loop_terminates csp (gac_seed csp (constraints_of csp newVar)) [])
    as (fuel & [[v pruned] csp'] & Hrun);
    [by apply fresh_constraints_wf|by apply fresh_consistent|apply queue_ok_seed|].
  destruct (gac_loop_solution σ _ _ _ _ _ _ _ (queue_ok_seed csp newVar) Hsol Hrun)
    as (-> & Hsol' & _).
  by exists fuel, pruned, csp'.
Qed.

(** X25. From the board to the propagator: for a board of size at least 2
    in the input format and a filling that obeys the rules of the puzzle,
    the call of [prop_GAC] before any assignment, on the model of either
    encoder, terminates and reports success, and the filling is still
    within the current domains afterwards. *)
Theorem prop_GAC_keeps_board_solutions b σ :
  board_ok b = true → 2 ≤ length b → futoshiki_rules b σ →
  ∃ csp1 csp2 variable_array fuel1 pruned1 csp1' fuel2 pruned2 csp2',
    futoshiki_csp_model_1 b = Some (csp1, variable_array) ∧
    futoshiki_csp_model_2 b = Some (csp2, variable_array) ∧
    prop_GAC fuel1 csp1 None = Some (true, pruned1, csp1') ∧ solution csp1' σ ∧
    prop_GAC fuel2 csp2 None = Some (true, pruned2, csp2') ∧ solution csp2' σ.
Proof.
  intros Hok Hn Hrules. pose proof (board_ok_shape b Hok) as Hshape.
  destruct (fresh_gac_solution b "Futoshiki-M1"
              (not_equal_constraints (length b) (board_variables b) ++
               inequality_constraints b (board_variables b)) σ None Hshape)
    as (fuel1 & pruned1 & csp1' & Hrun1 & Hsol1).
  { apply Forall_app. split; [apply not_equal_well_scoped|by apply inequality_well_scoped]. }
  { by apply model_1_solution. }
  destruct (fresh_gac_solution b "Futoshiki-M2"
              (all_different_constraints (length b) (board_variables b) ++
               inequality_constraints b (board_variables b)) σ None Hshape)
    as (fuel2 & pruned2 & csp2' & Hrun2 & Hsol2).
  { apply Forall_app. split; [apply all_different_well_scoped|by apply inequality_well_scoped]. }
  { by apply model_2_solution. }
  eexists _, _, _, fuel1, pruned1, csp1', fuel2, pruned2, csp2'.
  split; [by apply futoshiki_csp_model_1_board_ok|].
  split; [by apply futoshiki_csp_model_2_board_ok|]. done.
Qed.

(** *** The further properties at work on the example models *)

(** X10 at work on the 2x2 board with its first cell assigned. *)
Lemma prop_BT_accepts_solution_witness :
  (prop_BT assigned_2x2 (Some 0)).1.1 = true.
Proof.
  apply (prop_BT_accepts_solution assigned_2x2 filled_2x2 (Some 0)). by_evaluation.
Defined.

(** X11 at work on the board whose first row holds 1 twice. *)
Lemma prop_FC_prunes_justified_witness :
  ∃ c, c ∈ constraints_of fc_wipeout_model (Some 0) ∧
       get_n_unasgn fc_wipeout_model c = 1 ∧
       1 ∈ get_scope fc_wipeout_model c ∧
       get_assigned_value (get_var fc_wipeout_model 1) = None ∧
       1%Z ∈ cur_domain (get_var fc_wipeout_model 1) ∧
       fc_tuple fc_wipeout_model c 1 1%Z ∉ sat_tuples (get_con fc_wipeout_model c).
Proof.
  apply (prop_FC_prunes_justified fc_wipeout_model (Some 0) false [(1, 1%Z)]
           (prune_all fc_wipeout_model [(1, 1%Z)]) 1 1%Z).
  - vm_compute. reflexivity.
  - left.
Defined.

(** X12 at work on the 2x2 board with its first cell assigned. *)
Lemma prop_FC_keeps_solution_witness :
  let pruned := [(1, 1%Z); (2, 1%Z)] in
  true = true ∧ solution (prune_all assigned_2x2 pruned) filled_2x2 ∧
  Forall (λ p, filled_2x2 !!! p.1 ≠ p.2) pruned.
Proof.
  intros pruned.
  apply (prop_FC_keeps_solution assigned_2x2 filled_2x2 (Some 0) true pruned
           (prune_all assigned_2x2 pruned)).
  - by_evaluation.
  - vm_compute. reflexivity.
Defined.

(** X13 at work on the board whose first row holds 1 twice. *)
Lemma prop_FC_fails_on_wipeout_witness :
  false = false ↔
  ∃ c u, c ∈ constraints_of fc_wipeout_model (Some 0) ∧
         get_n_unasgn fc_wipeout_model c = 1 ∧ u ∈ get_scope fc_wipeout_model c ∧
         get_assigned_value (get_var fc_wipeout_model u) = None ∧
         cur_domain (get_var (prune_all fc_wipeout_model [(1, 1%Z)]) u) = [].
Proof.
  apply (prop_FC_fails_on_wipeout fc_wipeout_model (Some 0) false [(1, 1%Z)]
           (prune_all fc_wipeout_model [(1, 1%Z)])).
  vm_compute. reflexivity.
Defined.

(** X14 at work: the inequality of the 2x2 board, after its first cell
    was assigned. *)
Lemma prop_FC_forward_checks_witness :
  let csp' := prune_all assigned_2x2 [(1, 1%Z); (2, 1%Z)] in
  cur_domain (get_var csp' 1) ≠ [] ∧
  ∀ val, val ∈ cur_domain (get_var csp' 1) →
         fc_tuple assigned_2x2 4 1 val ∈ sat_tuples (get_con assigned_2x2 4).
Proof.
  intros csp'.
  apply (prop_FC_forward_checks assigned_2x2 (Some 0) [(1, 1%Z); (2, 1%Z)] csp' 4 1).
  - vm_compute. reflexivity.
  - by_evaluation.
  - vm_compute. reflexivity.
  - by_evaluation.
  - reflexivity.
Defined.

(** X15 at work on the board whose first row holds 1 twice. *)
Lemma prop_FC_prunings_exact_witness :
  let pruned := [(1, 1%Z)] in
  replay fc_wipeout_model pruned = Some (prune_all fc_wipeout_model pruned) ∧
  NoDup pruned ∧
  (∀ p, p ∈ pruned → get_assigned_value (get_var fc_wipeout_model p.1) = None).
Proof.
  intros pruned.
  apply (prop_FC_prunings_exact fc_wipeout_model (Some 0) false pruned
           (prune_all fc_wipeout_model pruned)).
  - by_evaluation.
  - vm_compute. reflexivity.
Defined.

(** X18 at work on the 2x2 board. *)
Lemma prop_GAC_keeps_solution_witness :
  ∃ fuel pruned csp',
    prop_GAC fuel model_2x2 None = Some (true, pruned, csp') ∧
    solution csp' filled_2x2 ∧ Forall (λ p, filled_2x2 !!! p.1 ≠ p.2) pruned.
Proof.
  apply (prop_GAC_keeps_solution model_2x2 filled_2x2 None); by_evaluation.
Defined.

(** X19 at work on the unsolvable board with its first cell assigned. *)
Lemma prop_GAC_fails_on_wipeout_witness :
  let pruned := [(0, 2%Z); (1, 1%Z)] in
  let csp' := prune_all gac_assigned_model pruned in
  (false = false ↔
   ∃ u, cur_domain (get_var gac_assigned_model u) ≠ [] ∧
        cur_domain (get_var csp' u) = []) ∧
  (false = false →
   ∃ l u x, pruned = l ++ [(u, x)] ∧
            get_assigned_value (get_var gac_assigned_model u) = None ∧
            cur_domain (get_var csp' u) = []).
Proof.
  intros pruned csp'.
  apply (prop_GAC_fails_on_wipeout 30 gac_assigned_model (Some 0) false pruned csp').
  vm_compute. reflexivity.
Defined.

(** X20 at work in a search on the 3x3 board. *)
Lemma prop_GAC_success_prunes_unassigned_witness :
  let pruned := [(2, 1%Z); (5, 1%Z); (6, 1%Z); (7, 1%Z)] in
  prunes_unassigned gac_search_3x3 pruned ∧ NoDup pruned.
Proof.
  intros pruned.
  apply (prop_GAC_success_prunes_unassigned 20 gac_search_3x3 (Some 8) pruned
           (prune_all gac_search_3x3 pruned)); [by_evaluation..|].
  vm_compute. reflexivity.
Defined.

(** X21 at work in a search on the 3x3 board: the value 1 of the first
    cell in the inequality. *)
Lemma prop_GAC_establishes_arc_consistency_witness :
  has_support
    (prune_all gac_search_3x3 [(2, 1%Z); (5, 1%Z); (6, 1%Z); (7, 1%Z)]) 18 0 1%Z = true.
Proof.
  apply (prop_GAC_establishes_arc_consistency 20 gac_search_3x3 (Some 8)
           [(2, 1%Z); (5, 1%Z); (6, 1%Z); (7, 1%Z)]);
    [by_evaluation..|vm_compute; reflexivity|by_evaluation|by_evaluation|by_evaluation].
Defined.

(** X23 at work on the unsolvable board with its first cell assigned. *)
Lemma prop_GAC_changes_current_domains_only_witness :
  let pruned := [(0, 2%Z); (1, 1%Z)] in
  let csp' := prune_all gac_assigned_model pruned in
  csp_name csp' = csp_name gac_assigned_model ∧
  csp_cons csp' = csp_cons gac_assigned_model ∧
  length (csp_vars csp') = length (csp_vars gac_assigned_model) ∧
  ∀ v, vname (get_var csp' v) = vname (get_var gac_assigned_model v) ∧
       domain (get_var csp' v) = domain (get_var gac_assigned_model v) ∧
       get_assigned_value (get_var csp' v) =
         get_assigned_value (get_var gac_assigned_model v) ∧
       curdom (get_var csp' v) =
         filter (λ y, (v, y) ∉ pruned) (curdom (get_var gac_assigned_model v)).
Proof.
  intros pruned csp'.
  apply (prop_GAC_changes_current_domains_only 30 gac_assigned_model (Some 0) false).
  vm_compute. reflexivity.
Defined.

(** X22 at work on the unsolvable board with its first cell assigned. *)
Lemma prop_GAC_prunings_replay_witness :
  let pruned := [(0, 2%Z); (1, 1%Z)] in
  replay gac_assigned_model pruned = Some (prune_all gac_assigned_model pruned) ∧
  (prunes_unassigned gac_assigned_model pruned → NoDup pruned).
Proof.
  intros pruned.
  apply (prop_GAC_prunings_replay 30 gac_assigned_model (Some 0) false).
  - by_evaluation.
  - vm_compute. reflexivity.
Defined.

(** X3 at work: the second cell of the first row of the 2x2 board. *)
Lemma encoders_variables_witness :
  ∃ csp1 csp2 variable_array z,
    futoshiki_csp_model_1 board_2x2 = Some (csp1, variable_array) ∧
    futoshiki_csp_model_2 board_2x2 = Some (csp2, variable_array) ∧
    csp_vars csp2 = csp_vars csp1 ∧
    length (csp_vars csp1) = length board_2x2 * length board_2x2 ∧
    length variable_array = length board_2x2 ∧
    cell variable_array 0 1 = Some (0 * length board_2x2 + 1) ∧
    board_cell board_2x2 0 1 = Some (Num z) ∧
    csp_vars csp1 !! (0 * length board_2x2 + 1) =
      Some (new_Variable ("V" +:+ pretty 0 +:+ "," +:+ pretty 1)
              (cell_domain (length board_2x2) z)).
Proof.
  apply (encoders_variables board_2x2 0 1); [reflexivity|simpl; lia|simpl; lia].
Defined.

(** X4 at work on the 2x2 board. *)
Lemma futoshiki_csp_model_1_constraints_witness :
  let n := length board_2x2 in
  ∃ csp variable_array,
    futoshiki_csp_model_1 board_2x2 = Some (csp, variable_array) ∧
    length (csp_cons csp) = n * n * (n - 1) + length (board_inequalities board_2x2) ∧
    Forall (λ c, ∃ u v, scope c = [u; v] ∧ u ≠ v ∧ u < n * n ∧ v < n * n)
      (csp_cons csp) ∧
    Forall (λ c, cname c = "not_equal") (take (n * n * (n - 1)) (csp_cons csp)) ∧
    Forall (λ c, cname c = "<" ∨ cname c = ">") (drop (n * n * (n - 1)) (csp_cons csp)).
Proof. exact (futoshiki_csp_model_1_constraints board_2x2 eq_refl). Defined.


(** X6 at work on the 2x2 board and its filling. *)
Lemma futoshiki_csp_model_1_solutions_witness :
  ∃ csp variable_array,
    futoshiki_csp_model_1 board_2x2 = Some (csp, variable_array) ∧
    (solution csp filled_2x2 ↔ futoshiki_rules board_2x2 filled_2x2).
Proof.
  apply (futoshiki_csp_model_1_solutions board_2x2 filled_2x2); [reflexivity|simpl; lia].
Defined.

(** X7 at work on the 2x2 board and its filling. *)
Lemma futoshiki_csp_model_2_solutions_witness :
  ∃ csp variable_array,
    futoshiki_csp_model_2 board_2x2 = Some (csp, variable_array) ∧
    (solution csp filled_2x2 ↔ futoshiki_rules board_2x2 filled_2x2).
Proof. apply (futoshiki_csp_model_2_solutions board_2x2 filled_2x2). reflexivity. Defined.

(** X8 at work on the 2x2 board and its filling. *)
Lemma encoders_same_solutions_witness :
  ∃ csp1 csp2 variable_array,
    futoshiki_csp_model_1 board_2x2 = Some (csp1, variable_array) ∧
    futoshiki_csp_model_2 board_2x2 = Some (csp2, variable_array) ∧
    (solution csp1 filled_2x2 ↔ solution csp2 filled_2x2).
Proof.
  apply (encoders_same_solutions board_2x2 filled_2x2); [reflexivity|simpl; lia].
Defined.

(** X9 at work on a board with ['='] between two cells. *)
Lemma encoders_raise_on_unknown_symbol_witness :
  let unknown := ∃ i j s, i < length board_unknown_symbol ∧
                          j + 1 < length board_unknown_symbol ∧
                          board_symbol board_unknown_symbol i j = Some (Sym s) ∧
                          s ≠ "." ∧ switch s = None in
  (futoshiki_csp_model_1 board_unknown_symbol = None ↔ unknown) ∧
  (futoshiki_csp_model_2 board_unknown_symbol = None ↔ unknown).
Proof. exact (encoders_raise_on_unknown_symbol board_unknown_symbol eq_refl). Defined.

(** X24 at work on the 2x2 board. *)
Lemma prop_GAC_on_encoded_board_witness :
  ∃ csp1 csp2 variable_array fuel1 r1 fuel2 r2,
    futoshiki_csp_model_1 board_2x2 = Some (csp1, variable_array) ∧
    futoshiki_csp_model_2 board_2x2 = Some (csp2, variable_array) ∧
    prop_GAC fuel1 csp1 None = Some r1 ∧ NoDup r1.1.2 ∧
    prop_GAC fuel2 csp2 None = Some r2 ∧ NoDup r2.1.2.
Proof. apply (prop_GAC_on_encoded_board board_2x2 None). reflexivity. Defined.

(** X17 at work on the 2x2 board. *)
Lemma prop_FC_idle_on_encoded_board_witness :
  ∃ csp1 csp2 variable_array,
    futoshiki_csp_model_1 board_2x2 = Some (csp1, variable_array) ∧
    futoshiki_csp_model_2 board_2x2 = Some (csp2, variable_array) ∧
    prop_FC csp1 None = (true, [], csp1) ∧
    prop_FC csp2 None = (true, [], csp2).
Proof.
  apply (prop_FC_idle_on_encoded_board board_2x2 None); [reflexivity|simpl; lia].
Defined.

(** X25 at work on the 2x2 board and its filling. *)
Lemma prop_GAC_keeps_board_solutions_witness :
  ∃ csp1 csp2 variable_array fuel1 pruned1 csp1' fuel2 pruned2 csp2',
    futoshiki_csp_model_1 board_2x2 = Some (csp1, variable_array) ∧
    futoshiki_csp_model_2 board_2x2 = Some (csp2, variable_array) ∧
    prop_GAC fuel1 csp1 None = Some (true, pruned1, csp1') ∧ solution csp1' filled_2x2 ∧
    prop_GAC fuel2 csp2 None = Some (true, pruned2, csp2') ∧ solution csp2' filled_2x2.
Proof.
  apply (prop_GAC_keeps_board_solutions board_2x2 filled_2x2);
    [reflexivity|simpl; lia|].
  apply (model_2_solution board_2x2 filled_2x2); [reflexivity|]. by_evaluation.
Defined.

